(** * Document chunking, document assembly and vector queries of the AI Lab demo

    A shallow embedding of

    - [lib/documents/processor.ts]: [chunkText], [createChunk],
      [processPDF], [processURL], [processDocument];
    - [lib/vector/pinecone-client.ts]: [queryVectors].

    JavaScript strings are sequences of UTF-16 code units, modelled as
    [list N].  Numbers that the code uses as sizes and offsets are
    modelled as [Z] (the integer-valued numbers; fractional options and
    [NaN] sizes are outside this model).  Similarity scores are modelled
    as rationals with a separate [NaN].  The [while] loop of [chunkText]
    takes fuel: [None] means that the loop did not finish within it. *)

From Stdlib Require Import ZArith NArith QArith List Bool Lia String Ascii.
From Stdlib Require Import DecimalString DecimalPos DecimalZ Sorting.Sorted.
From Stdlib Require FinFun.
From Stdlib Require Import Permutation.
Import ListNotations.

Local Open Scope Z_scope.

(** ** JavaScript strings *)

Module JsString.

Definition jsstring := list N.

(** A literal: the code units of an ASCII string. *)
Definition u (s : string) : jsstring :=
  List.map N_of_ascii (list_ascii_of_string s).

Definition LF : N := 10%N.
Definition CR : N := 13%N.
Definition DOT : N := 46%N.

(** [WhiteSpace] and [LineTerminator] of ECMAScript: what [trim] strips
    and what the regular expression class [\s] matches. *)
Definition is_ws (c : N) : bool :=
  ((9 <=? c) && (c <=? 13) || (c =? 32) || (c =? 160) || (c =? 5760)
   || (8192 <=? c) && (c <=? 8202) || (c =? 8232) || (c =? 8233)
   || (c =? 8239) || (c =? 8287) || (c =? 12288) || (c =? 65279))%N.

Fixpoint trimStart (s : jsstring) : jsstring :=
  match s with
  | [] => []
  | c :: s' => if is_ws c then trimStart s' else s
  end.

Definition trimEnd (s : jsstring) : jsstring := rev (trimStart (rev s)).

Definition trim (s : jsstring) : jsstring := trimEnd (trimStart s).

Definition len (s : jsstring) : Z := Z.of_nat (List.length s).

(** [s.slice(a, b)]: a negative bound counts from the end, bounds are
    clamped to the string, an empty range gives the empty string. *)
Definition slice_bound (s : jsstring) (k : Z) : Z :=
  if k <? 0 then Z.max (len s + k) 0 else Z.min k (len s).

Definition slice (s : jsstring) (a b : Z) : jsstring :=
  let from := slice_bound s a in
  let to := slice_bound s b in
  if from <? to
  then firstn (Z.to_nat (to - from)) (skipn (Z.to_nat from) s)
  else [].

Fixpoint starts_with (pat s : jsstring) : bool :=
  match pat, s with
  | [], _ => true
  | _ :: _, [] => false
  | p :: pat', c :: s' => (p =? c)%N && starts_with pat' s'
  end.

(** The largest [i <= k] at which [pat] occurs in [s], or [-1]. *)
Fixpoint lastIndexOf_from (s pat : jsstring) (k : nat) : Z :=
  if starts_with pat (skipn k s) then Z.of_nat k
  else match k with
       | O => -1
       | S k' => lastIndexOf_from s pat k'
       end.

(** [s.lastIndexOf(pat, position)]: the position is clamped to
    [0 .. length], the search runs backwards from there. *)
Definition lastIndexOf (s pat : jsstring) (position : Z) : Z :=
  lastIndexOf_from s pat (Z.to_nat (Z.min (Z.max position 0) (len s))).

(** [s.includes(pat)] *)
Fixpoint includes (s pat : jsstring) : bool :=
  starts_with pat s ||
  match s with
  | [] => false
  | _ :: s' => includes s' pat
  end.

(** [s.replace(/\r\n/g, '\n')] *)
Fixpoint replace_crlf (s : jsstring) : jsstring :=
  match s with
  | [] => []
  | c :: s' =>
      match s' with
      | d :: s'' =>
          if (c =? CR)%N && (d =? LF)%N then LF :: replace_crlf s''
          else c :: replace_crlf s'
      | [] => [c]
      end
  end.

(** [s.replace(/\r/g, '\n')] *)
Definition replace_cr (s : jsstring) : jsstring :=
  List.map (fun c => if (c =? CR)%N then LF else c) s.

(** What a maximal run of [n] newlines becomes under
    [replace(/\n{3,}/g, '\n\n')]. *)
Definition newline_run (n : nat) : jsstring :=
  if (3 <=? n)%nat then [LF; LF] else repeat LF n.

(** [s.replace(/\n{3,}/g, '\n\n')], with [pending] newlines already
    read and not yet written. *)
Fixpoint collapse_newlines (pending : nat) (s : jsstring) : jsstring :=
  match s with
  | [] => newline_run pending
  | c :: s' =>
      if (c =? LF)%N then collapse_newlines (S pending) s'
      else newline_run pending ++ c :: collapse_newlines 0 s'
  end.

(** The pieces of [s.split(/\s+/)]; [piece] is the current piece,
    reversed, and [inSep] says that the previous unit was a separator. *)
Fixpoint split_ws_aux (s piece : jsstring) (inSep : bool) : list jsstring :=
  match s with
  | [] => [rev piece]
  | c :: s' =>
      if is_ws c
      then if inSep then split_ws_aux s' piece true
           else rev piece :: split_ws_aux s' [] true
      else split_ws_aux s' (c :: piece) false
  end.

Definition split_ws (s : jsstring) : list jsstring := split_ws_aux s [] false.

(** The decimal digits of an integer, as in a template literal. *)
Definition of_Z (z : Z) : jsstring :=
  u (NilZero.string_of_int (Z.to_int z)).

(** No code unit of [s] is white space. *)
Definition ws_free (s : jsstring) : Prop := forallb (fun c => negb (is_ws c)) s = true.

(** Every code unit of [s] is white space. *)
Definition blank (s : jsstring) : Prop := forallb is_ws s = true.

End JsString.

Import JsString.

(** ** The chunker *)

Module Chunker.

(** ['pdf' | 'url' | 'text'] *)
Inductive SourceKind := Pdf | Url | Text.

Record ChunkingOptions := {
  chunkSize : Z;
  chunkOverlap : Z;
  minChunkSize : Z;
  preserveParagraphs : bool
}.

(** [Partial<ChunkingOptions>]: [None] is an absent key. *)
Record PartialChunkingOptions := {
  p_chunkSize : option Z;
  p_chunkOverlap : option Z;
  p_minChunkSize : option Z;
  p_preserveParagraphs : option bool
}.

Definition no_options : PartialChunkingOptions :=
  {| p_chunkSize := None; p_chunkOverlap := None;
     p_minChunkSize := None; p_preserveParagraphs := None |}.

Definition DEFAULT_CHUNKING_OPTIONS : ChunkingOptions :=
  {| chunkSize := 1000; chunkOverlap := 200;
     minChunkSize := 100; preserveParagraphs := true |}.

Definition or_default {A} (o : option A) (d : A) : A :=
  match o with Some a => a | None => d end.

(** [{ ...DEFAULT_CHUNKING_OPTIONS, ...options }] *)
Definition merge_options (options : PartialChunkingOptions) : ChunkingOptions :=
  {| chunkSize := or_default (p_chunkSize options) (chunkSize DEFAULT_CHUNKING_OPTIONS);
     chunkOverlap := or_default (p_chunkOverlap options) (chunkOverlap DEFAULT_CHUNKING_OPTIONS);
     minChunkSize := or_default (p_minChunkSize options) (minChunkSize DEFAULT_CHUNKING_OPTIONS);
     preserveParagraphs :=
       or_default (p_preserveParagraphs options) (preserveParagraphs DEFAULT_CHUNKING_OPTIONS) |}.

Record ChunkMetadata := {
  wordCount : Z;
  charCount : Z;
  source : SourceKind;
  documentTitle : jsstring
}.

Record DocumentChunk := {
  id : jsstring;
  documentId : jsstring;
  content : jsstring;
  index : Z;
  startIndex : Z;
  endIndex : Z;
  metadata : ChunkMetadata
}.

(** [createChunk]; [now] is what [Date.now()] returns at the call. *)
Definition createChunk (now : Z) (content : jsstring) (index startIndex endIndex : Z)
    (source : SourceKind) (documentTitle : jsstring) : DocumentChunk :=
  {| id := u "chunk-" ++ of_Z now ++ u "-" ++ of_Z index;
     documentId := [];
     content := content;
     index := index;
     startIndex := startIndex;
     endIndex := endIndex;
     metadata := {| wordCount := Z.of_nat (List.length (split_ws content));
                    charCount := len content;
                    source := source;
                    documentTitle := documentTitle |} |}.

(** The normalisation at the head of [chunkText]. *)
Definition cleanText (text : jsstring) : jsstring :=
  trim (collapse_newlines 0 (replace_cr (replace_crlf text))).

(** The end of the window that starts at [startIndex]: the hard cut,
    moved to a paragraph break or a full stop when [preserveParagraphs]
    asks for it. *)
Definition window_end (opts : ChunkingOptions) (clean : jsstring) (startIndex : Z) : Z :=
  let endIndex := Z.min (startIndex + chunkSize opts) (len clean) in
  if preserveParagraphs opts && (endIndex <? len clean) then
    let paragraphEnd := lastIndexOf clean [LF; LF] endIndex in
    if paragraphEnd >? startIndex + minChunkSize opts then paragraphEnd + 2
    else
      let sentenceEnd := lastIndexOf clean [DOT] endIndex in
      if sentenceEnd >? startIndex + minChunkSize opts then sentenceEnd + 1
      else endIndex
  else endIndex.

Definition next_start (opts : ChunkingOptions) (startIndex endIndex : Z) : Z :=
  Z.max (endIndex - chunkOverlap opts) (startIndex + minChunkSize opts).

Section Loop.

(** [clock n] is the value of the [n]-th reading of [Date.now()]. *)
Variable clock : nat -> Z.
Variable opts : ChunkingOptions.
Variable clean : jsstring.

(** The [while] loop of [chunkText].  [ticks] counts the readings of
    the clock so far, [chunks] is the array, [chunks.push] appends. *)
Fixpoint chunk_loop (fuel : nat) (startIndex chunkIndex : Z)
    (chunks : list DocumentChunk) (ticks : nat) : option (list DocumentChunk) :=
  match fuel with
  | O => None
  | S fuel' =>
      if startIndex <? len clean then
        let endIndex := window_end opts clean startIndex in
        let chunkContent := trim (slice clean startIndex endIndex) in
        let emit := len chunkContent >=? minChunkSize opts in
        let chunks' :=
          if emit
          then chunks ++ [createChunk (clock ticks) chunkContent chunkIndex
                            startIndex endIndex Text (u "Document")]
          else chunks in
        let chunkIndex' := if emit then chunkIndex + 1 else chunkIndex in
        let ticks' := if emit then S ticks else ticks in
        let nextStart := next_start opts startIndex endIndex in
        if nextStart >=? endIndex then Some chunks'
        else chunk_loop fuel' nextStart chunkIndex' chunks' ticks'
      else Some chunks
  end.

End Loop.

(** [chunkText(text, options)].  [None]: the loop needs more fuel. *)
Definition chunkText (clock : nat -> Z) (fuel : nat) (text : jsstring)
    (options : PartialChunkingOptions) : option (list DocumentChunk) :=
  let opts := merge_options options in
  if match trim text with [] => true | _ => false end then Some []
  else
    let clean := cleanText text in
    if len clean <=? chunkSize opts
    then Some [createChunk (clock O) clean 0 0 (len clean) Text (u "Single Document")]
    else chunk_loop clock opts clean fuel 0 0 [] O.

(** What the chunk list of a document is to satisfy, over the text
    [clean] that the offsets count in. *)

(** The offsets of a chunk lie in the text, in order, and the content
    is the trimmed slice between them. *)
Definition well_formed (clean : jsstring) (c : DocumentChunk) : Prop :=
  0 <= startIndex c /\ startIndex c < endIndex c /\ endIndex c <= len clean /\
  content c = trim (slice clean (startIndex c) (endIndex c)).

(** The sequence indices are [k], [k + 1], ... in list order. *)
Definition indexed_from (k : Z) (l : list DocumentChunk) : Prop :=
  List.map index l = List.map (fun i => k + Z.of_nat i) (seq 0 (List.length l)).

(** [startIndex] increases strictly along the list. *)
Definition increasing_starts (l : list DocumentChunk) : Prop :=
  StronglySorted (fun a b => startIndex a < startIndex b) l.

End Chunker.

(** ** Thrown values *)

Module Js.

(** What a [throw] carries: an [Error] with its message, or any other
    value. *)
Inductive thrown := ErrorObj (message : jsstring) | NonError.

(** A call that returns or throws. *)
Definition result (A : Type) : Type := (A + thrown)%type.

(** [error instanceof Error ? error.message : fallback] *)
Definition message_or (fallback : jsstring) (e : thrown) : jsstring :=
  match e with
  | ErrorObj m => m
  | NonError => fallback
  end.

(** The truth value of a string: the empty string is falsy. *)
Definition nonempty (s : jsstring) : bool :=
  match s with [] => false | _ :: _ => true end.

(** [a || b] on an optional string. *)
Definition str_or (a : option jsstring) (b : jsstring) : jsstring :=
  match a with
  | Some s => if nonempty s then s else b
  | None => b
  end.

End Js.

(** ** The document processor *)

Module Processor.

Import Js.
Import Chunker.

(** The result of [pdf-parse]. *)
Record PdfData := {
  pdf_text : jsstring;
  numpages : Z;
  pdf_info : jsstring;
  pdf_version : jsstring
}.

(** The parts of a [fetch] response that [processURL] reads;
    [body] is the outcome of [response.text()]. *)
Record Response := {
  ok : bool;
  http_status : Z;
  statusText : jsstring;
  content_type : option jsstring;
  body : result jsstring
}.

(** What lies outside the module: the clock, the PDF parser (with its
    dynamic import), the network, and the regular-expression engine for
    the two expressions over markup: [strip_markup] is the chain of
    [replace] calls that removes scripts, styles and tags and collapses
    white space, [match_title] is the capture of the [<title>] match. *)
Record World := {
  clock : nat -> Z;
  pdf_parse : list N -> result PdfData;
  fetch : jsstring -> result Response;
  strip_markup : jsstring -> jsstring;
  match_title : jsstring -> option jsstring
}.

(** The [metadata: any] objects that the extractors build. *)
Record ExtractedMetadata := {
  filename : option jsstring;
  md_url : option jsstring;
  contentType : option jsstring;
  md_title : option jsstring;
  pageCount : option Z;
  info : option jsstring;
  version : option jsstring
}.

Definition no_metadata : ExtractedMetadata :=
  {| filename := None; md_url := None; contentType := None; md_title := None;
     pageCount := None; info := None; version := None |}.

Record Extracted := {
  ex_content : jsstring;
  ex_metadata : ExtractedMetadata
}.

Definition processPDF (w : World) (buffer : list N) (file : jsstring) : result Extracted :=
  match pdf_parse w buffer with
  | inl data =>
      inl {| ex_content := pdf_text data;
             ex_metadata :=
               {| filename := Some file; md_url := None; contentType := None;
                  md_title := None; pageCount := Some (numpages data);
                  info := Some (pdf_info data); version := Some (pdf_version data) |} |}
  | inr e =>
      inr (ErrorObj (u "Failed to process PDF: " ++ message_or (u "Unknown error") e))
  end.

(** The body of the [try] block of [processURL]. *)
Definition processURL_try (w : World) (address : jsstring) : result Extracted :=
  match fetch w address with
  | inr e => inr e
  | inl response =>
      if negb (ok response)
      then inr (ErrorObj (u "HTTP " ++ of_Z (http_status response) ++ u ": " ++ statusText response))
      else
        let ct := str_or (content_type response) [] in
        if includes ct (u "text/html") then
          match body response with
          | inr e => inr e
          | inl html =>
              inl {| ex_content := strip_markup w html;
                     ex_metadata :=
                       {| filename := None; md_url := Some address; contentType := Some ct;
                          md_title := Some (str_or (match_title w html) (u "Untitled"));
                          pageCount := None; info := None; version := None |} |}
          end
        else if includes ct (u "text/") then
          match body response with
          | inr e => inr e
          | inl txt =>
              inl {| ex_content := txt;
                     ex_metadata :=
                       {| filename := None; md_url := Some address; contentType := Some ct;
                          md_title := None;
                          pageCount := None; info := None; version := None |} |}
          end
        else inr (ErrorObj (u "Unsupported content type: " ++ ct))
  end.

Definition processURL (w : World) (address : jsstring) : result Extracted :=
  match processURL_try w address with
  | inl r => inl r
  | inr e =>
      inr (ErrorObj (u "Failed to process URL: " ++ message_or (u "Unknown error") e))
  end.

Inductive Status := processing | completed | error_status.

Record DocumentMetadata := {
  extracted : ExtractedMetadata;
  processedAt : Z;
  chunkCount : Z
}.

Record Document := {
  id : jsstring;
  title : jsstring;
  content : jsstring;
  source : SourceKind;
  metadata : DocumentMetadata;
  chunks : option (list DocumentChunk);
  status : Status;
  createdAt : Z;
  updatedAt : Z
}.

(** [document] is [None] for the empty object [{} as Document]. *)
Record DocumentProcessingResult := {
  document : option Document;
  r_chunks : list DocumentChunk;
  success : bool;
  error : option jsstring;
  processingTime : Z
}.

Inductive Source :=
| PdfSource (buffer : list N) (file : jsstring)
| UrlSource (address : jsstring)
| TextSource (body_text : jsstring) (given_title : jsstring).

(** The [switch] of [processDocument]: content, metadata, source kind
    and title, or what an extractor threw. *)
Definition extract (w : World) (src : Source)
    : result (jsstring * ExtractedMetadata * SourceKind * jsstring) :=
  match src with
  | PdfSource buffer file =>
      match processPDF w buffer file with
      | inl r => inl (ex_content r, ex_metadata r, Pdf, file)
      | inr e => inr e
      end
  | UrlSource address =>
      match processURL w address with
      | inl r =>
          inl (ex_content r, ex_metadata r, Url,
               str_or (md_title (ex_metadata r)) address)
      | inr e => inr e
      end
  | TextSource body_text given_title =>
      inl (body_text,
           {| filename := None; md_url := None; contentType := None;
              md_title := Some given_title;
              pageCount := None; info := None; version := None |},
           Text, given_title)
  end.

(** The body of [chunks.forEach] in [processDocument]: the two
    assignments to a chunk. *)
Definition associate (docId docTitle : jsstring) (c : DocumentChunk) : DocumentChunk :=
  {| Chunker.id := Chunker.id c;
     documentId := docId;
     Chunker.content := Chunker.content c;
     index := index c;
     startIndex := startIndex c;
     endIndex := endIndex c;
     Chunker.metadata :=
       {| wordCount := wordCount (Chunker.metadata c);
          charCount := charCount (Chunker.metadata c);
          Chunker.source := Chunker.source (Chunker.metadata c);
          documentTitle := docTitle |} |}.

(** The object literal that creates the document. *)
Definition new_document (w : World) (docId ttl text : jsstring)
    (documentSource : SourceKind) (md : ExtractedMetadata) : Document :=
  {| id := docId;
     title := ttl;
     content := text;
     source := documentSource;
     metadata := {| extracted := md; processedAt := clock w 2%nat; chunkCount := 0 |};
     chunks := None;
     status := processing;
     createdAt := clock w 3%nat;
     updatedAt := clock w 4%nat |}.

(** The three assignments to the document after chunking. *)
Definition complete (doc : Document) (cs : list DocumentChunk) : Document :=
  {| id := id doc;
     title := title doc;
     content := content doc;
     source := source doc;
     metadata := {| extracted := extracted (metadata doc);
                    processedAt := processedAt (metadata doc);
                    chunkCount := Z.of_nat (List.length cs) |};
     chunks := Some cs;
     status := completed;
     createdAt := createdAt doc;
     updatedAt := updatedAt doc |}.

(** [processDocument(source, chunkingOptions)].  The clock is read for
    [startTime], the document id, [processedAt], [createdAt] and
    [updatedAt], then once per chunk, then for [processingTime].
    [None]: the loop of [chunkText] needs more fuel. *)
Definition processDocument (w : World) (fuel : nat) (src : Source)
    (chunkingOptions : option PartialChunkingOptions)
    : option DocumentProcessingResult :=
  let startTime := clock w 0%nat in
  match extract w src with
  | inr e =>
      Some {| document := None;
              r_chunks := [];
              success := false;
              error := Some (message_or (u "Unknown error") e);
              processingTime := clock w 1%nat - startTime |}
  | inl (text, md, documentSource, ttl) =>
      let docId := u "doc-" ++ of_Z (clock w 1%nat) in
      match chunkText (fun n => clock w (5 + n)%nat) fuel text
              (or_default chunkingOptions no_options) with
      | None => None
      | Some cs =>
          let doc := new_document w docId ttl text documentSource md in
          let cs' := List.map (associate (id doc) ttl) cs in
          Some {| document := Some (complete doc cs');
                  r_chunks := cs';
                  success := true;
                  error := None;
                  processingTime :=
                    clock w (5 + List.length cs)%nat - startTime |}
      end
  end.

(** A world in which the PDF parser reads the text "hello" and nothing
    else answers. *)
Definition pdf_world : World :=
  {| clock := fun n => 1000 + Z.of_nat n;
     pdf_parse := fun _ => inl {| pdf_text := u "hello"; numpages := 1;
                                  pdf_info := []; pdf_version := u "1.10.100" |};
     fetch := fun _ => inr NonError;
     strip_markup := fun html => html;
     match_title := fun _ => None |}.

(** A world in which the PDF parser throws. *)
Definition failing_world : World :=
  {| clock := fun n => 1000 + Z.of_nat n;
     pdf_parse := fun _ => inr (ErrorObj (u "bad XRef entry"));
     fetch := fun _ => inr NonError;
     strip_markup := fun html => html;
     match_title := fun _ => None |}.

End Processor.

(** ** The vector store client *)

Module VectorStore.

Import Js.

(** A JavaScript number as the query code uses it: a rational, or
    [NaN]. *)
Inductive number := Num (q : Q) | NaN.

(** The truth value of a number: [0] and [NaN] are falsy. *)
Definition truthy (x : number) : bool :=
  match x with
  | Num q => negb (Qeq_bool q 0)
  | NaN => false
  end.

(** [a >= b]; a comparison with [NaN] is false. *)
Definition ge (a b : number) : bool :=
  match a, b with
  | Num x, Num y => Qle_bool y x
  | _, _ => false
  end.

(** [a || b] on an optional number. *)
Definition num_or (a : option number) (b : number) : number :=
  match a with
  | Some x => if truthy x then x else b
  | None => b
  end.

(** The metadata stored with a vector; [md_content] is the [content]
    key that the upload route adds. *)
Record RecordMetadata := {
  md_documentId : jsstring;
  md_chunkId : jsstring;
  md_documentTitle : jsstring;
  md_content : option jsstring
}.

(** An entry of [queryResponse.matches]. *)
Record ScoredRecord := {
  m_id : jsstring;
  m_score : option number;
  m_metadata : option RecordMetadata
}.

Record VectorSearchResult := {
  id : jsstring;
  score : number;
  metadata : option RecordMetadata;
  content : jsstring
}.

Record QueryOptions := {
  topK : option number;
  threshold : option number;
  filter : option jsstring;
  includeMetadata : option bool
}.

(** The argument of [index.namespace(..).query]. *)
Record QueryRequest := {
  q_vector : list number;
  q_topK : number;
  q_includeMetadata : bool;
  q_includeValues : bool;
  q_filter : option jsstring
}.

(** The client handle [pineconeClient] holds once initialised. *)
Record Pinecone := { apiKey : jsstring }.

(** The environment: [PINECONE_API_KEY] and the store's answer to a
    query. *)
Record Env := {
  PINECONE_API_KEY : option jsstring;
  store_query : QueryRequest -> result (list ScoredRecord)
}.

(** [getPineconeClient()], on the module variable [pineconeClient]:
    the client or a throw, and the new value of the variable. *)
Definition getPineconeClient (env : Env) (pineconeClient : option Pinecone)
    : result Pinecone * option Pinecone :=
  match pineconeClient with
  | Some c => (inl c, pineconeClient)
  | None =>
      match PINECONE_API_KEY env with
      | Some k =>
          if nonempty k
          then let c := {| apiKey := k |} in (inl c, Some c)
          else (inr (ErrorObj (u "PINECONE_API_KEY environment variable is required")), None)
      | None =>
          (inr (ErrorObj (u "PINECONE_API_KEY environment variable is required")), None)
      end
  end.

(** [options.threshold || 0.3] *)
Definition effective_threshold (options : QueryOptions) : number :=
  num_or (threshold options) (Num (3 # 10)).

(** [options.topK || 5] *)
Definition effective_topK (options : QueryOptions) : number :=
  num_or (topK options) (Num 5).

Definition request (queryVector : list number) (options : QueryOptions) : QueryRequest :=
  {| q_vector := queryVector;
     q_topK := effective_topK options;
     q_includeMetadata :=
       match includeMetadata options with Some false => false | _ => true end;
     q_includeValues := false;
     q_filter := filter options |}.

(** [match.score && match.score >= threshold] *)
Definition keeps (thr : number) (m : ScoredRecord) : bool :=
  match m_score m with
  | Some s => truthy s && ge s thr
  | None => false
  end.

Definition to_result (m : ScoredRecord) : VectorSearchResult :=
  {| id := m_id m;
     score := num_or (m_score m) (Num 0);
     metadata := m_metadata m;
     content := str_or (match m_metadata m with
                        | Some md => md_content md
                        | None => None
                        end) [] |}.

(** The [filter] and [map] over [queryResponse.matches]. *)
Definition filteredResults (thr : number) (matches : list ScoredRecord)
    : list VectorSearchResult :=
  List.map to_result (List.filter (keeps thr) matches).

(** [queryVectors(queryVector, options)]: the results or the error
    thrown from the [catch] block, and the module variable. *)
Definition queryVectors (env : Env) (pineconeClient : option Pinecone)
    (queryVector : list number) (options : QueryOptions)
    : result (list VectorSearchResult) * option Pinecone :=
  match getPineconeClient env pineconeClient with
  | (inr _, st) => (inr (ErrorObj (u "Failed to retrieve relevant documents")), st)
  | (inl _, st) =>
      match store_query env (request queryVector options) with
      | inr _ => (inr (ErrorObj (u "Failed to retrieve relevant documents")), st)
      | inl matches => (inl (filteredResults (effective_threshold options) matches), st)
      end
  end.

(** The list is in descending order of score. *)
Definition descending (l : list VectorSearchResult) : Prop :=
  StronglySorted (fun a b => ge (score a) (score b) = true) l.

(** The list has at most [k] entries. *)
Definition at_most (k : number) (n : nat) : Prop :=
  ge k (Num (inject_Z (Z.of_nat n))) = true.

(** The score of the number [x] is zero. *)
Definition is_zero (x : number) : Prop :=
  match x with
  | Num q => (q == 0)%Q
  | NaN => False
  end.

(** A match with a score. *)
Definition scored (s : Q) : ScoredRecord :=
  {| m_id := u "v"; m_score := Some (Num s); m_metadata := None |}.

(** A store that answers every query with the same matches. *)
Definition answering (matches : list ScoredRecord) : Env :=
  {| PINECONE_API_KEY := Some (u "key");
     store_query := fun _ => inl matches |}.

Definition options_of (k thr : option number) : QueryOptions :=
  {| topK := k; threshold := thr; filter := None; includeMetadata := None |}.

End VectorStore.

(** ** More operations on strings *)

Module JsStringMore.

(** [s.substring(a, b)]: both bounds are clamped to the string and
    swapped when out of order. *)
Definition substring (s : jsstring) (a b : Z) : jsstring :=
  let a' := Z.min (Z.max a 0) (len s) in
  let b' := Z.min (Z.max b 0) (len s) in
  firstn (Z.to_nat (Z.max a' b' - Z.min a' b')) (skipn (Z.to_nat (Z.min a' b')) s).

Definition DASH : N := 45%N.

(** The unit is a decimal digit. *)
Definition is_digit (c : N) : bool := ((48 <=? c) && (c <=? 57))%N.

(** No run of three newlines from here on, [run] newlines having just
    been read. *)
Fixpoint no_triple (run : nat) (s : jsstring) : bool :=
  match s with
  | [] => true
  | c :: s' =>
      if (c =? LF)%N then (run <? 2)%nat && no_triple (S run) s'
      else no_triple 0 s'
  end.

(** No carriage return. *)
Definition no_cr (s : jsstring) : Prop := Forall (fun c => c <> CR) s.

(** [s] begins with [prefix]. *)
Definition has_prefix (prefix s : jsstring) : Prop := exists rest, s = prefix ++ rest.

End JsStringMore.

(** ** Arrays and promises *)

Module JsArray.

Import Js.

(** [l.slice(a, b)] on an array, as [slice] on a string. *)
Definition slice {A} (l : list A) (a b : Z) : list A :=
  let n := Z.of_nat (List.length l) in
  let bound k := if k <? 0 then Z.max (n + k) 0 else Z.min k n in
  if bound a <? bound b
  then firstn (Z.to_nat (bound b - bound a)) (skipn (Z.to_nat (bound a)) l)
  else [].

(** The rejections among settled promises, in list order. *)
Definition rejections {A} (rs : list (result A)) : list thrown :=
  flat_map (fun r => match r with inl _ => [] | inr e => [e] end) rs.

Definition fulfilled {A} (rs : list (result A)) : list A :=
  flat_map (fun r => match r with inl a => [a] | inr _ => [] end) rs.

(** [Promise.all]: the values, in order, when no promise is rejected;
    otherwise the reason of the promise that was rejected first in
    time, which [first] picks among the rejections. *)
Definition Promise_all {A} (first : list thrown -> thrown) (rs : list (result A))
    : result (list A) :=
  match rejections rs with
  | [] => inl (fulfilled rs)
  | e :: es => inr (first (e :: es))
  end.

End JsArray.

(** ** The embedding client *)

Module Embeddings.

Import Js JsStringMore.

Definition embedding := list VectorStore.number.

(** [EMBEDDING_CONFIG] *)
Definition maxTokens : Z := 8192.
Definition dimensions : Z := 1536.

Section Upstream.

(** [embed({ model, value })] of the SDK: the embedding, or a throw. *)
Variable embed : jsstring -> result embedding.

(** Which of several rejected promises was rejected first. *)
Variable first : list thrown -> thrown.

(** The body of the [try] block of [generateEmbedding]. *)
Definition generateEmbedding_try (text : jsstring) : result embedding :=
  if negb (nonempty (trim text)) then inr (ErrorObj (u "Text cannot be empty"))
  else
    let maxChars := maxTokens * 4 in
    let truncatedText :=
      if len text >? maxChars then substring text 0 maxChars else text in
    embed truncatedText.

Definition generateEmbedding (text : jsstring) : result embedding :=
  match generateEmbedding_try text with
  | inl e => inl e
  | inr e =>
      inr (ErrorObj (u "Failed to generate embedding: " ++ message_or (u "Unknown error") e))
  end.

(** The [for] loop of [generateEmbeddings], batch by batch. *)
Fixpoint batch_loop (fuel : nat) (texts : list jsstring) (i : Z)
    (embeddings : list embedding) : option (result (list embedding)) :=
  match fuel with
  | O => None
  | S fuel' =>
      if i <? Z.of_nat (List.length texts) then
        let batch := JsArray.slice texts i (i + 100) in
        match JsArray.Promise_all first (List.map generateEmbedding batch) with
        | inr e => Some (inr e)
        | inl batchEmbeddings =>
            batch_loop fuel' texts (i + 100) (embeddings ++ batchEmbeddings)
        end
      else Some (inl embeddings)
  end.

(** [generateEmbeddings(texts)].  The loop is given one turn per text
    and one more; [None] would say that this was not enough. *)
Definition generateEmbeddings (texts : list jsstring) : option (result (list embedding)) :=
  let attempt :=
    if (List.length texts =? 0)%nat then Some (inl [])
    else batch_loop (S (List.length texts)) texts 0 [] in
  match attempt with
  | None => None
  | Some (inl es) => Some (inl es)
  | Some (inr e) =>
      Some (inr (ErrorObj (u "Failed to generate batch embeddings: "
                           ++ message_or (u "Unknown error") e)))
  end.

End Upstream.

(** [validateEmbedding]: the right length, and no [NaN]. *)
Definition validateEmbedding (e : embedding) : bool :=
  (Z.of_nat (List.length e) =? dimensions)
  && forallb (fun x => match x with VectorStore.Num _ => true | VectorStore.NaN => false end) e.

End Embeddings.

(** ** The other operations of the vector store client *)

Module VectorStoreOps.

Import Js VectorStore.

(** [PINECONE_CONFIG] *)
Definition indexName : jsstring := u "aisdk-rag".
Definition config_dimensions : number := Num 1536.

(** An entry of the argument of [upsertVectors]. *)
Record UpsertVector (M : Type) := {
  v_id : jsstring;
  v_values : option (list number);
  v_metadata : M
}.
Arguments v_id {M}.
Arguments v_values {M}.
Arguments v_metadata {M}.

(** The answer of [describeIndexStats], each key possibly missing. *)
Record IndexDescription := {
  totalRecordCount : option number;
  dimension : option number;
  indexFullness : option number
}.

Record IndexStats := {
  totalVectors : number;
  stats_dimension : number;
  stats_indexFullness : number
}.

(** The store behind the client, for vectors with metadata [M]:
    [listIndexes] answers with the names of [indexList.indexes], if that
    key is there. *)
Record Store (M : Type) := {
  upsert : list (UpsertVector M) -> result unit;
  deleteMany : list jsstring -> result unit;
  describeIndexStats : result IndexDescription;
  listIndexes : result (option (list jsstring))
}.
Arguments upsert {M}.
Arguments deleteMany {M}.
Arguments describeIndexStats {M}.
Arguments listIndexes {M}.

Section Ops.

Context {M : Type}.
Variable env : Env.
Variable store : Store M.

(** [upsertVectors(vectors)]: nothing or the error thrown from the
    [catch] block, and the module variable [pineconeClient]. *)
Definition upsertVectors (pineconeClient : option Pinecone)
    (vectors : list (UpsertVector M)) : result unit * option Pinecone :=
  let wrap e :=
    inr (ErrorObj (u "Failed to store document vectors: "
                   ++ message_or (u "Unknown error") e)) in
  match getPineconeClient env pineconeClient with
  | (inr e, st) => (wrap e, st)
  | (inl _, st) =>
      match upsert store vectors with
      | inr e => (wrap e, st)
      | inl tt => (inl tt, st)
      end
  end.

Definition deleteVectors (pineconeClient : option Pinecone) (ids : list jsstring)
    : result unit * option Pinecone :=
  match getPineconeClient env pineconeClient with
  | (inr _, st) => (inr (ErrorObj (u "Failed to delete document vectors")), st)
  | (inl _, st) =>
      match deleteMany store ids with
      | inr _ => (inr (ErrorObj (u "Failed to delete document vectors")), st)
      | inl tt => (inl tt, st)
      end
  end.

Definition getIndexStats (pineconeClient : option Pinecone)
    : result IndexStats * option Pinecone :=
  match getPineconeClient env pineconeClient with
  | (inr _, st) => (inr (ErrorObj (u "Failed to retrieve index statistics")), st)
  | (inl _, st) =>
      match describeIndexStats store with
      | inr _ => (inr (ErrorObj (u "Failed to retrieve index statistics")), st)
      | inl stats =>
          (inl {| totalVectors := num_or (totalRecordCount stats) (Num 0);
                  stats_dimension := num_or (dimension stats) config_dimensions;
                  stats_indexFullness := num_or (indexFullness stats) (Num 0) |}, st)
      end
  end.

(** [verifyIndexExists()]: any throw is answered with [false]. *)
Definition verifyIndexExists (pineconeClient : option Pinecone)
    : bool * option Pinecone :=
  match getPineconeClient env pineconeClient with
  | (inr _, st) => (false, st)
  | (inl _, st) =>
      match listIndexes store with
      | inr _ => (false, st)
      | inl None => (false, st)
      | inl (Some names) =>
          (existsb (fun name => if list_eq_dec N.eq_dec name indexName then true else false)
                   names, st)
      end
  end.

End Ops.

(** The environment has no usable [PINECONE_API_KEY]. *)
Definition keyless (env : Env) : Prop :=
  PINECONE_API_KEY env = None \/ PINECONE_API_KEY env = Some [].

(** A store on which every operation throws [reason]. *)
Definition unreachable (M : Type) (reason : thrown) : Store M :=
  {| upsert := fun _ => inr reason;
     deleteMany := fun _ => inr reason;
     describeIndexStats := inr reason;
     listIndexes := inr reason |}.

(** A store that accepts everything and holds the index. *)
Definition accepting (M : Type) : Store M :=
  {| upsert := fun _ => inl tt;
     deleteMany := fun _ => inl tt;
     describeIndexStats :=
       inl {| totalRecordCount := Some (Num 3); dimension := None;
              indexFullness := None |};
     listIndexes := inl (Some [indexName]) |}.

End VectorStoreOps.

(** ** The document retrieval tool *)

Module Retrieval.

Import Js VectorStore.

(** [Math.min] on two numbers. *)
Definition Math_min (a b : number) : number :=
  match a, b with
  | Num x, Num y => if Qle_bool x y then Num x else Num y
  | _, _ => NaN
  end.

(** An entry of [results]; the [page] of the metadata is passed on as
    it is and is not part of this model. *)
Record FormattedResult := {
  fr_id : jsstring;
  fr_content : jsstring;
  fr_source : jsstring;
  relevanceScore : number;
  rank : Z
}.

Record ToolOutput := {
  out_query : jsstring;
  results : list FormattedResult;
  message : jsstring;
  totalResults : Z;
  searchTime : Z;
  error : bool
}.

(** What the tool stands on: the embedding of the query, the vector
    store with its client handle, [config.rag.retrieval.topK], the clock,
    two-decimal rounding [Math.round(x * 100) / 100] in floating point,
    and the message of the [TypeError] that reading a key of
    [undefined] throws. *)
Record Deps := {
  embedQuery : jsstring -> result (list number);
  env : Env;
  config_topK : number;
  now : Z;
  round2 : number -> number;
  undefined_message : jsstring
}.

(** The arrow function that formats a result; it throws when the
    result has no metadata. *)
Definition format (d : Deps) (r : VectorSearchResult) (index : nat)
    : result FormattedResult :=
  match VectorStore.metadata r with
  | None => inr (ErrorObj (undefined_message d))
  | Some md =>
      inl {| fr_id := VectorStore.id r;
             fr_content := VectorStore.content r;
             fr_source := str_or (Some (md_documentTitle md)) (u "Unknown Document");
             relevanceScore := round2 d (score r);
             rank := Z.of_nat index + 1 |}
  end.

(** [searchResults.map(format)]: the formatted results, or the first
    throw. *)
Fixpoint format_all (d : Deps) (rs : list VectorSearchResult) (index : nat)
    : result (list FormattedResult) :=
  match rs with
  | [] => inl []
  | r :: rs' =>
      match format d r index with
      | inr e => inr e
      | inl f =>
          match format_all d rs' (S index) with
          | inr e => inr e
          | inl fs => inl (f :: fs)
          end
      end
  end.

(** The options that the tool passes to [queryVectors]. *)
Definition query_options (d : Deps) (topK threshold : number) : QueryOptions :=
  {| VectorStore.topK := Some (Math_min topK (config_topK d));
     VectorStore.threshold := Some (Math_min threshold (Num (3 # 10)));
     filter := None;
     includeMetadata := Some true |}.

Definition failure (query : jsstring) (e : thrown) : ToolOutput :=
  {| out_query := query;
     results := [];
     message := u "Error searching documents: " ++ message_or (u "Unknown error") e;
     totalResults := 0;
     searchTime := 0;
     error := true |}.

(** [retrieveDocsTool.execute({ query, topK = 5, threshold = 0.3 })]:
    the output and the module variable [pineconeClient]. *)
Definition execute (d : Deps) (pineconeClient : option Pinecone)
    (query : jsstring) (topK threshold : option number)
    : ToolOutput * option Pinecone :=
  let topK := match topK with Some k => k | None => Num 5 end in
  let threshold := match threshold with Some t => t | None => Num (3 # 10) end in
  match Embeddings.generateEmbedding (embedQuery d) query with
  | inr e => (failure query e, pineconeClient)
  | inl queryEmbedding =>
      match queryVectors (env d) pineconeClient queryEmbedding
              (query_options d topK threshold) with
      | (inr e, st) => (failure query e, st)
      | (inl [], st) =>
          ({| out_query := query;
              results := [];
              message := u "No relevant documents found for this query. You may need to upload documents first.";
              totalResults := 0;
              searchTime := 0;
              error := false |}, st)
      | (inl searchResults, st) =>
          match format_all d searchResults 0 with
          | inr e => (failure query e, st)
          | inl formattedResults =>
              ({| out_query := query;
                  results := formattedResults;
                  message := u "Found "
                             ++ of_Z (Z.of_nat (List.length formattedResults))
                             ++ u " relevant document(s)";
                  totalResults := Z.of_nat (List.length formattedResults);
                  searchTime := now d;
                  error := false |}, st)
          end
      end
  end.

(** Sample dependencies and matches. *)
Definition plain_deps (matches : list ScoredRecord) : Deps :=
  {| embedQuery := fun _ => inl [Num 1];
     env := answering matches;
     config_topK := Num 5;
     now := 1700000000000;
     round2 := fun x => x;
     undefined_message := u "Cannot read properties of undefined" |}.

(** Sample dependencies and matches. *)
Definition with_title (s : Q) (title : string) : ScoredRecord :=
  {| m_id := u title; m_score := Some (Num s);
     m_metadata := Some {| md_documentId := u "doc-1"; md_chunkId := u title;
                           md_documentTitle := u "Notes"; md_content := Some (u "text") |} |}.

End Retrieval.

(** ** The document upload route *)

Module Upload.

Import Js Chunker VectorStore VectorStoreOps.

(** The keys of [config] that the route reads. *)
Record AppConfig := {
  openai_apiKey : jsstring;
  pinecone_apiKey : jsstring;
  maxFileSize : Z
}.

(** [missingVars.join(', ')] *)
Fixpoint join (sep : jsstring) (l : list jsstring) : jsstring :=
  match l with
  | [] => []
  | [x] => x
  | x :: rest => x ++ sep ++ join sep rest
  end.

(** [validateConfig()]: it throws when a required key is empty. *)
Definition validateConfig (config : AppConfig) : result unit :=
  let missingVars :=
    (if nonempty (openai_apiKey config) then [] else [u "OPENAI_API_KEY"])
    ++ (if nonempty (pinecone_apiKey config) then [] else [u "PINECONE_API_KEY"]) in
  if (0 <? Z.of_nat (List.length missingVars))
  then inr (ErrorObj (u "Missing required environment variables: "
                      ++ join (u ", ") missingVars ++ [LF]
                      ++ u "Please check your .env.local file and ensure all required variables are set."))
  else inl tt.

(** The file of the form: its size, its media type, its name and its
    bytes. *)
Record UploadFile := {
  size : Z;
  type : jsstring;
  name : jsstring;
  bytes : list N
}.

(** The fields of the form; [None] is a field that is not there. *)
Record UploadForm := {
  file : option UploadFile;
  url : option jsstring;
  content : option jsstring;
  title : option jsstring
}.

(** The metadata stored with each vector; [page] and [section] are
    read from the chunk metadata, where [createChunk] never sets them. *)
Record VectorMetadata := {
  documentId : jsstring;
  chunkId : jsstring;
  documentTitle : jsstring;
  source : SourceKind;
  page : option Z;
  section : option jsstring;
  wordCount : Z;
  createdAt : Z;
  vm_content : jsstring
}.

Record DocumentSummary := {
  ds_id : jsstring;
  ds_title : jsstring;
  ds_source : SourceKind;
  ds_chunkCount : Z;
  ds_createdAt : Z
}.

(** The JSON bodies of the responses: [{ error }], the body of the
    [catch] block, and the body of a success. *)
Inductive Body :=
| ErrorBody (error : jsstring)
| InternalError (message : jsstring)
| Success (document : DocumentSummary) (message : jsstring) (processingTime : Z).

Record HttpResponse := {
  status : Z;
  body : Body
}.

(** The arrow function that prepares a vector from a chunk. *)
Definition vector_of (doc : Processor.Document) (embeddings : list Embeddings.embedding)
    (chunk : DocumentChunk) (index : nat) : UpsertVector VectorMetadata :=
  {| v_id := Chunker.id chunk;
     v_values := nth_error embeddings index;
     v_metadata :=
       {| documentId := Processor.id doc;
          chunkId := Chunker.id chunk;
          documentTitle := Processor.title doc;
          source := Processor.source doc;
          page := None;
          section := None;
          wordCount := Chunker.wordCount (Chunker.metadata chunk);
          createdAt := Processor.createdAt doc;
          vm_content := Chunker.content chunk |} |}.

(** [chunks.map((chunk, index) => ...)] *)
Fixpoint vectors_from (doc : Processor.Document) (embeddings : list Embeddings.embedding)
    (chunks : list DocumentChunk) (index : nat) : list (UpsertVector VectorMetadata) :=
  match chunks with
  | [] => []
  | chunk :: rest =>
      vector_of doc embeddings chunk index :: vectors_from doc embeddings rest (S index)
  end.

(** What the route stands on; [undefined_message] is the message of the
    [TypeError] that reading [createdAt] of the empty document would
    throw, on a result that says success and has no document. *)
Record Deps := {
  config : AppConfig;
  world : Processor.World;
  embed : jsstring -> result Embeddings.embedding;
  first : list thrown -> thrown;
  env : Env;
  store : Store VectorMetadata;
  undefined_message : jsstring
}.

Definition internal_error (e : thrown) : HttpResponse :=
  {| status := 500; body := InternalError (message_or (u "Unknown error") e) |}.

(** The part of [POST] after the document is processed. *)
Definition store_document (d : Deps) (pineconeClient : option Pinecone)
    (res : Processor.DocumentProcessingResult)
    : option (HttpResponse * option Pinecone) :=
  if negb (Processor.success res)
  then Some ({| status := 500;
                body := ErrorBody (str_or (Processor.error res)
                                     (u "Document processing failed")) |},
             pineconeClient)
  else
    match Processor.document res with
    | None => Some (internal_error (ErrorObj (undefined_message d)), pineconeClient)
    | Some doc =>
        let chunks := Processor.r_chunks res in
        let chunkTexts := List.map Chunker.content chunks in
        match Embeddings.generateEmbeddings (embed d) (first d) chunkTexts with
        | None => None
        | Some (inr e) => Some (internal_error e, pineconeClient)
        | Some (inl embeddings) =>
            let vectors := vectors_from doc embeddings chunks 0 in
            match upsertVectors (env d) (store d) pineconeClient vectors with
            | (inr e, st) => Some (internal_error e, st)
            | (inl tt, st) =>
                Some ({| status := 200;
                         body :=
                           Success
                             {| ds_id := Processor.id doc;
                                ds_title := Processor.title doc;
                                ds_source := Processor.source doc;
                                ds_chunkCount := Z.of_nat (List.length chunks);
                                ds_createdAt := Processor.createdAt doc |}
                             (u "Successfully processed "
                              ++ of_Z (Z.of_nat (List.length chunks))
                              ++ u " chunks from " ++ [34%N]
                              ++ Processor.title doc ++ [34%N])
                             (Processor.processingTime res) |}, st)
            end
        end
    end.

(** [POST(request)] on the fields of the form: the response and the
    module variable [pineconeClient].  [None]: the loop of [chunkText]
    needs more fuel. *)
Definition POST (d : Deps) (fuel : nat) (pineconeClient : option Pinecone)
    (form : UploadForm) : option (HttpResponse * option Pinecone) :=
  match validateConfig (config d) with
  | inr e => Some (internal_error e, pineconeClient)
  | inl tt =>
      let has s := match s with Some x => nonempty x | None => false end in
      match file form with
      | None =>
          if negb (has (url form)) && negb (has (content form))
          then Some ({| status := 400;
                        body := ErrorBody (u "Either file, URL, or text content is required") |},
                     pineconeClient)
          else
            let source :=
              if has (url form)
              then Processor.UrlSource (str_or (url form) [])
              else Processor.TextSource (str_or (content form) [])
                     (str_or (title form) (u "Untitled Document")) in
            match Processor.processDocument (world d) fuel source None with
            | None => None
            | Some res => store_document d pineconeClient res
            end
      | Some f =>
          if size f >? maxFileSize (config d)
          then Some ({| status := 400;
                        body := ErrorBody (u "File size exceeds maximum limit of "
                                           ++ of_Z (maxFileSize (config d)) ++ u " bytes") |},
                     pineconeClient)
          else if negb (if list_eq_dec N.eq_dec (type f) (u "application/pdf")
                        then true else false)
          then Some ({| status := 400;
                        body := ErrorBody (u "Only PDF files are supported") |},
                     pineconeClient)
          else
            match Processor.processDocument (world d) fuel
                    (Processor.PdfSource (bytes f) (name f)) None with
            | None => None
            | Some res => store_document d pineconeClient res
            end
      end
  end.

(** Sample dependencies: keys set, the PDF parser of [pdf_world], an
    embedding service that answers with the length of the text, and a
    store that accepts everything. *)
Definition sample_deps : Deps :=
  {| config := {| openai_apiKey := u "sk-1"; pinecone_apiKey := u "pc-1";
                  maxFileSize := 10485760 |};
     world := Processor.pdf_world;
     embed := fun t => inl [Num (inject_Z (len t))];
     first := fun l => hd NonError l;
     env := answering [];
     store := accepting VectorMetadata;
     undefined_message := u "Cannot read properties of undefined" |}.


Definition image_form : UploadForm :=
  {| file := Some {| size := 2048; type := u "image/png"; name := u "a.png";
                     bytes := [] |};
     url := Some (u "https://example.org/a.txt");
     content := None; title := None |}.

End Upload.

(** ** Conversations in local storage *)

Module ChatStorage.

Import Js JsStringMore.

(** [a === b] on strings. *)
Definition str_eqb (a b : jsstring) : bool :=
  if list_eq_dec N.eq_dec a b then true else false.

(** A message, as far as the storage code reads it. *)
Record Message := {
  role : jsstring;
  msg_content : option jsstring;
  toolInvocations : option (list jsstring)
}.

Record ConversationMetadata := {
  messageCount : Z;
  hasTools : bool;
  model : option jsstring
}.

(** A conversation as it is stored; the two dates are held as the
    milliseconds that [new Date(..).getTime()] reads from them. *)
Record StoredConversation := {
  id : jsstring;
  title : jsstring;
  messages : list Message;
  createdAt : Z;
  updatedAt : Z;
  metadata : option ConversationMetadata
}.

Record ConversationSummary := {
  s_id : jsstring;
  s_title : jsstring;
  s_messageCount : Z;
  s_createdAt : Z;
  s_updatedAt : Z;
  s_hasTools : bool
}.

Definition MAX_CONVERSATIONS : nat := 50.

(** A string of local storage, as [JSON.parse] sees it: the text of an
    array of conversations, or a string that it rejects (the empty string
    is one).  Texts with the same parse are not told apart, and JSON of
    another shape is outside this model. *)
Inductive Item :=
| Json (conversations : list StoredConversation)
| Raw (text : jsstring).

(** Local storage under [STORAGE_KEY]: the string or nothing, and
    whether [setItem] goes through (it throws when the quota is
    exceeded). *)
Record LocalStorage := {
  item : option Item;
  writable : bool
}.

(** The clock and [Math.random().toString(36).substring(2, 9)], by
    reading. *)
Record Env := {
  clock : nat -> Z;
  random : nat -> jsstring
}.

(** [generateId()] on the [t]-th reading of the clock and the [r]-th of
    the generator. *)
Definition generateId (e : Env) (t r : nat) : jsstring :=
  u "conv_" ++ of_Z (clock e t) ++ u "_" ++ random e r.

(** [generateTitle(messages)] *)
Definition generateTitle (messages : list Message) : jsstring :=
  match List.find (fun msg => str_eqb (role msg) (u "user")) messages with
  | None => u "New Conversation"
  | Some firstUserMessage =>
      let content := str_or (msg_content firstUserMessage) [] in
      if len content >? 50 then substring content 0 47 ++ u "..." else content
  end.

(** [stored ? JSON.parse(stored) : fallback]: the parse, a throw of
    [JSON.parse], or [None] for a string that is missing or empty.  What
    is thrown here and in [write] is caught by every caller, unread. *)
Definition read (ls : LocalStorage) : option (result (list StoredConversation)) :=
  match item ls with
  | None => None
  | Some (Raw []) => None
  | Some (Raw (_ :: _)) => Some (inr (ErrorObj (u "Unexpected token")))
  | Some (Json conversations) => Some (inl conversations)
  end.

(** [stored ? JSON.parse(stored) : []] *)
Definition read_or_empty (ls : LocalStorage) : result (list StoredConversation) :=
  match read ls with None => inl [] | Some r => r end.

(** [localStorage.setItem(STORAGE_KEY, JSON.stringify(conversations))] *)
Definition write (ls : LocalStorage) (conversations : list StoredConversation)
    : result LocalStorage :=
  if writable ls
  then inl {| item := Some (Json conversations); writable := writable ls |}
  else inr (ErrorObj (u "QuotaExceededError")).

(** [l.sort((a, b) => key(b) - key(a))]: the sort of the language is
    stable, so the result is the one of insertion from the right. *)
Fixpoint insert_desc {A} (key : A -> Z) (a : A) (l : list A) : list A :=
  match l with
  | [] => [a]
  | x :: l' => if key x >? key a then x :: insert_desc key a l' else a :: l
  end.

Fixpoint sort_desc {A} (key : A -> Z) (l : list A) : list A :=
  match l with
  | [] => []
  | a :: l' => insert_desc key a (sort_desc key l')
  end.

(** The cap on the list: sorted by the last update, newest first, and
    cut after [MAX_CONVERSATIONS]. *)
Definition keep_recent (l : list StoredConversation) : list StoredConversation :=
  if (MAX_CONVERSATIONS <? List.length l)%nat
  then firstn MAX_CONVERSATIONS (sort_desc updatedAt l)
  else l.

(** [l[existingIndex] = c] at the first index with the id of [c]. *)
Fixpoint replace_first (c : StoredConversation) (l : list StoredConversation)
    : list StoredConversation :=
  match l with
  | [] => []
  | x :: l' => if str_eqb (id x) (id c) then c :: l' else x :: replace_first c l'
  end.

(** Update the conversation with the id of [c], or add [c] at the
    end. *)
Definition put (c : StoredConversation) (l : list StoredConversation)
    : list StoredConversation :=
  if existsb (fun x => str_eqb (id x) (id c)) l then replace_first c l else l ++ [c].

Definition to_summary (conv : StoredConversation) : ConversationSummary :=
  {| s_id := id conv;
     s_title := title conv;
     s_messageCount := Z.of_nat (List.length (messages conv));
     s_createdAt := createdAt conv;
     s_updatedAt := updatedAt conv;
     s_hasTools := match metadata conv with Some md => hasTools md | None => false end |}.

Definition getConversationSummaries (ls : LocalStorage) : list ConversationSummary :=
  match read ls with
  | None => []
  | Some (inr _) => []
  | Some (inl conversations) => sort_desc s_updatedAt (List.map to_summary conversations)
  end.

Definition getConversation (ls : LocalStorage) (conversationId : jsstring)
    : option StoredConversation :=
  match read ls with
  | None => None
  | Some (inr _) => None
  | Some (inl conversations) =>
      List.find (fun conv => str_eqb (id conv) conversationId) conversations
  end.

(** [saveConversation(conversationId, messages, title)]: the id
    returned and the storage afterwards. *)
Definition saveConversation (e : Env) (ls : LocalStorage)
    (conversationId : option jsstring) (messages : list Message)
    (title : option jsstring) : jsstring * LocalStorage :=
  let given := match conversationId with Some i => nonempty i | None => false end in
  let given_id := str_or conversationId [] in
  let caught := if given then given_id else generateId e 2 1 in
  match read_or_empty ls with
  | inr _ => (if given then given_id else generateId e 0 0, ls)
  | inl conversations =>
      let id := if given then given_id else generateId e 0 0 in
      let now := if given then clock e 0 else clock e 1 in
      let hasTools :=
        existsb (fun msg => match toolInvocations msg with
                            | Some l => 0 <? Z.of_nat (List.length l)
                            | None => false
                            end) messages in
      let conversation :=
        {| id := id;
           title := str_or title (generateTitle messages);
           messages := messages;
           createdAt :=
             if given
             then match List.find (fun c => str_eqb (ChatStorage.id c) given_id)
                          conversations with
                  | Some c => createdAt c
                  | None => now
                  end
             else now;
           updatedAt := now;
           metadata := Some {| messageCount := Z.of_nat (List.length messages);
                               hasTools := hasTools;
                               model := Some (u "gpt-4o-mini") |} |} in
      match write ls (keep_recent (put conversation conversations)) with
      | inl ls' => (id, ls')
      | inr _ => (caught, ls)
      end
  end.

Definition deleteConversation (ls : LocalStorage) (conversationId : jsstring)
    : bool * LocalStorage :=
  match read ls with
  | None => (false, ls)
  | Some (inr _) => (false, ls)
  | Some (inl conversations) =>
      let filteredConversations :=
        List.filter (fun conv => negb (str_eqb (id conv) conversationId)) conversations in
      if (List.length filteredConversations =? List.length conversations)%nat
      then (false, ls)
      else match write ls filteredConversations with
           | inl ls' => (true, ls')
           | inr _ => (false, ls)
           end
  end.

Definition clearAllConversations (ls : LocalStorage) : bool * LocalStorage :=
  (true, {| item := None; writable := writable ls |}).

(** [exportConversations()]: the stored string, or ['[]']. *)
Definition exportConversations (ls : LocalStorage) : Item :=
  match item ls with
  | None => Json []
  | Some (Raw []) => Json []
  | Some it => it
  end.

(** [importConversations(jsonData)] *)
Definition importConversations (ls : LocalStorage) (jsonData : Item)
    : bool * LocalStorage :=
  match jsonData with
  | Raw _ => (false, ls)
  | Json importedConversations =>
      match read_or_empty ls with
      | inr _ => (false, ls)
      | inl existingConversations =>
          let mergedConversations :=
            fold_left (fun merged imported => put imported merged)
                      importedConversations existingConversations in
          match write ls (keep_recent mergedConversations) with
          | inl ls' => (true, ls')
          | inr _ => (false, ls)
          end
      end
  end.

(** The list is in descending order of [key]. *)
Definition descending_by {A} (key : A -> Z) (l : list A) : Prop :=
  StronglySorted (fun a b => key b <= key a) l.

(** The stored list is within the cap and has no id twice. *)
Definition well_kept (ls : LocalStorage) : Prop :=
  match item ls with
  | Some (Json l) => (List.length l <= MAX_CONVERSATIONS)%nat /\ NoDup (List.map id l)
  | _ => True
  end.

(** Samples: a clock that runs, a storage that holds a list and takes
    writes, one whose string does not parse, and one that is full. *)
Definition sample_env : Env :=
  {| clock := fun n => 1000 + Z.of_nat n; random := fun _ => u "k3j9x2a" |}.

Definition user_message (text : string) : Message :=
  {| role := u "user"; msg_content := Some (u text); toolInvocations := None |}.

Definition conversation_at (i : jsstring) (t : Z) : StoredConversation :=
  {| id := i; title := u "Notes"; messages := [user_message "hello"];
     createdAt := t; updatedAt := t; metadata := None |}.

Definition holding (l : list StoredConversation) : LocalStorage :=
  {| item := Some (Json l); writable := true |}.

Definition two_stored : list StoredConversation :=
  [conversation_at (u "a") 10; conversation_at (u "b") 20].

Definition unparsable : LocalStorage :=
  {| item := Some (Raw (u "{oops")); writable := true |}.

Definition full : list StoredConversation :=
  List.map (fun n => conversation_at (of_Z (Z.of_nat n)) (Z.of_nat n)) (seq 1 50).

End ChatStorage.

(** * Facts about strings *)

Module JsStringFacts.

(** The operations on the inputs that the examples below use. *)
Example trim_ex : trim (u "  ab c ") = u "ab c".
Proof. reflexivity. Qed.
Example slice_ex : slice (u "abcdef") 1 (-2) = u "bcd".
Proof. reflexivity. Qed.
Example lastIndexOf_ex : lastIndexOf (u "abc.de") (u ".") 3 = 3.
Proof. reflexivity. Qed.
Example lastIndexOf_ex2 : lastIndexOf (u "abc.de") (u ".") 2 = -1.
Proof. reflexivity. Qed.
Example collapse_ex :
  collapse_newlines 0 [97; 10; 10; 10; 10; 98; 10; 10; 99; 10]%N
  = [97; 10; 10; 98; 10; 10; 99; 10]%N.
Proof. reflexivity. Qed.
Example crlf_ex : replace_crlf [13; 13; 10; 97; 13]%N = [13; 10; 97; 13]%N.
Proof. reflexivity. Qed.
Example split_ex : split_ws (u "a  b c") = [u "a"; u "b"; u "c"].
Proof. reflexivity. Qed.
Example split_ex2 : split_ws (u "") = [u ""].
Proof. reflexivity. Qed.
Example of_Z_ex : of_Z 1042 = u "1042".
Proof. reflexivity. Qed.

Lemma len_nonneg (s : jsstring) : 0 <= len s.
Proof. unfold len. lia. Qed.

Lemma len_app (s t : jsstring) : len (s ++ t) = len s + len t.
Proof. unfold len. rewrite length_app. lia. Qed.

(** *** [trim] *)

Lemma trimStart_suffix (s : jsstring) :
  exists k, (k <= List.length s)%nat /\ trimStart s = skipn k s /\ blank (firstn k s).
Proof.
  induction s as [|c s IH]; simpl.
  - exists O. repeat split; auto.
  - destruct (is_ws c) eqn:E.
    + destruct IH as (k & Hk & Hs & Hb).
      exists (S k). simpl. repeat split; [lia | assumption |].
      unfold blank. simpl. rewrite E. exact Hb.
    + exists O. repeat split. lia.
Qed.

Lemma trimStart_length (s : jsstring) : (List.length (trimStart s) <= List.length s)%nat.
Proof.
  induction s as [|c s IH]; simpl; [lia|].
  destruct (is_ws c); simpl; lia.
Qed.

Lemma trimStart_blank (s : jsstring) : blank s -> trimStart s = [].
Proof.
  unfold blank. induction s as [|c s IH]; simpl; [reflexivity|].
  intros H. apply andb_prop in H as [Hc Hs]. rewrite Hc. auto.
Qed.

Lemma trimStart_nil_blank (s : jsstring) : trimStart s = [] -> blank s.
Proof.
  unfold blank. induction s as [|c s IH]; simpl; [reflexivity|].
  destruct (is_ws c); [auto | discriminate].
Qed.

Lemma trimStart_head (s : jsstring) (c : N) (r : jsstring) :
  trimStart s = c :: r -> is_ws c = false.
Proof.
  induction s as [|d s IH]; simpl; [discriminate|].
  destruct (is_ws d) eqn:E; [exact IH|].
  intros H. injection H as -> _. exact E.
Qed.

Lemma trimStart_fixed (c : N) (s : jsstring) :
  is_ws c = false -> trimStart (c :: s) = c :: s.
Proof. intros H. simpl. rewrite H. reflexivity. Qed.

Lemma trimStart_app_keep (s t : jsstring) :
  trimStart s <> [] -> trimStart (s ++ t) = trimStart s ++ t.
Proof.
  induction s as [|c s IH]; simpl; [congruence|].
  destruct (is_ws c); auto.
Qed.

Lemma blank_rev (s : jsstring) : blank s -> blank (rev s).
Proof.
  unfold blank. rewrite !forallb_forall. intros H c Hc.
  apply H. apply in_rev. exact Hc.
Qed.

Lemma blank_app (s t : jsstring) : blank s -> blank t -> blank (s ++ t).
Proof. unfold blank. rewrite forallb_app. intros -> ->. reflexivity. Qed.

Lemma trimEnd_length (s : jsstring) : (List.length (trimEnd s) <= List.length s)%nat.
Proof.
  unfold trimEnd. rewrite length_rev.
  pose proof (trimStart_length (rev s)) as H. rewrite length_rev in H. exact H.
Qed.

Lemma trim_length (s : jsstring) : (List.length (trim s) <= List.length s)%nat.
Proof.
  unfold trim. pose proof (trimEnd_length (trimStart s)).
  pose proof (trimStart_length s). lia.
Qed.

Lemma trim_len (s : jsstring) : len (trim s) <= len s.
Proof. unfold len. pose proof (trim_length s). lia. Qed.

Lemma trim_blank (s : jsstring) : blank s -> trim s = [].
Proof. intros H. unfold trim. rewrite (trimStart_blank s H). reflexivity. Qed.

Lemma trim_nil_blank (s : jsstring) : trim s = [] -> blank s.
Proof.
  unfold trim, trimEnd. intros H.
  apply (f_equal (@rev N)) in H. rewrite rev_involutive in H. simpl in H.
  apply trimStart_nil_blank in H. apply blank_rev in H.
  rewrite rev_involutive in H.
  destruct (trimStart_suffix s) as (k & Hk & Hs & Hb).
  rewrite Hs in H. rewrite <- (firstn_skipn k s). apply blank_app; assumption.
Qed.

(** A string that begins and ends with a unit that is not white space
    is its own [trim]. *)
Lemma trim_fixed (c : N) (s : jsstring) (d : N) :
  is_ws c = false -> is_ws d = false ->
  trim ((c :: s) ++ [d]) = (c :: s) ++ [d].
Proof.
  intros Hc Hd. unfold trim.
  change ((c :: s) ++ [d]) with (c :: (s ++ [d])).
  rewrite (trimStart_fixed c _ Hc).
  unfold trimEnd. change (c :: s ++ [d]) with ((c :: s) ++ [d]).
  rewrite rev_app_distr.
  change (rev [d] ++ rev (c :: s)) with (d :: rev (c :: s)).
  rewrite (trimStart_fixed d _ Hd).
  change (d :: rev (c :: s)) with ([d] ++ rev (c :: s)).
  rewrite rev_app_distr, rev_involutive. reflexivity.
Qed.

Lemma trim_single (c : N) : is_ws c = false -> trim [c] = [c].
Proof. intros H. unfold trim, trimEnd. simpl. rewrite H. simpl. rewrite H. reflexivity. Qed.

Lemma ws_free_cons (c : N) (s : jsstring) :
  ws_free (c :: s) <-> is_ws c = false /\ ws_free s.
Proof.
  unfold ws_free. simpl. rewrite andb_true_iff, negb_true_iff. tauto.
Qed.

Lemma ws_free_app (s t : jsstring) : ws_free (s ++ t) <-> ws_free s /\ ws_free t.
Proof. unfold ws_free. rewrite forallb_app, andb_true_iff. tauto. Qed.

Lemma ws_free_firstn (n : nat) (s : jsstring) : ws_free s -> ws_free (firstn n s).
Proof.
  intros H. rewrite <- (firstn_skipn n s) in H. apply ws_free_app in H. tauto.
Qed.

Lemma ws_free_skipn (n : nat) (s : jsstring) : ws_free s -> ws_free (skipn n s).
Proof.
  intros H. rewrite <- (firstn_skipn n s) in H. apply ws_free_app in H. tauto.
Qed.

Lemma trimStart_ws_free (s : jsstring) : ws_free s -> trimStart s = s.
Proof.
  destruct s as [|c s]; [reflexivity|].
  intros H. apply ws_free_cons in H as [Hc _]. apply trimStart_fixed, Hc.
Qed.

Lemma ws_free_rev (s : jsstring) : ws_free s -> ws_free (rev s).
Proof.
  unfold ws_free. rewrite !forallb_forall. intros H c Hc.
  apply H. apply in_rev. exact Hc.
Qed.

Lemma trim_ws_free (s : jsstring) : ws_free s -> trim s = s.
Proof.
  intros H. unfold trim, trimEnd. rewrite (trimStart_ws_free s H).
  rewrite (trimStart_ws_free (rev s) (ws_free_rev s H)). apply rev_involutive.
Qed.

Lemma trim_shape (s : jsstring) :
  trim s = [] \/ (exists c, is_ws c = false /\ trim s = [c]) \/
  (exists c m d, is_ws c = false /\ is_ws d = false /\ trim s = (c :: m) ++ [d]).
Proof.
  unfold trim, trimEnd.
  destruct (trimStart_suffix (rev (trimStart s))) as (k & _ & Hy & Hb).
  set (x := trimStart s) in *. set (y := trimStart (rev x)) in *.
  assert (Hx : x = rev y ++ rev (firstn k (rev x))).
  { rewrite <- rev_app_distr, Hy, firstn_skipn, rev_involutive. reflexivity. }
  destruct y as [|d y'] eqn:Ey; [left; reflexivity | right].
  assert (Hd : is_ws d = false) by (apply (trimStart_head (rev x) d y'); exact Ey).
  simpl rev in *.
  destruct (rev y') as [|c m] eqn:Em.
  - left. exists d. split; [exact Hd | reflexivity].
  - right. exists c, m, d. repeat split; try assumption.
    apply (trimStart_head s c ((m ++ [d]) ++ rev (firstn k (rev x)))).
    exact Hx.
Qed.

Lemma trim_idempotent (s : jsstring) : trim (trim s) = trim s.
Proof.
  destruct (trim_shape s) as [H | [(c & Hc & H) | (c & m & d & Hc & Hd & H)]];
    rewrite H.
  - reflexivity.
  - apply trim_single, Hc.
  - apply trim_fixed; assumption.
Qed.

(** *** The three [replace] calls *)

Lemma is_ws_LF : is_ws LF = true.
Proof. reflexivity. Qed.

Lemma is_ws_CR : is_ws CR = true.
Proof. reflexivity. Qed.

Lemma not_ws_not_CR (c : N) : is_ws c = false -> (c =? CR)%N = false.
Proof.
  intros H. destruct (c =? CR)%N eqn:E; [|reflexivity].
  apply N.eqb_eq in E. subst c. discriminate.
Qed.

Lemma not_ws_not_LF (c : N) : is_ws c = false -> (c =? LF)%N = false.
Proof.
  intros H. destruct (c =? LF)%N eqn:E; [|reflexivity].
  apply N.eqb_eq in E. subst c. discriminate.
Qed.

(** [replace_crlf] recurses two units deep: its facts are proved for a
    string and for the string with one more unit in front, together. *)
Lemma replace_crlf_facts (s : jsstring) :
  ((List.length (replace_crlf s) <= List.length s)%nat /\
   (blank s -> blank (replace_crlf s)) /\
   (ws_free s -> replace_crlf s = s)) /\
  forall c,
    (List.length (replace_crlf (c :: s)) <= S (List.length s))%nat /\
    (blank (c :: s) -> blank (replace_crlf (c :: s))) /\
    (ws_free (c :: s) -> replace_crlf (c :: s) = c :: s).
Proof.
  induction s as [|d s [IHs IHc]].
  - split; [repeat split; auto|]. intros c. simpl. repeat split; auto.
  - split; [apply IHc|]. intros c.
    destruct (IHc d) as (L1 & B1 & W1). destruct IHs as (L0 & B0 & W0).
    change (replace_crlf (c :: d :: s))
      with (if (c =? CR)%N && (d =? LF)%N then LF :: replace_crlf s
            else c :: replace_crlf (d :: s)).
    destruct ((c =? CR)%N && (d =? LF)%N) eqn:E.
    + repeat split.
      * simpl. lia.
      * unfold blank. simpl. intros H.
        apply andb_prop in H as [_ H]. apply andb_prop in H as [_ H].
        apply B0 in H. exact H.
      * intros H. apply ws_free_cons in H as [Hc _].
        rewrite (not_ws_not_CR c Hc) in E. discriminate.
    + repeat split.
      * cbn [List.length]. cbn [List.length] in L1. lia.
      * unfold blank. change (forallb is_ws (c :: d :: s))
          with (is_ws c && forallb is_ws (d :: s)).
        intros H. apply andb_prop in H as [Hc H]. apply B1 in H.
        simpl. rewrite Hc. exact H.
      * intros H. apply ws_free_cons in H as [_ H]. rewrite (W1 H). reflexivity.
Qed.

Lemma replace_cr_length (s : jsstring) : List.length (replace_cr s) = List.length s.
Proof. apply length_map. Qed.

Lemma replace_cr_blank (s : jsstring) : blank s -> blank (replace_cr s).
Proof.
  unfold blank, replace_cr. induction s as [|c s IH]; simpl; [auto|].
  intros H. apply andb_prop in H as [Hc Hs]. rewrite (IH Hs), andb_true_r.
  destruct (c =? CR)%N; [reflexivity | exact Hc].
Qed.

Lemma replace_cr_ws_free (s : jsstring) : ws_free s -> replace_cr s = s.
Proof.
  unfold replace_cr. induction s as [|c s IH]; simpl; [auto|].
  intros H. apply ws_free_cons in H as [Hc Hs].
  rewrite (not_ws_not_CR c Hc), (IH Hs). reflexivity.
Qed.

Lemma newline_run_length (n : nat) : (List.length (newline_run n) <= n)%nat.
Proof.
  unfold newline_run. destruct (3 <=? n)%nat eqn:E.
  - apply Nat.leb_le in E. simpl. lia.
  - rewrite repeat_length. lia.
Qed.

Lemma newline_run_blank (n : nat) : blank (newline_run n).
Proof.
  unfold newline_run, blank. destruct (3 <=? n)%nat; [reflexivity|].
  induction n; simpl; auto.
Qed.

Lemma collapse_newlines_length (s : jsstring) (p : nat) :
  (List.length (collapse_newlines p s) <= p + List.length s)%nat.
Proof.
  revert p. induction s as [|c s IH]; intros p; simpl.
  - pose proof (newline_run_length p). lia.
  - destruct (c =? LF)%N.
    + specialize (IH (S p)). lia.
    + rewrite length_app. simpl. specialize (IH O).
      pose proof (newline_run_length p). lia.
Qed.

Lemma collapse_newlines_blank (s : jsstring) (p : nat) :
  blank s -> blank (collapse_newlines p s).
Proof.
  revert p. induction s as [|c s IH]; intros p; simpl.
  - intros _. apply newline_run_blank.
  - unfold blank at 1. simpl. intros H. apply andb_prop in H as [Hc Hs].
    destruct (c =? LF)%N; [apply IH, Hs|].
    apply blank_app; [apply newline_run_blank|].
    unfold blank. simpl. rewrite Hc. apply (IH O Hs).
Qed.

Lemma collapse_newlines_ws_free (s : jsstring) :
  ws_free s -> collapse_newlines 0 s = s.
Proof.
  induction s as [|c s IH]; simpl; [auto|].
  intros H. apply ws_free_cons in H as [Hc Hs].
  rewrite (not_ws_not_LF c Hc), (IH Hs). reflexivity.
Qed.

(** *** [slice] *)

Lemma slice_inside (s : jsstring) (a b : Z) :
  0 <= a -> a <= b -> b <= len s ->
  slice s a b = firstn (Z.to_nat (b - a)) (skipn (Z.to_nat a) s).
Proof.
  intros Ha Hab Hb. unfold slice, slice_bound.
  destruct (a <? 0) eqn:Ea; [apply Z.ltb_lt in Ea; lia|].
  destruct (b <? 0) eqn:Eb; [apply Z.ltb_lt in Eb; lia|].
  rewrite !Z.min_l by lia.
  destruct (a <? b) eqn:E; [reflexivity|].
  apply Z.ltb_ge in E. replace (b - a) with 0 by lia. reflexivity.
Qed.

Lemma slice_inside_len (s : jsstring) (a b : Z) :
  0 <= a -> a <= b -> b <= len s -> len (slice s a b) = b - a.
Proof.
  intros Ha Hab Hb. rewrite slice_inside by assumption.
  unfold len in *. rewrite length_firstn, length_skipn. lia.
Qed.

(** A range that is empty, with a start that is not negative, gives
    the empty string. *)
Lemma slice_empty (s : jsstring) (a b : Z) :
  0 <= a -> 0 <= b -> b <= a -> slice s a b = [].
Proof.
  intros Ha Hb Hba. unfold slice, slice_bound.
  destruct (a <? 0) eqn:Ea; [apply Z.ltb_lt in Ea; lia|].
  destruct (b <? 0) eqn:Eb; [apply Z.ltb_lt in Eb; lia|].
  destruct (Z.min a (len s) <? Z.min b (len s)) eqn:E; [|reflexivity].
  apply Z.ltb_lt in E. lia.
Qed.

Lemma slice_ws_free (s : jsstring) (a b : Z) : ws_free s -> ws_free (slice s a b).
Proof.
  intros H. unfold slice.
  destruct (slice_bound s a <? slice_bound s b); [|reflexivity].
  apply ws_free_firstn, ws_free_skipn, H.
Qed.

(** *** [lastIndexOf] *)

Lemma starts_with_length (pat s : jsstring) :
  starts_with pat s = true -> (List.length pat <= List.length s)%nat.
Proof.
  revert s. induction pat as [|p pat IH]; intros [|c s]; simpl; try lia; try discriminate.
  intros H. apply andb_prop in H as [_ H]. apply IH in H. lia.
Qed.

Lemma starts_with_head (p : N) (pat s : jsstring) :
  starts_with (p :: pat) s = true -> exists s', s = p :: s'.
Proof.
  destruct s as [|c s]; simpl; [discriminate|].
  intros H. apply andb_prop in H as [H _]. apply N.eqb_eq in H. subst c.
  exists s. reflexivity.
Qed.

Lemma lastIndexOf_from_found (s pat : jsstring) (k : nat) :
  lastIndexOf_from s pat k = -1 \/
  exists r, lastIndexOf_from s pat k = Z.of_nat r /\ (r <= k)%nat /\
            starts_with pat (skipn r s) = true.
Proof.
  induction k as [|k IH]; cbn [lastIndexOf_from].
  - destruct (starts_with pat (skipn 0 s)) eqn:E; [right | left; reflexivity].
    exists O. auto.
  - destruct (starts_with pat (skipn (S k) s)) eqn:E.
    + right. exists (S k). auto.
    + destruct IH as [IH | (r & Hr & Hle & Hs)]; [left; exact IH | right].
      exists r. auto.
Qed.

(** An occurrence found by [lastIndexOf] lies within the string and
    not after the position asked for. *)
Lemma lastIndexOf_found (s pat : jsstring) (position : Z) :
  lastIndexOf s pat position = -1 \/
  (0 <= lastIndexOf s pat position /\
   lastIndexOf s pat position <= Z.max position 0 /\
   lastIndexOf s pat position + len pat <= len s /\
   starts_with pat (skipn (Z.to_nat (lastIndexOf s pat position)) s) = true).
Proof.
  unfold lastIndexOf.
  destruct (lastIndexOf_from_found s pat
              (Z.to_nat (Z.min (Z.max position 0) (len s))))
    as [H | (r & Hr & Hle & Hs)]; [left; exact H | right].
  rewrite Hr. rewrite Nat2Z.id.
  pose proof (starts_with_length _ _ Hs) as Hl. rewrite length_skipn in Hl.
  pose proof (len_nonneg s). unfold len in *.
  repeat split; try lia; exact Hs.
Qed.

(** No occurrence of a white-space unit in a string without white
    space. *)
Lemma lastIndexOf_ws_free (s pat : jsstring) (p : N) (position : Z) :
  ws_free s -> is_ws p = true -> lastIndexOf s (p :: pat) position = -1.
Proof.
  intros Hs Hp.
  destruct (lastIndexOf_found s (p :: pat) position) as [H | (_ & _ & _ & H)];
    [exact H|].
  destruct (starts_with_head _ _ _ H) as (s' & Hs').
  pose proof (ws_free_skipn (Z.to_nat (lastIndexOf s (p :: pat) position)) s Hs) as Hw.
  rewrite Hs' in Hw. apply ws_free_cons in Hw as [Hw _]. congruence.
Qed.

(** *** Units that are not white space survive the normalisation *)

Lemma replace_crlf_keeps (c : N) (s : jsstring) :
  is_ws c = false ->
  (In c s -> In c (replace_crlf s)) /\
  forall d, In c (d :: s) -> In c (replace_crlf (d :: s)).
Proof.
  intros Hc. induction s as [|e s [IHs IHd]].
  - split; [auto|]. intros d H. exact H.
  - split; [apply IHd|]. intros d H.
    change (replace_crlf (d :: e :: s))
      with (if (d =? CR)%N && (e =? LF)%N then LF :: replace_crlf s
            else d :: replace_crlf (e :: s)).
    destruct ((d =? CR)%N && (e =? LF)%N) eqn:E.
    + apply andb_prop in E as [Ed Ee].
      apply N.eqb_eq in Ed. apply N.eqb_eq in Ee. subst d e.
      destruct H as [H | [H | H]]; try (subst c; discriminate).
      right. apply IHs, H.
    + destruct H as [H | H]; [left; exact H | right; apply IHd, H].
Qed.

Lemma replace_cr_keeps (c : N) (s : jsstring) :
  is_ws c = false -> In c s -> In c (replace_cr s).
Proof.
  intros Hc H. unfold replace_cr. apply in_map_iff. exists c.
  rewrite (not_ws_not_CR c Hc). auto.
Qed.

Lemma collapse_newlines_keeps (c : N) (s : jsstring) (p : nat) :
  is_ws c = false -> In c s -> In c (collapse_newlines p s).
Proof.
  intros Hc. revert p. induction s as [|d s IH]; intros p H; [destruct H|].
  simpl. destruct H as [H | H].
  - subst d. rewrite (not_ws_not_LF c Hc). apply in_or_app. right. left. reflexivity.
  - destruct (d =? LF)%N; [apply IH, H|].
    apply in_or_app. right. right. apply IH, H.
Qed.

Lemma blank_In (s : jsstring) (c : N) : blank s -> In c s -> is_ws c = true.
Proof. unfold blank. rewrite forallb_forall. auto. Qed.

Lemma not_blank_In (s : jsstring) :
  ~ blank s -> exists c, In c s /\ is_ws c = false.
Proof.
  unfold blank. induction s as [|c s IH]; simpl; [congruence|].
  destruct (is_ws c) eqn:E.
  - simpl. intros H. destruct (IH H) as (d & Hd & Hw). exists d. auto.
  - intros _. exists c. auto.
Qed.

(** *** White space at the end of a slice *)

Lemma trimStart_blank_app (b s : jsstring) : blank b -> trimStart (b ++ s) = trimStart s.
Proof.
  unfold blank. induction b as [|c b IH]; simpl; [reflexivity|].
  intros H. apply andb_prop in H as [Hc Hb]. rewrite Hc. apply IH, Hb.
Qed.

Lemma trimEnd_app_blank (s b : jsstring) : blank b -> trimEnd (s ++ b) = trimEnd s.
Proof.
  intros Hb. unfold trimEnd. rewrite rev_app_distr.
  rewrite trimStart_blank_app by (apply blank_rev, Hb). reflexivity.
Qed.

(** White space after a string adds nothing to its [trim]. *)
Lemma trim_app_blank_len (s b : jsstring) : blank b -> len (trim (s ++ b)) <= len s.
Proof.
  intros Hb. destruct (trimStart s) as [|c r] eqn:E.
  - rewrite trim_blank; [apply len_nonneg|].
    apply blank_app; [apply trimStart_nil_blank, E | exact Hb].
  - unfold trim. rewrite trimStart_app_keep by congruence.
    rewrite trimEnd_app_blank by exact Hb. apply trim_len.
Qed.

Lemma firstn_plus {A} (n m : nat) (l : list A) :
  firstn (n + m) l = firstn n l ++ firstn m (skipn n l).
Proof.
  revert l. induction n as [|n IH]; intros l; [reflexivity|].
  destruct l as [|a l]; simpl; [destruct m; reflexivity|].
  rewrite IH. reflexivity.
Qed.

(** A slice that ends right after an occurrence of [pat] is the slice
    up to the occurrence, followed by [pat]. *)
Lemma slice_to_occurrence (s pat : jsstring) (a p : Z) :
  0 <= a -> a <= p -> p + len pat <= len s ->
  starts_with pat (skipn (Z.to_nat p) s) = true ->
  exists tail, skipn (Z.to_nat p) s = pat ++ tail /\
               slice s a (p + len pat) = slice s a p ++ pat.
Proof.
  intros Ha Hap Hp Hs.
  assert (Hpre : forall pat t, starts_with pat t = true -> exists tail, t = pat ++ tail).
  { clear. induction pat as [|q pat IH]; intros t H; [exists t; reflexivity|].
    destruct t as [|c t]; simpl in H; [discriminate|].
    apply andb_prop in H as [Hq Ht]. apply N.eqb_eq in Hq. subst c.
    destruct (IH t Ht) as (tail & ->). exists tail. reflexivity. }
  destruct (Hpre _ _ Hs) as (tail & Htail). exists tail. split; [exact Htail|].
  pose proof (len_nonneg pat).
  rewrite !slice_inside by lia.
  replace (Z.to_nat (p + len pat - a))
    with (Z.to_nat (p - a) + List.length pat)%nat by (unfold len; lia).
  rewrite firstn_plus. f_equal.
  rewrite skipn_skipn.
  replace (Z.to_nat (p - a) + Z.to_nat a)%nat with (Z.to_nat p) by lia.
  rewrite Htail. rewrite firstn_app, firstn_all, Nat.sub_diag. simpl.
  apply app_nil_r.
Qed.

Lemma slice_len_le (s : jsstring) (a b : Z) :
  0 <= a -> a <= b -> b <= len s -> len (slice s a b) <= b - a.
Proof. intros. rewrite slice_inside_len; lia. Qed.

End JsStringFacts.

(** * The chunker: normalisation and the single-chunk case *)

Module ChunkerFacts.

Import Chunker JsStringFacts.

Lemma cleanText_len (t : jsstring) : len (cleanText t) <= len t.
Proof.
  unfold cleanText.
  pose proof (trim_len (collapse_newlines 0 (replace_cr (replace_crlf t)))) as H1.
  pose proof (collapse_newlines_length (replace_cr (replace_crlf t)) 0) as H2.
  rewrite replace_cr_length in H2.
  destruct (replace_crlf_facts t) as [(H3 & _) _].
  unfold len in *. lia.
Qed.

Lemma cleanText_blank (t : jsstring) : blank t -> cleanText t = [].
Proof.
  intros H. unfold cleanText. apply trim_blank.
  apply collapse_newlines_blank, replace_cr_blank.
  destruct (replace_crlf_facts t) as [(_ & B & _) _]. apply B, H.
Qed.

Lemma cleanText_ws_free (t : jsstring) : ws_free t -> cleanText t = t.
Proof.
  intros H. unfold cleanText.
  destruct (replace_crlf_facts t) as [(_ & _ & W) _]. rewrite (W H).
  rewrite (replace_cr_ws_free t H), (collapse_newlines_ws_free t H).
  apply trim_ws_free, H.
Qed.

Lemma cleanText_trimmed (t : jsstring) : trim (cleanText t) = cleanText t.
Proof. unfold cleanText. apply trim_idempotent. Qed.

(** A text whose normal form is not empty passes the blank test at the
    head of [chunkText]. *)
Lemma cleanText_nonblank (t : jsstring) : cleanText t <> [] -> trim t <> [].
Proof.
  intros H Ht. apply H, cleanText_blank, trim_nil_blank, Ht.
Qed.

(** and a text that passes the blank test has a normal form that is
    not empty. *)
Lemma cleanText_nonempty (t : jsstring) : trim t <> [] -> cleanText t <> [].
Proof.
  intros Ht Hc. unfold cleanText in Hc. apply trim_nil_blank in Hc.
  destruct (not_blank_In t) as (c & Hin & Hw).
  { intros Hb. apply Ht, trim_blank, Hb. }
  assert (is_ws c = true); [|congruence].
  apply (blank_In _ c Hc).
  apply collapse_newlines_keeps, replace_cr_keeps; try exact Hw.
  apply (replace_crlf_keeps c t Hw), Hin.
Qed.

(** C1.  Single-chunk short-circuit: a text whose normal form [cleanText]
    (line endings unified, runs of three or more newlines collapsed to
    two, trimmed) is not empty and has at most [chunkSize] units yields,
    whatever the fuel and whatever [minChunkSize], exactly one chunk; its
    content is that normal form, which is its own [trim], and it spans
    the whole normal form with index 0. *)
Theorem chunkText_single_chunk (clock : nat -> Z) (fuel : nat) (text : jsstring)
    (options : PartialChunkingOptions) :
  cleanText text <> [] ->
  len (cleanText text) <= chunkSize (merge_options options) ->
  exists c,
    chunkText clock fuel text options = Some [c] /\
    content c = cleanText text /\
    content c = trim (cleanText text) /\
    index c = 0 /\ startIndex c = 0 /\ endIndex c = len (cleanText text).
Proof.
  intros Hne Hle. unfold chunkText.
  pose proof (cleanText_nonblank text Hne) as Ht.
  destruct (trim text) as [|c0 r]; [congruence|].
  apply Z.leb_le in Hle. rewrite Hle.
  eexists. split; [reflexivity|]. cbn [content index startIndex endIndex createChunk].
  rewrite cleanText_trimmed. auto.
Qed.

(** "short" with a minimum chunk size of 100 is one chunk. *)
Lemma chunkText_single_chunk_witness :
  exists c,
    chunkText (fun _ => 0) 0 (u "short") no_options = Some [c] /\
    content c = cleanText (u "short") /\
    content c = trim (cleanText (u "short")) /\
    index c = 0 /\ startIndex c = 0 /\ endIndex c = len (cleanText (u "short")).
Proof.
  apply (chunkText_single_chunk (fun _ => 0) 0 (u "short") no_options).
  - vm_compute. discriminate.
  - vm_compute. discriminate.
Defined.

(** ** The loop *)

Section LoopFacts.

Variable clock : nat -> Z.
Variable opts : ChunkingOptions.
Variable clean : jsstring.

(** One turn of the loop, as an equation. *)
Lemma chunk_loop_turn (fuel : nat) (s idx : Z) (acc : list DocumentChunk) (t : nat) :
  chunk_loop clock opts clean (S fuel) s idx acc t =
  if s <? len clean then
    let e := window_end opts clean s in
    let c := trim (slice clean s e) in
    let emit := len c >=? minChunkSize opts in
    let acc' := if emit then acc ++ [createChunk (clock t) c idx s e Text (u "Document")]
                else acc in
    if next_start opts s e >=? e then Some acc'
    else chunk_loop clock opts clean fuel (next_start opts s e)
           (if emit then idx + 1 else idx) acc' (if emit then S t else t)
  else Some acc.
Proof. reflexivity. Qed.

(** The end of a window lies within the text. *)
Lemma window_end_le (s : Z) :
  1 <= len clean -> window_end opts clean s <= len clean.
Proof.
  intros Hlen. unfold window_end.
  set (e0 := Z.min (s + chunkSize opts) (len clean)).
  assert (e0 <= len clean) by (unfold e0; lia).
  destruct (preserveParagraphs opts && (e0 <? len clean)); [|assumption].
  destruct (lastIndexOf clean [LF; LF] e0 >? s + minChunkSize opts) eqn:E1.
  - destruct (lastIndexOf_found clean [LF; LF] e0) as [Hp | (_ & _ & Hp & _)].
    + rewrite Hp. lia.
    + unfold len in Hp at 1. simpl in Hp. lia.
  - destruct (lastIndexOf clean [DOT] e0 >? s + minChunkSize opts) eqn:E2; [|assumption].
    destruct (lastIndexOf_found clean [DOT] e0) as [Hp | (_ & _ & Hp & _)].
    + rewrite Hp. lia.
    + unfold len in Hp at 1. simpl in Hp. lia.
Qed.

(** The end of a window is the hard cut, or a boundary more than
    [minChunkSize] after the start. *)
Lemma window_end_cases (s : Z) :
  window_end opts clean s = Z.min (s + chunkSize opts) (len clean) \/
  s + minChunkSize opts + 1 < window_end opts clean s.
Proof.
  unfold window_end.
  set (e0 := Z.min (s + chunkSize opts) (len clean)).
  destruct (preserveParagraphs opts && (e0 <? len clean)); [|left; reflexivity].
  destruct (lastIndexOf clean [LF; LF] e0 >? s + minChunkSize opts) eqn:E1.
  - right. apply Z.gtb_lt in E1. lia.
  - destruct (lastIndexOf clean [DOT] e0 >? s + minChunkSize opts) eqn:E2;
      [|left; reflexivity].
    right. apply Z.gtb_lt in E2. lia.
Qed.

(** The chunks that a turn has pushed stay in the array. *)
Lemma chunk_loop_extends (fuel : nat) :
  forall s idx acc t r,
    chunk_loop clock opts clean fuel s idx acc t = Some r ->
    exists more, r = acc ++ more.
Proof.
  induction fuel as [|fuel IH]; intros s idx acc t r; [discriminate|].
  rewrite chunk_loop_turn.
  destruct (s <? len clean); [|intros [= <-]; exists []; symmetry; apply app_nil_r].
  cbv zeta.
  destruct (next_start opts s (window_end opts clean s) >=? window_end opts clean s).
  - intros [= <-].
    destruct (len (trim (slice clean s (window_end opts clean s))) >=? minChunkSize opts);
      eexists; [reflexivity | symmetry; apply app_nil_r].
  - intros H. apply IH in H as (more & ->).
    destruct (len (trim (slice clean s (window_end opts clean s))) >=? minChunkSize opts).
    + rewrite <- app_assoc. eexists. reflexivity.
    + eexists. reflexivity.
Qed.

(** Every chunk that the loop pushes has at least [minChunkSize]
    units. *)
Lemma chunk_loop_min_size (fuel : nat) :
  forall s idx acc t r,
    chunk_loop clock opts clean fuel s idx acc t = Some r ->
    Forall (fun c => minChunkSize opts <= len (content c)) acc ->
    Forall (fun c => minChunkSize opts <= len (content c)) r.
Proof.
  induction fuel as [|fuel IH]; intros s idx acc t r; [discriminate|].
  rewrite chunk_loop_turn.
  destruct (s <? len clean); [|intros [= <-]; auto].
  cbv zeta.
  assert (Hpush : forall acc,
    Forall (fun c => minChunkSize opts <= len (content c)) acc ->
    Forall (fun c => minChunkSize opts <= len (content c))
      (if len (trim (slice clean s (window_end opts clean s))) >=? minChunkSize opts
       then acc ++ [createChunk (clock t) (trim (slice clean s (window_end opts clean s)))
                      idx s (window_end opts clean s) Text (u "Document")]
       else acc)).
  { intros a Ha.
    destruct (len (trim (slice clean s (window_end opts clean s))) >=? minChunkSize opts)
      eqn:E; [|exact Ha].
    apply Forall_app. split; [exact Ha|]. constructor; [|constructor].
    cbn [content createChunk]. apply Z.geb_le in E. exact E. }
  destruct (next_start opts s (window_end opts clean s) >=? window_end opts clean s).
  - intros [= <-] Ha. apply Hpush, Ha.
  - intros H Ha. apply (IH _ _ _ _ _ H). apply Hpush, Ha.
Qed.

(** With [minChunkSize >= 1] every turn moves the start forward, and
    the loop ends within as many turns as the text has units left. *)
Lemma chunk_loop_terminates (fuel : nat) :
  1 <= minChunkSize opts ->
  forall s idx acc t,
    len clean - s <= Z.of_nat fuel ->
    exists r, chunk_loop clock opts clean (S fuel) s idx acc t = Some r.
Proof.
  intros Hmin. induction fuel as [|fuel IH]; intros s idx acc t Hf;
    rewrite chunk_loop_turn;
    (destruct (s <? len clean) eqn:E; [apply Z.ltb_lt in E | eexists; reflexivity]).
  - lia.
  - cbv zeta.
    destruct (next_start opts s (window_end opts clean s) >=? window_end opts clean s);
      [eexists; reflexivity|].
    apply IH. unfold next_start. lia.
Qed.

(** More fuel does not change a result. *)
Lemma chunk_loop_more_fuel (fuel : nat) :
  forall s idx acc t r,
    chunk_loop clock opts clean fuel s idx acc t = Some r ->
    chunk_loop clock opts clean (S fuel) s idx acc t = Some r.
Proof.
  induction fuel as [|fuel IH]; intros s idx acc t r; [discriminate|].
  rewrite (chunk_loop_turn (S fuel)), (chunk_loop_turn fuel).
  destruct (s <? len clean); [|auto]. cbv zeta.
  destruct (next_start opts s (window_end opts clean s) >=? window_end opts clean s);
    [auto|]. apply IH.
Qed.

End LoopFacts.

(** ** The chunk-list invariant *)

Lemma increasing_starts_snoc (l : list DocumentChunk) (c : DocumentChunk) :
  increasing_starts l ->
  Forall (fun a => startIndex a < startIndex c) l ->
  increasing_starts (l ++ [c]).
Proof.
  unfold increasing_starts. induction 1 as [|a l Hl IH Ha]; intros Hc; simpl.
  - repeat constructor.
  - inversion Hc as [|? ? Hac Hlc]; subst. constructor; [apply IH, Hlc|].
    apply Forall_app. split; [exact Ha | repeat constructor; exact Hac].
Qed.

Lemma indexed_from_snoc (l : list DocumentChunk) (c : DocumentChunk) :
  indexed_from 0 l -> index c = Z.of_nat (List.length l) ->
  indexed_from 0 (l ++ [c]).
Proof.
  unfold indexed_from. intros Hl Hc.
  rewrite map_app, length_app, seq_app, map_app, Hl. simpl. rewrite Hc. reflexivity.
Qed.

Section Invariant.

Variable clock : nat -> Z.
Variable opts : ChunkingOptions.
Variable clean : jsstring.

Hypothesis size_nonneg : 0 <= chunkSize opts.
Hypothesis min_nonneg : 0 <= minChunkSize opts.
Hypothesis not_both_zero : 1 <= chunkSize opts + minChunkSize opts.

(** A turn whose next start is its own start, and that does not leave
    the loop, repeats for ever. *)
Lemma chunk_loop_stuck (s : Z) :
  s < len clean ->
  next_start opts s (window_end opts clean s) = s ->
  s < window_end opts clean s ->
  forall fuel idx acc t, chunk_loop clock opts clean fuel s idx acc t = None.
Proof.
  intros Hs Hn He. induction fuel as [|fuel IH]; intros idx acc t; [reflexivity|].
  rewrite chunk_loop_turn. apply Z.ltb_lt in Hs. rewrite Hs. cbv zeta.
  rewrite Hn. destruct (s >=? window_end opts clean s) eqn:E.
  - apply Z.geb_le in E. lia.
  - apply IH.
Qed.

(** A chunk that a turn pushes starts before it ends. *)
Lemma emitted_window (s : Z) :
  0 <= s -> s < len clean ->
  (len (trim (slice clean s (window_end opts clean s))) >=? minChunkSize opts) = true ->
  s < window_end opts clean s.
Proof.
  intros H0 Hs E. apply Z.geb_le in E.
  destruct (window_end_cases opts clean s) as [Hw | Hw]; [|lia].
  destruct (Z.eq_dec (chunkSize opts) 0) as [Hz | Hz]; [|lia].
  rewrite Hw, Hz, Z.add_0_r, Z.min_l in E by lia.
  rewrite slice_empty in E by lia. change (len (trim [])) with 0 in E. lia.
Qed.

Lemma chunk_loop_invariant (fuel : nat) :
  forall s idx acc t r,
    chunk_loop clock opts clean fuel s idx acc t = Some r ->
    0 <= s ->
    idx = Z.of_nat (List.length acc) ->
    indexed_from 0 acc ->
    increasing_starts acc ->
    Forall (fun c => startIndex c < s) acc ->
    Forall (well_formed clean) acc ->
    indexed_from 0 r /\ increasing_starts r /\ Forall (well_formed clean) r.
Proof.
  induction fuel as [|fuel IH]; intros s idx acc t r; [discriminate|].
  rewrite chunk_loop_turn.
  destruct (s <? len clean) eqn:Es; [|intros [= <-]; auto].
  apply Z.ltb_lt in Es. cbv zeta.
  set (e := window_end opts clean s).
  set (c := createChunk (clock t) (trim (slice clean s e)) idx s e Text (u "Document")).
  intros H H0 Hidx Hix Hinc Hlt Hwf.
  assert (He : e <= len clean) by (apply window_end_le; lia).
  assert (Hpush :
    (len (trim (slice clean s e)) >=? minChunkSize opts) = true ->
    indexed_from 0 (acc ++ [c]) /\ increasing_starts (acc ++ [c]) /\
    Forall (well_formed clean) (acc ++ [c]) /\
    Forall (fun c => startIndex c <= s) (acc ++ [c])).
  { intros E. pose proof (emitted_window s H0 Es E) as Hse. fold e in Hse.
    split; [|split; [|split]].
    - apply indexed_from_snoc; [exact Hix | exact Hidx].
    - apply increasing_starts_snoc; assumption.
    - apply Forall_app. split; [exact Hwf|]. constructor; [|constructor].
      unfold well_formed. cbn. repeat split; lia.
    - apply Forall_app. split; [|repeat constructor; cbn; lia].
      eapply Forall_impl; [|exact Hlt]. cbv beta. intros; lia. }
  assert (Hnext : s <= next_start opts s e) by (unfold next_start; lia).
  destruct (next_start opts s e >=? e) eqn:En.
  - injection H as <-.
    destruct (len (trim (slice clean s e)) >=? minChunkSize opts); [|auto].
    destruct (Hpush eq_refl) as (P1 & P2 & P3 & _). auto.
  - rewrite Z.geb_leb in En. apply Z.leb_gt in En.
    destruct (Z.eq_dec (next_start opts s e) s) as [Hst | Hst].
    + rewrite Hst in H.
      rewrite (chunk_loop_stuck s Es Hst) in H by (unfold e in *; lia).
      discriminate.
    + destruct (len (trim (slice clean s e)) >=? minChunkSize opts) eqn:E.
      * destruct (Hpush eq_refl) as (P1 & P2 & P3 & P4).
        apply (IH _ _ _ _ _ H); try assumption; try lia.
        -- rewrite length_app. simpl. lia.
        -- eapply Forall_impl; [|exact P4]. cbv beta. intros; lia.
      * apply (IH _ _ _ _ _ H); try assumption; try lia.
        eapply Forall_impl; [|exact Hlt]. cbv beta. intros; lia.
Qed.

End Invariant.

(** ** [chunkText] as a whole *)

(** With [minChunkSize >= 1], [chunkText] returns, within one turn per
    unit of the text. *)
Lemma chunkText_terminates (clock : nat -> Z) (text : jsstring)
    (options : PartialChunkingOptions) :
  1 <= minChunkSize (merge_options options) ->
  exists chunks, chunkText clock (S (List.length text)) text options = Some chunks.
Proof.
  intros Hmin. unfold chunkText.
  destruct (trim text); [eexists; reflexivity|].
  destruct (len (cleanText text) <=? chunkSize (merge_options options));
    [eexists; reflexivity|].
  apply chunk_loop_terminates; [exact Hmin|].
  pose proof (cleanText_len text). unfold len in *. lia.
Qed.

(** C2, as amended.  For every text and every configuration with
    [chunkSize >= 0] and [minChunkSize >= 0], not both zero, the chunks
    that [chunkText] returns carry the indices 0 .. n-1 in list order,
    their [startIndex] increases strictly, and every chunk has
    [0 <= startIndex < endIndex <= length] and is the trimmed slice
    between its offsets, where offsets and length are those of the
    normalised text [cleanText text].  With [minChunkSize >= 1] such a
    list is returned. *)
Theorem chunkText_chunk_list (clock : nat -> Z) (text : jsstring)
    (options : PartialChunkingOptions) :
  0 <= chunkSize (merge_options options) ->
  0 <= minChunkSize (merge_options options) ->
  1 <= chunkSize (merge_options options) + minChunkSize (merge_options options) ->
  (forall fuel chunks,
     chunkText clock fuel text options = Some chunks ->
     indexed_from 0 chunks /\ increasing_starts chunks /\
     Forall (well_formed (cleanText text)) chunks) /\
  (1 <= minChunkSize (merge_options options) ->
   exists chunks, chunkText clock (S (List.length text)) text options = Some chunks).
Proof.
  intros Hcs Hmin Hboth. split; [|apply chunkText_terminates].
  intros fuel chunks. unfold chunkText.
  destruct (trim text) eqn:Et.
  { intros [= <-]. repeat split; constructor. }
  assert (Hne : cleanText text <> []) by (apply cleanText_nonempty; congruence).
  assert (Hpos : 1 <= len (cleanText text)).
  { unfold len. destruct (cleanText text); [congruence | simpl; lia]. }
  destruct (len (cleanText text) <=? chunkSize (merge_options options)).
  - intros [= <-]. split; [reflexivity|]. split; [repeat constructor|].
    constructor; [|constructor]. unfold well_formed. cbn.
    repeat split; try lia.
    rewrite slice_inside by lia.
    rewrite Z.sub_0_r. unfold len. rewrite Nat2Z.id. simpl skipn.
    rewrite firstn_all. symmetry. apply cleanText_trimmed.
  - intros H.
    apply (chunk_loop_invariant clock (merge_options options) (cleanText text)
             Hcs Hmin Hboth fuel 0 0 [] O chunks H);
      try constructor; try reflexivity; lia.
Qed.

(** A five-unit text cut in windows of three: three chunks. *)
Lemma chunkText_chunk_list_witness :
  let options := {| p_chunkSize := Some 3; p_chunkOverlap := Some 1;
                    p_minChunkSize := Some 1; p_preserveParagraphs := None |} in
  exists chunks,
    chunkText (fun _ => 0) 6 (u "ab cd") options = Some chunks /\
    List.length chunks = 3%nat /\
    indexed_from 0 chunks /\ increasing_starts chunks /\
    Forall (well_formed (cleanText (u "ab cd"))) chunks.
Proof.
  intros options. eexists. split; [vm_compute; reflexivity|].
  split; [reflexivity|].
  apply (chunkText_chunk_list (fun _ => 0) (u "ab cd") options) with (fuel := 6%nat).
  - simpl. lia.
  - simpl. lia.
  - simpl. lia.
  - vm_compute. reflexivity.
Defined.

(** C2 as stated fails: with [chunkSize = 0] and [minChunkSize = 0] the
    text "a" gives one chunk with [startIndex = endIndex = 0] and empty
    content. *)
Lemma chunkText_chunk_list_degenerate :
  let options := {| p_chunkSize := Some 0; p_chunkOverlap := None;
                    p_minChunkSize := Some 0; p_preserveParagraphs := None |} in
  exists c,
    chunkText (fun _ => 0) 1 (u "a") options = Some [c] /\
    startIndex c = 0 /\ endIndex c = 0 /\ content c = [] /\
    ~ Forall (well_formed (cleanText (u "a"))) [c].
Proof.
  eexists. split; [vm_compute; reflexivity|].
  repeat split.
  intros H. inversion H as [|? ? Hw _]; subst.
  destruct Hw as (_ & Hlt & _). cbn in Hlt. lia.
Qed.

(** The offsets count in the normalised text, not in the text passed
    in: for " ab." the chunk is "ab.", with offsets 0 and 3, and the
    units 0 to 3 of the text passed in read " ab". *)
Lemma chunkText_offsets_in_clean_text :
  exists c,
    chunkText (fun _ => 0) 0 (u " ab.") no_options = Some [c] /\
    content c = u "ab." /\ startIndex c = 0 /\ endIndex c = 3 /\
    trim (slice (u " ab.") (startIndex c) (endIndex c)) = u "ab" /\
    trim (slice (cleanText (u " ab.")) (startIndex c) (endIndex c)) = u "ab.".
Proof. eexists. split; [vm_compute; reflexivity|]. repeat split. Qed.

(** C6.  Every chunk that [chunkText] returns has at least
    [minChunkSize] units of content, or it is the only chunk and comes
    from the single-chunk case (the normalised text has at most
    [chunkSize] units). *)
Theorem chunkText_min_size (clock : nat -> Z) (fuel : nat) (text : jsstring)
    (options : PartialChunkingOptions) (chunks : list DocumentChunk) :
  chunkText clock fuel text options = Some chunks ->
  Forall (fun c =>
            minChunkSize (merge_options options) <= len (content c) \/
            (chunks = [c] /\
             len (cleanText text) <= chunkSize (merge_options options)))
         chunks.
Proof.
  unfold chunkText.
  destruct (trim text); [intros [= <-]; constructor|].
  destruct (len (cleanText text) <=? chunkSize (merge_options options)) eqn:E.
  - intros [= <-]. apply Z.leb_le in E. constructor; [|constructor].
    right. split; [reflexivity | exact E].
  - intros H.
    pose proof (chunk_loop_min_size _ _ _ _ _ _ _ _ _ H (Forall_nil _)) as Hall.
    eapply Forall_impl; [|exact Hall]. cbv beta. intros c Hc. left. exact Hc.
Qed.

(** Ten units in windows of four with a minimum of two: the one-unit
    tail is not a chunk. *)
Lemma chunkText_min_size_witness :
  let options := {| p_chunkSize := Some 4; p_chunkOverlap := Some 2;
                    p_minChunkSize := Some 2; p_preserveParagraphs := None |} in
  exists chunks,
    chunkText (fun _ => 0) 10 (u "abcdefghij") options = Some chunks /\
    List.length chunks = 5%nat /\
    Forall (fun c =>
              minChunkSize (merge_options options) <= len (content c) \/
              (chunks = [c] /\
               len (cleanText (u "abcdefghij")) <= chunkSize (merge_options options)))
           chunks.
Proof.
  intros options. eexists. split; [vm_compute; reflexivity|].
  split; [reflexivity|].
  apply (chunkText_min_size (fun _ => 0) 10 (u "abcdefghij") options).
  vm_compute. reflexivity.
Defined.

(** C3, the defect.  The search for a full stop starts at [endIndex]
    itself, so a full stop right after the hard cut moves the end one
    unit past it: with [chunkSize = 3] the text "abc.de" is not a single
    chunk, and its first chunk is "abc.", four units. *)
Theorem chunkText_sentence_snap_exceeds :
  let options := {| p_chunkSize := Some 3; p_chunkOverlap := Some 1;
                    p_minChunkSize := Some 1; p_preserveParagraphs := Some true |} in
  exists c rest,
    chunkText (fun _ => 0) 4 (u "abc.de") options = Some (c :: rest) /\
    (len (cleanText (u "abc.de")) <=? chunkSize (merge_options options)) = false /\
    content c = u "abc." /\
    startIndex c = 0 /\ endIndex c = 4 /\
    chunkSize (merge_options options) < len (content c).
Proof.
  intros options. eexists. eexists.
  split; [vm_compute; reflexivity|].
  repeat split.
Qed.

(** C4, the defect.  With [minChunkSize = 0] and
    [chunkOverlap >= chunkSize] the next start is the start itself, and
    the exit test compares it with [endIndex] only: on "abc" with
    [chunkSize = 2] and [chunkOverlap = 2] the loop never ends, whatever
    the fuel. *)
Theorem chunkText_min_zero_diverges (clock : nat -> Z) (fuel : nat) :
  chunkText clock fuel (u "abc")
    {| p_chunkSize := Some 2; p_chunkOverlap := Some 2;
       p_minChunkSize := Some 0; p_preserveParagraphs := Some false |} = None.
Proof.
  unfold chunkText.
  change (trim (u "abc")) with (u "abc"). cbv iota.
  change (cleanText (u "abc")) with (u "abc").
  change (len (u "abc") <=? _) with false. cbv iota.
  apply chunk_loop_stuck; vm_compute; reflexivity.
Qed.

(** ** Texts at the length boundary *)

Section Turns.

Variable clock : nat -> Z.
Variable opts : ChunkingOptions.
Variable clean : jsstring.

(** A turn that pushes its chunk and goes on. *)
Lemma chunk_loop_emit_continue (fuel : nat) (s idx : Z) (acc : list DocumentChunk)
    (t : nat) :
  s < len clean ->
  minChunkSize opts <= len (trim (slice clean s (window_end opts clean s))) ->
  next_start opts s (window_end opts clean s) < window_end opts clean s ->
  chunk_loop clock opts clean (S fuel) s idx acc t =
  chunk_loop clock opts clean fuel (next_start opts s (window_end opts clean s))
    (idx + 1)
    (acc ++ [createChunk (clock t) (trim (slice clean s (window_end opts clean s)))
               idx s (window_end opts clean s) Text (u "Document")])
    (S t).
Proof.
  intros Hs He Hn. rewrite chunk_loop_turn.
  apply Z.ltb_lt in Hs. rewrite Hs. cbv zeta.
  apply Z.geb_le in He. rewrite He.
  destruct (next_start opts s (window_end opts clean s) >=? window_end opts clean s) eqn:E;
    [apply Z.geb_le in E; lia | reflexivity].
Qed.

(** A turn that pushes its chunk: the result holds it. *)
Lemma chunk_loop_emit_extends (fuel : nat) (s idx : Z) (acc : list DocumentChunk)
    (t : nat) (r : list DocumentChunk) :
  s < len clean ->
  minChunkSize opts <= len (trim (slice clean s (window_end opts clean s))) ->
  chunk_loop clock opts clean fuel s idx acc t = Some r ->
  exists c more, r = (acc ++ [c]) ++ more.
Proof.
  intros Hs He. destruct fuel as [|fuel]; [discriminate|].
  rewrite chunk_loop_turn.
  apply Z.ltb_lt in Hs. rewrite Hs. cbv zeta.
  apply Z.geb_le in He. rewrite He.
  destruct (next_start opts s (window_end opts clean s) >=? window_end opts clean s).
  - intros [= <-]. eexists. exists []. rewrite app_nil_r. reflexivity.
  - intros H. apply chunk_loop_extends in H as (more & ->).
    eexists. exists more. reflexivity.
Qed.

End Turns.

Lemma ws_free_window_len (text : jsstring) (a b : Z) :
  ws_free text -> 0 <= a -> a <= b -> b <= len text ->
  len (trim (slice text a b)) = b - a.
Proof.
  intros Hws Ha Hab Hb.
  rewrite trim_ws_free by (apply slice_ws_free, Hws).
  apply slice_inside_len; assumption.
Qed.

(** A text without white space, one unit longer than [chunkSize], gives
    at least two chunks when [1 <= minChunkSize <= chunkOverlap] and
    [2 * minChunkSize <= chunkSize]. *)
Lemma chunkText_one_longer (clock : nat -> Z) (text : jsstring)
    (options : PartialChunkingOptions) :
  ws_free text ->
  len text = chunkSize (merge_options options) + 1 ->
  1 <= minChunkSize (merge_options options) ->
  minChunkSize (merge_options options) <= chunkOverlap (merge_options options) ->
  2 * minChunkSize (merge_options options) <= chunkSize (merge_options options) ->
  exists chunks,
    chunkText clock (S (List.length text)) text options = Some chunks /\
    (2 <= List.length chunks)%nat.
Proof.
  intros Hws Hlen Hmin Hov Hcs.
  destruct (chunkText_terminates clock text options Hmin) as (r & Hr).
  exists r. split; [exact Hr|].
  unfold chunkText in Hr. rewrite (cleanText_ws_free text Hws) in Hr.
  rewrite (trim_ws_free text Hws) in Hr.
  destruct text as [|c0 text0] eqn:Etext; [change (len []) with 0 in Hlen; lia|].
  rewrite <- Etext in *. clear Etext c0 text0.
  set (opts := merge_options options) in *.
  destruct (len text <=? chunkSize opts) eqn:E; [apply Z.leb_le in E; lia|]. clear E.
  set (e1 := window_end opts text 0).
  assert (He1 : e1 <= len text) by (apply window_end_le; lia).
  assert (He1' : minChunkSize opts + 1 <= e1).
  { destruct (window_end_cases opts text 0) as [Hw | Hw]; fold e1 in Hw; lia. }
  set (s2 := next_start opts 0 e1).
  assert (Hs2 : minChunkSize opts <= s2 /\ s2 < e1 /\
                (s2 = e1 - chunkOverlap opts \/ s2 = minChunkSize opts)).
  { unfold s2, next_start. lia. }
  rewrite chunk_loop_emit_continue in Hr; fold e1; fold s2;
    [| lia | rewrite ws_free_window_len by (try assumption; lia); lia | lia].
  fold e1 in Hr. fold s2 in Hr.
  set (e2 := window_end opts text s2).
  assert (He2 : e2 <= len text) by (apply window_end_le; lia).
  assert (He2' : s2 + minChunkSize opts <= e2).
  { destruct (window_end_cases opts text s2) as [Hw | Hw]; fold e2 in Hw; lia. }
  apply chunk_loop_emit_extends in Hr as (c & more & ->);
    [| lia | fold e2; rewrite ws_free_window_len by (try assumption; lia); lia].
  rewrite !length_app. simpl. lia.
Qed.

(** C5, as amended.  For every configuration: a blank text (empty or
    white space only) gives the empty list; a text that is not blank and
    has exactly [chunkSize] units gives exactly one chunk; a text without
    white space that is one unit longer than [chunkSize] gives at least
    two chunks when [1 <= minChunkSize <= chunkOverlap] and
    [2 * minChunkSize <= chunkSize]. *)
Theorem chunkText_length_boundaries (clock : nat -> Z) (text : jsstring)
    (options : PartialChunkingOptions) :
  (blank text -> forall fuel, chunkText clock fuel text options = Some []) /\
  (~ blank text -> len text = chunkSize (merge_options options) ->
   forall fuel, exists c, chunkText clock fuel text options = Some [c]) /\
  (ws_free text -> len text = chunkSize (merge_options options) + 1 ->
   1 <= minChunkSize (merge_options options) ->
   minChunkSize (merge_options options) <= chunkOverlap (merge_options options) ->
   2 * minChunkSize (merge_options options) <= chunkSize (merge_options options) ->
   exists chunks,
     chunkText clock (S (List.length text)) text options = Some chunks /\
     (2 <= List.length chunks)%nat).
Proof.
  split; [|split].
  - intros Hb fuel. unfold chunkText. rewrite (trim_blank text Hb). reflexivity.
  - intros Hnb Hlen fuel. unfold chunkText.
    destruct (trim text) eqn:Et.
    { exfalso. apply Hnb, trim_nil_blank, Et. }
    pose proof (cleanText_len text) as Hc. rewrite Hlen in Hc.
    apply Z.leb_le in Hc. rewrite Hc. eexists. reflexivity.
  - apply chunkText_one_longer.
Qed.

(** Three texts at the boundary: blank, exactly [chunkSize = 2] units,
    and five units with [chunkSize = 4]. *)
Lemma chunkText_length_boundaries_witness :
  let two := {| p_chunkSize := Some 2; p_chunkOverlap := None;
                p_minChunkSize := None; p_preserveParagraphs := None |} in
  let four := {| p_chunkSize := Some 4; p_chunkOverlap := Some 2;
                 p_minChunkSize := Some 2; p_preserveParagraphs := None |} in
  chunkText (fun _ => 0) 0 (u "   ") no_options = Some [] /\
  (exists c, chunkText (fun _ => 0) 0 (u "ab") two = Some [c]) /\
  (exists chunks,
     chunkText (fun _ => 0) (S (List.length (u "abcde"))) (u "abcde") four
     = Some chunks /\
     (2 <= List.length chunks)%nat).
Proof.
  intros two four. split; [|split].
  - apply (proj1 (chunkText_length_boundaries (fun _ => 0) (u "   ") no_options)).
    reflexivity.
  - apply (proj1 (proj2 (chunkText_length_boundaries (fun _ => 0) (u "ab") two))).
    + vm_compute. discriminate.
    + reflexivity.
  - apply (proj2 (proj2 (chunkText_length_boundaries (fun _ => 0) (u "abcde") four))).
    + reflexivity.
    + reflexivity.
    + simpl. lia.
    + simpl. lia.
    + simpl. lia.
Defined.

(** C5 as stated fails: "abc" is one unit longer than [chunkSize = 2],
    and with [minChunkSize = 3] no window is long enough to be kept. *)
Lemma chunkText_one_longer_no_chunk :
  let options := {| p_chunkSize := Some 2; p_chunkOverlap := Some 1;
                    p_minChunkSize := Some 3; p_preserveParagraphs := None |} in
  len (u "abc") = chunkSize (merge_options options) + 1 /\
  forall clock fuel chunks,
    chunkText clock fuel (u "abc") options = Some chunks -> chunks = [].
Proof.
  intros options. split; [reflexivity|].
  intros clock [|fuel] chunks; [discriminate|].
  vm_compute. intros [= <-]. reflexivity.
Qed.

(** ** How far a chunk can exceed [chunkSize] *)

Section SizeBound.

Variable clock : nat -> Z.
Variable opts : ChunkingOptions.
Variable clean : jsstring.

Hypothesis size_nonneg : 0 <= chunkSize opts.
Hypothesis min_nonneg : 0 <= minChunkSize opts.

(** The slack that boundary snapping allows: one unit, for a full stop
    found at the hard cut itself. *)
Let slack : Z := if preserveParagraphs opts then 1 else 0.

Lemma window_content_bound (s : Z) :
  0 <= s -> s < len clean ->
  len (trim (slice clean s (window_end opts clean s))) <= chunkSize opts + slack.
Proof.
  intros H0 Hs. unfold window_end, slack.
  set (e0 := Z.min (s + chunkSize opts) (len clean)).
  assert (He0 : s <= e0 /\ e0 <= len clean /\ e0 - s <= chunkSize opts)
    by (unfold e0; lia).
  assert (Hcut : len (trim (slice clean s e0)) <= chunkSize opts).
  { pose proof (trim_len (slice clean s e0)).
    pose proof (slice_len_le clean s e0). lia. }
  destruct (preserveParagraphs opts); simpl; [|lia].
  destruct (e0 <? len clean); [|lia].
  destruct (lastIndexOf clean [LF; LF] e0 >? s + minChunkSize opts) eqn:E1.
  - apply Z.gtb_lt in E1.
    destruct (lastIndexOf_found clean [LF; LF] e0) as [Hp | (Hp0 & Hp1 & Hp2 & Hp3)];
      [lia|].
    set (pe := lastIndexOf clean [LF; LF] e0) in *.
    destruct (slice_to_occurrence clean [LF; LF] s pe) as (_ & _ & Hsl);
      try assumption; try lia.
    change (len [LF; LF]) with 2 in Hsl. rewrite Hsl.
    pose proof (trim_app_blank_len (slice clean s pe) [LF; LF] eq_refl).
    pose proof (slice_len_le clean s pe). change (len [LF; LF]) with 2 in Hp2. lia.
  - destruct (lastIndexOf clean [DOT] e0 >? s + minChunkSize opts) eqn:E2; [|lia].
    apply Z.gtb_lt in E2.
    destruct (lastIndexOf_found clean [DOT] e0) as [Hp | (Hp0 & Hp1 & Hp2 & Hp3)];
      [lia|].
    set (se := lastIndexOf clean [DOT] e0) in *.
    change (len [DOT]) with 1 in Hp2.
    pose proof (trim_len (slice clean s (se + 1))).
    pose proof (slice_len_le clean s (se + 1)). lia.
Qed.

Lemma chunk_loop_size_bound (fuel : nat) :
  forall s idx acc t r,
    chunk_loop clock opts clean fuel s idx acc t = Some r ->
    0 <= s ->
    Forall (fun c => len (content c) <= chunkSize opts + slack) acc ->
    Forall (fun c => len (content c) <= chunkSize opts + slack) r.
Proof.
  induction fuel as [|fuel IH]; intros s idx acc t r; [discriminate|].
  rewrite chunk_loop_turn.
  destruct (s <? len clean) eqn:Es; [|intros [= <-]; auto].
  apply Z.ltb_lt in Es. cbv zeta. intros H H0 Ha.
  pose proof (window_content_bound s H0 Es) as Hb.
  assert (Hacc : Forall (fun c => len (content c) <= chunkSize opts + slack)
    (if len (trim (slice clean s (window_end opts clean s))) >=? minChunkSize opts
     then acc ++ [createChunk (clock t) (trim (slice clean s (window_end opts clean s)))
                    idx s (window_end opts clean s) Text (u "Document")]
     else acc)).
  { destruct (len (trim (slice clean s (window_end opts clean s))) >=? minChunkSize opts);
      [|exact Ha].
    apply Forall_app. split; [exact Ha | repeat constructor; exact Hb]. }
  destruct (next_start opts s (window_end opts clean s) >=? window_end opts clean s).
  - injection H as <-. exact Hacc.
  - apply (IH _ _ _ _ _ H); [unfold next_start; lia | exact Hacc].
Qed.

End SizeBound.

(** With sizes that are not negative, no chunk has more than
    [chunkSize + 1] units, and none has more than [chunkSize] when
    [preserveParagraphs] is off. *)
Lemma chunkText_size_bound (clock : nat -> Z) (fuel : nat) (text : jsstring)
    (options : PartialChunkingOptions) (chunks : list DocumentChunk) :
  0 <= chunkSize (merge_options options) ->
  0 <= minChunkSize (merge_options options) ->
  chunkText clock fuel text options = Some chunks ->
  Forall (fun c => len (content c) <=
                   chunkSize (merge_options options) +
                   (if preserveParagraphs (merge_options options) then 1 else 0))
         chunks.
Proof.
  intros Hcs Hmin. unfold chunkText.
  destruct (trim text); [intros [= <-]; constructor|].
  destruct (len (cleanText text) <=? chunkSize (merge_options options)) eqn:E.
  - intros [= <-]. apply Z.leb_le in E. repeat constructor. cbn [content createChunk].
    destruct (preserveParagraphs (merge_options options)); lia.
  - intros H.
    apply (chunk_loop_size_bound clock (merge_options options) (cleanText text)
             Hcs Hmin fuel 0 0 [] O chunks H); [lia | constructor].
Qed.

(** ** Without overlap *)


Example chunkText_no_overlap_ex :
  option_map (List.map content)
    (chunkText (fun _ => 0) 9 (u "abcdef")
       {| p_chunkSize := Some 2; p_chunkOverlap := Some 0;
          p_minChunkSize := Some 1; p_preserveParagraphs := None |})
  = Some [u "ab"].
Proof. reflexivity. Qed.

End ChunkerFacts.

(** * The document processor *)

Module ProcessorFacts.

Import Js Chunker Processor ChunkerFacts.

(** What an extractor throws is an [Error] whose message names the
    extractor. *)
Lemma extract_throws_error (w : World) (src : Source) (e : thrown) :
  extract w src = inr e -> exists m, e = ErrorObj m.
Proof.
  destruct src as [buffer file | address | body_text given_title]; simpl.
  - unfold processPDF. destruct (pdf_parse w buffer); [discriminate|].
    intros [= <-]. eexists. reflexivity.
  - unfold processURL. destruct (processURL_try w address); [discriminate|].
    intros [= <-]. eexists. reflexivity.
  - discriminate.
Qed.

Lemma associate_fields (docId docTitle : jsstring) (c : DocumentChunk) :
  documentId (associate docId docTitle c) = docId /\
  documentTitle (Chunker.metadata (associate docId docTitle c)) = docTitle /\
  Chunker.source (Chunker.metadata (associate docId docTitle c))
  = Chunker.source (Chunker.metadata c) /\
  Chunker.content (associate docId docTitle c) = Chunker.content c.
Proof. repeat split. Qed.

(** Every chunk of [chunkText] is labelled with the source kind
    ['text']. *)
Lemma chunk_loop_source (clock : nat -> Z) (opts : ChunkingOptions) (clean : jsstring)
    (fuel : nat) :
  forall s idx acc t r,
    chunk_loop clock opts clean fuel s idx acc t = Some r ->
    Forall (fun c => Chunker.source (Chunker.metadata c) = Text) acc ->
    Forall (fun c => Chunker.source (Chunker.metadata c) = Text) r.
Proof.
  induction fuel as [|fuel IH]; intros s idx acc t r; [discriminate|].
  rewrite chunk_loop_turn.
  destruct (s <? len clean); [|intros [= <-]; auto].
  cbv zeta.
  destruct (len (trim (slice clean s (window_end opts clean s))) >=? minChunkSize opts);
    destruct (next_start opts s (window_end opts clean s) >=? window_end opts clean s).
  - intros [= <-] Ha. apply Forall_app. split; [exact Ha | repeat constructor].
  - intros H Ha. apply (IH _ _ _ _ _ H).
    apply Forall_app. split; [exact Ha | repeat constructor].
  - intros [= <-] Ha. exact Ha.
  - intros H Ha. apply (IH _ _ _ _ _ H Ha).
Qed.

Lemma chunkText_source (clock : nat -> Z) (fuel : nat) (text : jsstring)
    (options : PartialChunkingOptions) (chunks : list DocumentChunk) :
  chunkText clock fuel text options = Some chunks ->
  Forall (fun c => Chunker.source (Chunker.metadata c) = Text) chunks.
Proof.
  unfold chunkText. destruct (trim text); [intros [= <-]; constructor|].
  destruct (len (cleanText text) <=? chunkSize (merge_options options)).
  - intros [= <-]. repeat constructor.
  - intros H. apply (chunk_loop_source _ _ _ _ _ _ _ _ _ H). constructor.
Qed.

(** C7.  The result contract of [processDocument].  When the extractor
    returns and [chunkText] returns [cs], the result has [success = true],
    no error, a document with status [completed] whose [chunkCount] is
    the number of chunks and whose [chunks] are the chunks returned, one
    per chunk of [chunkText].  When the extractor throws, the result has
    [success = false], the message of the error thrown, an empty chunk
    list and the empty object for a document.  With [minChunkSize >= 1]
    one of the two results is returned. *)
Theorem processDocument_result_contract (w : World) (src : Source)
    (chunkingOptions : option PartialChunkingOptions) :
  (forall fuel text md kind ttl cs,
     extract w src = inl (text, md, kind, ttl) ->
     chunkText (fun n => clock w (5 + n)%nat) fuel text
       (or_default chunkingOptions no_options) = Some cs ->
     exists res doc,
       processDocument w fuel src chunkingOptions = Some res /\
       success res = true /\ error res = None /\
       document res = Some doc /\
       status doc = completed /\
       chunkCount (metadata doc) = Z.of_nat (List.length (r_chunks res)) /\
       chunks doc = Some (r_chunks res) /\
       List.length (r_chunks res) = List.length cs /\
       title doc = ttl /\ source doc = kind /\ content doc = text) /\
  (forall fuel e,
     extract w src = inr e ->
     exists res m,
       processDocument w fuel src chunkingOptions = Some res /\
       e = ErrorObj m /\
       success res = false /\ error res = Some m /\
       r_chunks res = [] /\ document res = None) /\
  (1 <= minChunkSize (merge_options (or_default chunkingOptions no_options)) ->
   exists fuel res, processDocument w fuel src chunkingOptions = Some res).
Proof.
  split; [|split].
  - intros fuel text md kind ttl cs He Hc. unfold processDocument.
    rewrite He, Hc. eexists. eexists. split; [reflexivity|].
    cbn. rewrite length_map. repeat split.
    unfold complete. cbn. rewrite length_map. reflexivity.
  - intros fuel e He. destruct (extract_throws_error w src e He) as (m & ->).
    unfold processDocument. rewrite He.
    eexists. exists m. repeat split.
  - intros Hmin. unfold processDocument.
    destruct (extract w src) as [[[[text md] kind] ttl] | e].
    + destruct (chunkText_terminates (fun n => clock w (5 + n)%nat) text
                  (or_default chunkingOptions no_options) Hmin) as (cs & Hcs).
      exists (S (List.length text)). rewrite Hcs. eexists. reflexivity.
    + exists O. eexists. reflexivity.
Qed.

(** A text document of one chunk, and a PDF that the parser rejects. *)
Lemma processDocument_result_contract_witness :
  (exists res doc,
     processDocument pdf_world 1 (TextSource (u "hello") (u "Note")) None = Some res /\
     success res = true /\ document res = Some doc /\
     status doc = completed /\ chunkCount (metadata doc) = 1 /\
     List.length (r_chunks res) = 1%nat) /\
  (exists res,
     processDocument failing_world 0 (PdfSource [] (u "a.pdf")) None = Some res /\
     success res = false /\
     error res = Some (u "Failed to process PDF: bad XRef entry") /\
     r_chunks res = [] /\ document res = None).
Proof.
  split.
  - destruct (proj1 (processDocument_result_contract pdf_world
                       (TextSource (u "hello") (u "Note")) None)
                1%nat (u "hello") _ Text (u "Note") _ eq_refl eq_refl)
      as (res & doc & Hres & Hs & _ & Hd & Hst & Hc & _ & Hl & _).
    exists res, doc. rewrite Hc, Hl. repeat split; assumption.
  - destruct (proj1 (proj2 (processDocument_result_contract failing_world
                              (PdfSource [] (u "a.pdf")) None))
                0%nat _ eq_refl)
      as (res & m & Hres & He & Hs & Herr & Hc & Hd).
    injection He as <-.
    exists res. repeat split; assumption.
Defined.

(** What [processDocument] does write into every chunk: the id and the
    title of the document; the source kind stays ['text']. *)
Lemma processDocument_chunks_associated (w : World) (fuel : nat) (src : Source)
    (chunkingOptions : option PartialChunkingOptions)
    (res : DocumentProcessingResult) (doc : Document) :
  processDocument w fuel src chunkingOptions = Some res ->
  document res = Some doc ->
  Forall (fun c => documentId c = id doc /\
                   documentTitle (Chunker.metadata c) = title doc /\
                   Chunker.source (Chunker.metadata c) = Text)
         (r_chunks res).
Proof.
  unfold processDocument.
  destruct (extract w src) as [[[[text md] kind] ttl] | e].
  - destruct (chunkText _ fuel text _) as [cs|] eqn:Hc; [|discriminate].
    intros [= <-]. cbn. intros [= <-]. cbn.
    apply chunkText_source in Hc.
    apply Forall_map. eapply Forall_impl; [|exact Hc]. cbv beta.
    intros c Hs. repeat split. exact Hs.
  - intros [= <-]. cbn. discriminate.
Qed.

(** C8, the defect.  [chunkText] labels every chunk ['text'], and
    [processDocument] overwrites the document id and the title of each
    chunk but not the source kind: the chunk of a PDF document says
    ['text'] where the document says ['pdf']. *)
Theorem processDocument_pdf_chunk_source :
  exists res doc c,
    processDocument pdf_world 1 (PdfSource [] (u "a.pdf")) None = Some res /\
    success res = true /\
    document res = Some doc /\ r_chunks res = [c] /\
    source doc = Pdf /\
    Chunker.source (Chunker.metadata c) = Text /\
    Chunker.source (Chunker.metadata c) <> source doc /\
    documentId c = id doc /\
    documentTitle (Chunker.metadata c) = title doc.
Proof.
  eexists. eexists. eexists.
  split; [vm_compute; reflexivity|].
  repeat split. discriminate.
Qed.

End ProcessorFacts.

(** * The vector store client *)

Module VectorStoreFacts.

Import Js VectorStore.

Lemma ge_trans (a b c : number) : ge a b = true -> ge b c = true -> ge a c = true.
Proof.
  destruct a as [x|], b as [y|], c as [z|]; simpl; try discriminate.
  rewrite !Qle_bool_iff. intros H1 H2. eapply Qle_trans; eassumption.
Qed.

Lemma keeps_score (thr : number) (m : ScoredRecord) :
  keeps thr m = true ->
  truthy (score (to_result m)) = true /\ ge (score (to_result m)) thr = true.
Proof.
  unfold keeps, to_result. cbn [score]. unfold num_or.
  destruct (m_score m) as [x|]; [|discriminate].
  intros H. apply andb_prop in H as [Ht Hg]. rewrite Ht. auto.
Qed.

(** A score that is missing or zero does not pass, whatever the
    threshold. *)
Lemma keeps_no_score (thr : number) (m : ScoredRecord) :
  m_score m = None \/ (exists x, m_score m = Some x /\ is_zero x) ->
  keeps thr m = false.
Proof.
  unfold keeps. intros [-> | (x & -> & Hz)]; [reflexivity|].
  destruct x as [q|]; [|reflexivity]. simpl in *.
  apply Qeq_bool_iff in Hz. rewrite Hz. reflexivity.
Qed.

Lemma filteredResults_scores (thr : number) (matches : list ScoredRecord) :
  Forall (fun r => truthy (score r) = true /\ ge (score r) thr = true)
         (filteredResults thr matches).
Proof.
  unfold filteredResults. apply Forall_map. apply Forall_forall.
  intros m Hm. apply filter_In in Hm as [_ Hk]. apply keeps_score, Hk.
Qed.

Lemma filteredResults_length (thr : number) (matches : list ScoredRecord) :
  (List.length (filteredResults thr matches) <= List.length matches)%nat.
Proof.
  unfold filteredResults. rewrite length_map. apply filter_length_le.
Qed.

(** The results are the store's matches that pass, in the store's
    order. *)
Lemma filteredResults_descending (thr : number) (matches : list ScoredRecord) :
  descending (List.map to_result matches) ->
  descending (filteredResults thr matches).
Proof.
  unfold descending, filteredResults.
  induction matches as [|m matches IH]; simpl; intros H; [constructor|].
  inversion H as [|? ? Hs Hall]; subst.
  destruct (keeps thr m); simpl; [|apply IH, Hs].
  constructor; [apply IH, Hs|].
  rewrite Forall_forall in *. intros r Hr. apply Hall.
  apply in_map_iff in Hr as (m' & <- & Hm').
  apply filter_In in Hm' as [Hm' _]. apply in_map, Hm'.
Qed.

Lemma at_most_le (k : number) (n n' : nat) :
  (n' <= n)%nat -> at_most k n -> at_most k n'.
Proof.
  unfold at_most. destruct k as [q|]; simpl; [|discriminate].
  rewrite !Qle_bool_iff. intros Hle H.
  eapply Qle_trans; [|exact H].
  rewrite <- Zle_Qle. lia.
Qed.

Lemma queryVectors_returns (env : Env) (client : option Pinecone)
    (queryVector : list number) (options : QueryOptions)
    (results : list VectorSearchResult) (st : option Pinecone) :
  queryVectors env client queryVector options = (inl results, st) ->
  exists matches,
    store_query env (request queryVector options) = inl matches /\
    results = filteredResults (effective_threshold options) matches.
Proof.
  unfold queryVectors.
  destruct (getPineconeClient env client) as [[c | e] st']; [|discriminate].
  destruct (store_query env (request queryVector options)) as [matches | e];
    [|discriminate].
  intros [= <- _]. exists matches. auto.
Qed.

(** C9, as amended.  Whatever the query vector, the options and the
    store's answer, the list that [queryVectors] returns holds only
    results whose score is not zero and is at least the effective
    threshold [options.threshold || 0.3]; it is the store's list of
    matches, in the store's order, without those that fail: it is in
    descending order of score when the store's answer is, and it has at
    most [options.topK || 5] entries when the store's answer has. *)
Theorem queryVectors_result_contract (env : Env) (client : option Pinecone)
    (queryVector : list number) (options : QueryOptions)
    (results : list VectorSearchResult) (st : option Pinecone) :
  queryVectors env client queryVector options = (inl results, st) ->
  exists matches,
    store_query env (request queryVector options) = inl matches /\
    q_topK (request queryVector options) = effective_topK options /\
    results = List.map to_result
                (List.filter (keeps (effective_threshold options)) matches) /\
    Forall (fun r => truthy (score r) = true /\
                     ge (score r) (effective_threshold options) = true) results /\
    (descending (List.map to_result matches) -> descending results) /\
    (at_most (effective_topK options) (List.length matches) ->
     at_most (effective_topK options) (List.length results)).
Proof.
  intros H. apply queryVectors_returns in H as (matches & Hq & ->).
  exists matches. split; [exact Hq|]. split; [reflexivity|]. split; [reflexivity|].
  split; [apply filteredResults_scores|].
  split; [apply filteredResults_descending|].
  apply at_most_le, filteredResults_length.
Qed.

(** Three matches in descending order, a threshold of one half and
    [topK = 3]: two results, in order. *)
Lemma queryVectors_result_contract_witness :
  exists results,
    queryVectors (answering [scored (9 # 10); scored (6 # 10); scored (4 # 10)])
      None [] (options_of (Some (Num 3)) (Some (Num (1 # 2))))
    = (inl results, Some {| apiKey := u "key" |}) /\
    List.length results = 2%nat /\
    Forall (fun r => ge (score r) (Num (1 # 2)) = true) results /\
    descending results /\
    at_most (Num 3) (List.length results).
Proof.
  eexists. split; [vm_compute; reflexivity|]. split; [reflexivity|].
  destruct (queryVectors_result_contract
              (answering [scored (9 # 10); scored (6 # 10); scored (4 # 10)])
              None [] (options_of (Some (Num 3)) (Some (Num (1 # 2))))
              _ _ eq_refl)
    as (matches & Hq & _ & _ & Hs & Hd & Hk).
  injection Hq as <-.
  split; [|split].
  - eapply Forall_impl; [|exact Hs]. cbv beta. intros r [_ Hr]. exact Hr.
  - apply Hd. unfold descending. repeat constructor.
  - apply Hk. reflexivity.
Defined.

(** C9 as stated fails: the code neither sorts nor truncates.  A store
    that answers with scores 0.5 and 0.9, in this order, to a query with
    [topK = 1] gets both back, in this order. *)
Lemma queryVectors_keeps_store_answer :
  exists r1 r2,
    fst (queryVectors (answering [scored (1 # 2); scored (9 # 10)])
           None [] (options_of (Some (Num 1)) None))
    = inl [r1; r2] /\
    score r1 = Num (1 # 2) /\ score r2 = Num (9 # 10) /\
    ~ descending [r1; r2] /\
    ~ at_most (Num 1) (List.length [r1; r2]).
Proof.
  eexists. eexists. split; [vm_compute; reflexivity|].
  split; [reflexivity|]. split; [reflexivity|]. split.
  - intros H. inversion H as [|? ? _ Hall]; subst.
    inversion Hall as [|? ? Hge _]; subst. vm_compute in Hge. discriminate.
  - intros H. vm_compute in H. discriminate.
Qed.

(** C10.  Falsy options take the defaults: a threshold of 0 becomes
    0.3 and a [topK] of 0 becomes 5 in the request, so with a threshold
    of 0 a match that scores below 0.3 is still dropped; and a match
    whose score is missing or 0 is in no result list, whatever the
    threshold: every result has a score that is not zero. *)
Theorem queryVectors_falsy_options :
  (forall options x,
     threshold options = Some x -> is_zero x ->
     effective_threshold options = Num (3 # 10)) /\
  (forall queryVector options x,
     topK options = Some x -> is_zero x ->
     effective_topK options = Num 5 /\
     q_topK (request queryVector options) = Num 5) /\
  (forall env client queryVector options x results st m s,
     threshold options = Some x -> is_zero x ->
     queryVectors env client queryVector options = (inl results, st) ->
     m_score m = Some (Num s) -> (s < 3 # 10)%Q ->
     exists matches,
       store_query env (request queryVector options) = inl matches /\
       results = List.map to_result
                   (List.filter (keeps (Num (3 # 10))) matches) /\
       ~ In m (List.filter (keeps (Num (3 # 10))) matches)) /\
  (forall env client queryVector options results st,
     queryVectors env client queryVector options = (inl results, st) ->
     exists matches,
       store_query env (request queryVector options) = inl matches /\
       results = List.map to_result
                   (List.filter (keeps (effective_threshold options)) matches) /\
       Forall (fun r => truthy (score r) = true) results /\
       forall m,
         m_score m = None \/ (exists x, m_score m = Some x /\ is_zero x) ->
         ~ In m (List.filter (keeps (effective_threshold options)) matches)).
Proof.
  assert (Hzero : forall x, is_zero x -> truthy x = false).
  { intros [q|]; simpl; [|reflexivity]. intros Hz.
    apply Qeq_bool_iff in Hz. rewrite Hz. reflexivity. }
  split; [|split; [|split]].
  - intros options x Hx Hz. unfold effective_threshold, num_or.
    rewrite Hx, (Hzero x Hz). reflexivity.
  - intros queryVector options x Hx Hz.
    assert (effective_topK options = Num 5) as H.
    { unfold effective_topK, num_or. rewrite Hx, (Hzero x Hz). reflexivity. }
    split; [exact H | exact H].
  - intros env client queryVector options x results st m s Hx Hz H Hm Hs.
    apply queryVectors_returns in H as (matches & Hq & ->).
    assert (effective_threshold options = Num (3 # 10)) as ->.
    { unfold effective_threshold, num_or. rewrite Hx, (Hzero x Hz). reflexivity. }
    exists matches. split; [exact Hq|]. split; [reflexivity|].
    intros Hin. apply filter_In in Hin as [_ Hk].
    unfold keeps in Hk. rewrite Hm in Hk. apply andb_prop in Hk as [_ Hk].
    simpl in Hk. apply Qle_bool_iff in Hk. apply (Qlt_not_le _ _ Hs Hk).
  - intros env client queryVector options results st H.
    apply queryVectors_returns in H as (matches & Hq & ->).
    exists matches. split; [exact Hq|]. split; [reflexivity|]. split.
    + eapply Forall_impl; [|apply filteredResults_scores]. cbv beta. intros r [Hr _].
      exact Hr.
    + intros m Hm Hin. apply filter_In in Hin as [_ Hk].
      rewrite (keeps_no_score _ m Hm) in Hk. discriminate.
Qed.

(** A store that answers with scores 0.1, 0, 0.5 and a match without a
    score, queried with a threshold of 0 and [topK = 0]: the request
    asks for 5, and only the match that scores 0.5 comes back. *)
Lemma queryVectors_falsy_options_witness :
  let options := options_of (Some (Num 0)) (Some (Num 0)) in
  let unscored := {| m_id := u "w"; m_score := None; m_metadata := None |} in
  let env := answering [scored (1 # 10); scored 0; scored (1 # 2); unscored] in
  effective_threshold options = Num (3 # 10) /\
  q_topK (request [] options) = Num 5 /\
  exists r,
    fst (queryVectors env None [] options) = inl [r] /\ score r = Num (1 # 2).
Proof.
  intros options unscored env.
  destruct queryVectors_falsy_options as (H1 & H2 & _).
  split; [apply (H1 options (Num 0)); reflexivity|].
  split; [apply (H2 [] options (Num 0)); reflexivity|].
  eexists. split; [vm_compute; reflexivity | reflexivity].
Defined.

End VectorStoreFacts.

(** * More about the chunker *)

Module ChunkerMore.

Import JsStringMore Chunker JsStringFacts ChunkerFacts.

(** ** Decimal numerals *)

Lemma u_inj (s s' : string) : u s = u s' -> s = s'.
Proof.
  unfold u. intros H.
  rewrite <- (string_of_list_ascii_of_string s), <- (string_of_list_ascii_of_string s').
  f_equal. revert H.
  generalize (list_ascii_of_string s) (list_ascii_of_string s').
  induction l as [|a l IH]; intros [|b l']; simpl; try discriminate; [reflexivity|].
  intros [= Hab Hl]. f_equal; [|apply IH, Hl].
  rewrite <- (ascii_N_embedding a), <- (ascii_N_embedding b), Hab. reflexivity.
Qed.

Lemma of_Z_inj (x y : Z) : of_Z x = of_Z y -> x = y.
Proof.
  unfold of_Z. intros H. apply u_inj in H.
  assert (Hn : forall z, Z.to_int z <> Decimal.Pos Decimal.Nil /\
                         Z.to_int z <> Decimal.Neg Decimal.Nil).
  { intros [|p|p]; simpl; split; try discriminate;
      intros [= Hp]; revert Hp; apply DecimalPos.Unsigned.to_uint_nonnil. }
  apply DecimalZ.to_int_inj.
  assert (Some (Z.to_int x) = Some (Z.to_int y)) as [= E]; [|exact E].
  rewrite <- (NilZero.isi (Z.to_int x)) by apply Hn.
  rewrite <- (NilZero.isi (Z.to_int y)) by apply Hn.
  rewrite H. reflexivity.
Qed.

Lemma string_of_uint_digits (d : Decimal.uint) :
  forallb is_digit (u (NilEmpty.string_of_uint d)) = true.
Proof. induction d; simpl; auto. Qed.

(** The numeral of a number that is not negative has digits only. *)
Lemma of_Z_digits (z : Z) : 0 <= z -> forallb is_digit (of_Z z) = true.
Proof.
  intros Hz. unfold of_Z. destruct z as [|p|p]; [reflexivity | | lia].
  simpl Z.to_int. unfold NilZero.string_of_int, NilZero.string_of_uint.
  destruct (Pos.to_uint p) eqn:E; try apply string_of_uint_digits.
  reflexivity.
Qed.

(** Two strings that end in a dash and digits are equal only if the
    digits are. *)
Lemma digits_after_dash (a b x y : jsstring) :
  forallb is_digit x = true -> forallb is_digit y = true ->
  a ++ DASH :: x = b ++ DASH :: y -> x = y.
Proof.
  intros Hx Hy H.
  assert (Hrev : forall x y a b,
    forallb is_digit x = true -> forallb is_digit y = true ->
    x ++ DASH :: a = y ++ DASH :: b -> x = y).
  { clear. induction x as [|c x IH]; intros [|d y] a b Hx Hy H; simpl in *.
    - reflexivity.
    - injection H as Hd _. subst d. discriminate.
    - injection H as Hc _. subst c. discriminate.
    - injection H as -> H.
      apply andb_prop in Hx as [_ Hx]. apply andb_prop in Hy as [_ Hy].
      f_equal. eapply IH; eassumption. }
  apply (f_equal (@rev N)) in H. rewrite !rev_app_distr in H. simpl in H.
  rewrite <- !app_assoc in H. simpl in H.
  rewrite <- (rev_involutive x), <- (rev_involutive y). f_equal.
  apply (Hrev (rev x) (rev y) (rev a) (rev b)); [| | exact H].
  - rewrite forallb_forall in *. intros c Hc. apply Hx, in_rev, Hc.
  - rewrite forallb_forall in *. intros c Hc. apply Hy, in_rev, Hc.
Qed.

(** ** Chunk identifiers *)

(** The id of a chunk ends in a dash and the numeral of its index. *)
Lemma createChunk_id (now : Z) (c : jsstring) (i a b : Z) (k : SourceKind) (t : jsstring) :
  id (createChunk now c i a b k t) = (u "chunk-" ++ of_Z now) ++ DASH :: of_Z i.
Proof. unfold createChunk. cbn [id]. rewrite <- app_assoc. reflexivity. Qed.

Lemma chunk_loop_ids (clock : nat -> Z) (opts : ChunkingOptions) (clean : jsstring)
    (fuel : nat) :
  forall s idx acc t r,
    chunk_loop clock opts clean fuel s idx acc t = Some r ->
    idx = Z.of_nat (List.length acc) ->
    indexed_from 0 acc ->
    Forall (fun c => exists a, id c = a ++ DASH :: of_Z (index c)) acc ->
    indexed_from 0 r /\
    Forall (fun c => exists a, id c = a ++ DASH :: of_Z (index c)) r.
Proof.
  induction fuel as [|fuel IH]; intros s idx acc t r; [discriminate|].
  rewrite chunk_loop_turn.
  destruct (s <? len clean); [|intros [= <-]; auto].
  cbv zeta.
  set (e := window_end opts clean s).
  set (c := createChunk (clock t) (trim (slice clean s e)) idx s e Text (u "Document")).
  intros H Hidx Hix Hid.
  assert (Hpush : indexed_from 0 (acc ++ [c]) /\
                  Forall (fun c => exists a, id c = a ++ DASH :: of_Z (index c))
                         (acc ++ [c])).
  { split; [apply indexed_from_snoc; [exact Hix | exact Hidx]|].
    apply Forall_app. split; [exact Hid|]. constructor; [|constructor].
    eexists. apply createChunk_id. }
  destruct (len (trim (slice clean s e)) >=? minChunkSize opts);
    destruct (next_start opts s e >=? e).
  - injection H as <-. exact Hpush.
  - apply (IH _ _ _ _ _ H); try apply Hpush.
    rewrite length_app. simpl. lia.
  - injection H as <-. auto.
  - apply (IH _ _ _ _ _ H); assumption.
Qed.

Lemma indexed_from_NoDup (l : list DocumentChunk) :
  indexed_from 0 l ->
  NoDup (List.map index l) /\ Forall (fun c => 0 <= index c) l.
Proof.
  unfold indexed_from. intros H. split.
  - rewrite H. apply Finite.Injective_map_NoDup; [|apply seq_NoDup].
    intros x y Hxy. lia.
  - apply Forall_forall. intros c Hc.
    assert (Hin : In (index c) (List.map index l)) by (apply in_map, Hc).
    rewrite H in Hin. apply in_map_iff in Hin as (i & <- & _). lia.
Qed.

Lemma chunkText_ids_NoDup (clock : nat -> Z) (fuel : nat) (text : jsstring)
    (options : PartialChunkingOptions) (chunks : list DocumentChunk) :
  chunkText clock fuel text options = Some chunks ->
  NoDup (List.map id chunks).
Proof.
  intros H.
  assert (Hinv : indexed_from 0 chunks /\
                 Forall (fun c => exists a, id c = a ++ DASH :: of_Z (index c)) chunks).
  { unfold chunkText in H.
    destruct (trim text); [injection H as <-; split; [reflexivity | constructor]|].
    destruct (len (cleanText text) <=? chunkSize (merge_options options)).
    - injection H as <-. split; [reflexivity|].
      constructor; [|constructor]. eexists. apply createChunk_id.
    - apply (chunk_loop_ids _ _ _ _ _ _ _ _ _ H); [reflexivity | reflexivity | constructor]. }
  destruct Hinv as [Hix Hid].
  destruct (indexed_from_NoDup chunks Hix) as [Hnd Hpos].
  clear H Hix. induction chunks as [|c chunks IH]; [constructor|].
  simpl in *. inversion Hnd as [|? ? Hnotin Hnd']; subst.
  inversion Hid as [|? ? (a & Ha) Hid']; subst.
  inversion Hpos as [|? ? Hc Hpos']; subst.
  constructor; [|apply IH; assumption].
  intros Hin. apply Hnotin.
  apply in_map_iff in Hin as (c' & Heq & Hc').
  apply in_map_iff. exists c'. split; [|exact Hc'].
  rewrite Forall_forall in Hid', Hpos'.
  destruct (Hid' c' Hc') as (a' & Ha').
  rewrite Ha, Ha' in Heq.
  apply digits_after_dash in Heq; try (apply of_Z_digits; auto).
  apply of_Z_inj, Heq.
Qed.

(** X4.  The ids of the chunks that one call of [chunkText] returns are
    pairwise distinct, whatever the clock reads: each id ends in the
    numeral of the chunk's index, and the indices differ. *)
Theorem chunkText_ids_distinct (clock : nat -> Z) (fuel : nat) (text : jsstring)
    (options : PartialChunkingOptions) (chunks : list DocumentChunk) :
  chunkText clock fuel text options = Some chunks ->
  NoDup (List.map id chunks).
Proof. apply chunkText_ids_NoDup. Qed.

(** With a clock that stands still, six chunks, six ids. *)
Lemma chunkText_ids_distinct_witness :
  exists chunks,
    chunkText (fun _ => 1700000000000) 9 (u "abcdefghij")
      {| p_chunkSize := Some 4; p_chunkOverlap := Some 2;
         p_minChunkSize := Some 1; p_preserveParagraphs := None |}
    = Some chunks /\
    List.length chunks = 6%nat /\ NoDup (List.map id chunks).
Proof.
  eexists. split; [vm_compute; reflexivity|]. split; [reflexivity|].
  apply (chunkText_ids_distinct (fun _ => 1700000000000) 9 (u "abcdefghij")
           {| p_chunkSize := Some 4; p_chunkOverlap := Some 2;
              p_minChunkSize := Some 1; p_preserveParagraphs := None |}).
  vm_compute. reflexivity.
Defined.

(** ** Termination, size, overlap *)

(** X1.  With [minChunkSize >= 1], [chunkText] returns for every text
    and every other option value, within one turn of the loop per unit
    of the text. *)
Theorem chunkText_returns (clock : nat -> Z) (text : jsstring)
    (options : PartialChunkingOptions) :
  1 <= minChunkSize (merge_options options) ->
  exists chunks, chunkText clock (S (List.length text)) text options = Some chunks.
Proof. apply chunkText_terminates. Qed.

(** The default options on a text of twelve units. *)
Lemma chunkText_returns_witness :
  exists chunks,
    chunkText (fun _ => 0) (S (List.length (u "hello world."))) (u "hello world.")
      no_options = Some chunks.
Proof.
  apply (chunkText_returns (fun _ => 0) (u "hello world.") no_options).
  simpl. lia.
Defined.

(** X2.  With [chunkSize >= 0] and [minChunkSize >= 0], no chunk that
    [chunkText] returns has more than [chunkSize + 1] units of content,
    and none has more than [chunkSize] when [preserveParagraphs] is
    off. *)
Theorem chunkText_content_bound (clock : nat -> Z) (fuel : nat) (text : jsstring)
    (options : PartialChunkingOptions) (chunks : list DocumentChunk) :
  0 <= chunkSize (merge_options options) ->
  0 <= minChunkSize (merge_options options) ->
  chunkText clock fuel text options = Some chunks ->
  Forall (fun c => len (content c) <=
                   chunkSize (merge_options options) +
                   (if preserveParagraphs (merge_options options) then 1 else 0))
         chunks.
Proof. apply chunkText_size_bound. Qed.

(** Windows of three over "abc.de": the bound of four is reached. *)
Lemma chunkText_content_bound_witness :
  let options := {| p_chunkSize := Some 3; p_chunkOverlap := Some 1;
                    p_minChunkSize := Some 1; p_preserveParagraphs := None |} in
  exists chunks,
    chunkText (fun _ => 0) 4 (u "abc.de") options = Some chunks /\
    Forall (fun c => len (content c) <= 3 + 1) chunks.
Proof.
  intros options. eexists. split; [vm_compute; reflexivity|].
  apply (chunkText_content_bound (fun _ => 0) 4 (u "abc.de") options).
  - simpl. lia.
  - simpl. lia.
  - vm_compute. reflexivity.
Defined.



End ChunkerMore.

(** * The normal form of a text *)

Module NormalForm.

Import JsStringMore Chunker JsStringFacts ChunkerFacts.

(** ** [trim] cuts a segment out of the string *)

Lemma trimEnd_prefix (s : jsstring) : exists b, s = trimEnd s ++ b.
Proof.
  unfold trimEnd.
  destruct (trimStart_suffix (rev s)) as (k & _ & Hk & _).
  exists (rev (firstn k (rev s))).
  rewrite Hk, <- rev_app_distr, firstn_skipn, rev_involutive. reflexivity.
Qed.

Lemma trim_segment (s : jsstring) : exists a b, s = a ++ trim s ++ b.
Proof.
  destruct (trimStart_suffix s) as (k & _ & Hk & _).
  destruct (trimEnd_prefix (trimStart s)) as (b & Hb).
  exists (firstn k s), b. unfold trim. rewrite <- Hb, Hk. symmetry. apply firstn_skipn.
Qed.

(** ** No carriage return, no run of three newlines *)

Lemma no_cr_segment (a s b : jsstring) : no_cr (a ++ s ++ b) -> no_cr s.
Proof.
  unfold no_cr. intros H. apply Forall_app in H as [_ H].
  apply Forall_app in H as [H _]. exact H.
Qed.

Lemma no_triple_mono (s : jsstring) (r r' : nat) :
  (r' <= r)%nat -> no_triple r s = true -> no_triple r' s = true.
Proof.
  revert r r'. induction s as [|c s IH]; intros r r' Hr; simpl; [auto|].
  destruct (c =? LF)%N; [|auto].
  intros H. apply andb_prop in H as [H1 H2]. apply Nat.ltb_lt in H1.
  apply andb_true_intro. split; [apply Nat.ltb_lt; lia|].
  apply (IH (S r) (S r')); [lia | exact H2].
Qed.

Lemma no_triple_suffix (a s : jsstring) (r : nat) :
  no_triple r (a ++ s) = true -> no_triple 0 s = true.
Proof.
  revert r. induction a as [|c a IH]; intros r; simpl.
  - apply no_triple_mono. lia.
  - destruct (c =? LF)%N; [|apply IH].
    intros H. apply andb_prop in H as [_ H]. apply (IH _ H).
Qed.

Lemma no_triple_prefix (s b : jsstring) (r : nat) :
  no_triple r (s ++ b) = true -> no_triple r s = true.
Proof.
  revert r. induction s as [|c s IH]; intros r; simpl; [auto|].
  destruct (c =? LF)%N; [|apply IH].
  intros H. apply andb_prop in H as [H1 H2]. rewrite H1. apply (IH _ H2).
Qed.

Lemma no_triple_segment (a s b : jsstring) :
  no_triple 0 (a ++ s ++ b) = true -> no_triple 0 s = true.
Proof.
  intros H. apply no_triple_suffix in H. apply no_triple_prefix in H. exact H.
Qed.

(** ** What each [replace] leaves, and what it leaves alone *)

Lemma replace_cr_no_cr (s : jsstring) : no_cr (replace_cr s).
Proof.
  unfold no_cr, replace_cr. apply Forall_map. apply Forall_forall. intros c _.
  destruct (c =? CR)%N eqn:E; [discriminate|]. apply N.eqb_neq, E.
Qed.

Lemma replace_cr_id (s : jsstring) : no_cr s -> replace_cr s = s.
Proof.
  unfold no_cr, replace_cr. induction 1 as [|c s Hc _ IH]; simpl; [reflexivity|].
  apply N.eqb_neq in Hc. rewrite Hc, IH. reflexivity.
Qed.

Lemma replace_crlf_id (s : jsstring) :
  (no_cr s -> replace_crlf s = s) /\
  forall c, no_cr (c :: s) -> replace_crlf (c :: s) = c :: s.
Proof.
  induction s as [|d s [IHs IHc]].
  - split; [reflexivity|]. intros c _. reflexivity.
  - split; [apply IHc|]. intros c H.
    change (replace_crlf (c :: d :: s))
      with (if (c =? CR)%N && (d =? LF)%N then LF :: replace_crlf s
            else c :: replace_crlf (d :: s)).
    inversion H as [|? ? Hc Hds]; subst.
    apply N.eqb_neq in Hc. rewrite Hc. cbn [andb]. rewrite (IHc d Hds). reflexivity.
Qed.

Lemma newline_run_cases (p : nat) :
  newline_run p = [] \/ newline_run p = [LF] \/ newline_run p = [LF; LF].
Proof.
  unfold newline_run. destruct (3 <=? p)%nat eqn:E; [auto|].
  apply Nat.leb_gt in E.
  destruct p as [|[|[|p]]]; [auto | auto | auto | lia].
Qed.

Lemma newline_run_no_cr (p : nat) : no_cr (newline_run p).
Proof.
  destruct (newline_run_cases p) as [-> | [-> | ->]];
    repeat constructor; discriminate.
Qed.

Lemma collapse_newlines_no_cr (s : jsstring) (p : nat) :
  no_cr s -> no_cr (collapse_newlines p s).
Proof.
  unfold no_cr. intros H. revert p.
  induction H as [|c s Hc _ IH]; intros p; simpl; [apply newline_run_no_cr|].
  destruct (c =? LF)%N; [apply IH|].
  apply Forall_app. split; [apply newline_run_no_cr|]. constructor; [exact Hc | apply IH].
Qed.

Lemma collapse_newlines_no_triple (s : jsstring) (p : nat) :
  no_triple 0 (collapse_newlines p s) = true.
Proof.
  revert p. induction s as [|c s IH]; intros p; simpl.
  - destruct (newline_run_cases p) as [-> | [-> | ->]]; reflexivity.
  - destruct (c =? LF)%N eqn:E; [apply IH|].
    destruct (newline_run_cases p) as [-> | [-> | ->]]; simpl; rewrite E; apply IH.
Qed.

Lemma repeat_snoc (c : N) (p : nat) (s : jsstring) :
  repeat c (S p) ++ s = repeat c p ++ c :: s.
Proof. induction p as [|p IH]; simpl in *; [reflexivity|]. rewrite IH. reflexivity. Qed.

Lemma collapse_newlines_id (s : jsstring) (p : nat) :
  (p <= 2)%nat -> no_triple p s = true ->
  collapse_newlines p s = repeat LF p ++ s.
Proof.
  revert p. induction s as [|c s IH]; intros p Hp; simpl.
  - intros _. unfold newline_run.
    destruct (3 <=? p)%nat eqn:E; [apply Nat.leb_le in E; lia|].
    symmetry. apply app_nil_r.
  - destruct (c =? LF)%N eqn:E.
    + intros H. apply andb_prop in H as [H1 H2]. apply Nat.ltb_lt in H1.
      apply N.eqb_eq in E. subst c.
      rewrite (IH (S p)) by (try lia; exact H2). apply repeat_snoc.
    + intros H. rewrite (IH 0%nat) by (try lia; exact H).
      unfold newline_run.
      destruct (3 <=? p)%nat eqn:E3; [apply Nat.leb_le in E3; lia | reflexivity].
Qed.

(** The normal form has no carriage return and no run of three
    newlines. *)
Lemma cleanText_shape (t : jsstring) :
  no_cr (cleanText t) /\ no_triple 0 (cleanText t) = true.
Proof.
  unfold cleanText.
  set (n := collapse_newlines 0 (replace_cr (replace_crlf t))).
  destruct (trim_segment n) as (a & b & Hn).
  split.
  - apply (no_cr_segment a _ b). rewrite <- Hn.
    apply collapse_newlines_no_cr, replace_cr_no_cr.
  - apply (no_triple_segment a _ b). rewrite <- Hn.
    apply collapse_newlines_no_triple.
Qed.

Lemma cleanText_idempotent (t : jsstring) : cleanText (cleanText t) = cleanText t.
Proof.
  destruct (cleanText_shape t) as [Hcr Htr].
  unfold cleanText at 1.
  rewrite (proj1 (replace_crlf_id (cleanText t)) Hcr).
  rewrite (replace_cr_id _ Hcr).
  rewrite (collapse_newlines_id _ 0) by (try lia; exact Htr).
  simpl. apply cleanText_trimmed.
Qed.

(** X5.  Normalisation is idempotent, and [chunkText] sees its argument
    only through the normal form: the text and its normal form
    [cleanText text] give the same result, with the same options, clock
    and fuel.  The offsets of the chunks count in that normal form. *)
Theorem chunkText_of_normal_form (clock : nat -> Z) (fuel : nat) (text : jsstring)
    (options : PartialChunkingOptions) :
  cleanText (cleanText text) = cleanText text /\
  chunkText clock fuel (cleanText text) options = chunkText clock fuel text options.
Proof.
  split; [apply cleanText_idempotent|].
  unfold chunkText. rewrite cleanText_idempotent, cleanText_trimmed.
  destruct (trim text) eqn:Et.
  - rewrite (cleanText_blank text) by (apply trim_nil_blank, Et). reflexivity.
  - destruct (cleanText text) eqn:Ec; [|reflexivity].
    exfalso. apply (cleanText_nonempty text); [congruence | exact Ec].
Qed.

Example chunkText_crlf_ex :
  cleanText [32; 97; 13; 10; 13; 10; 13; 10; 98; 13; 99; 10]%N
  = [97; 10; 10; 98; 10; 99]%N.
Proof. reflexivity. Qed.

End NormalForm.

(** * The embedding client *)

Module EmbeddingsFacts.

Import Js JsStringMore JsArray Embeddings JsStringFacts.

Lemma substring_head (s : jsstring) (m : Z) :
  0 <= m -> substring s 0 m = firstn (Z.to_nat m) s.
Proof.
  intros Hm. unfold substring. pose proof (len_nonneg s) as Hl.
  replace (Z.min (Z.max 0 0) (len s)) with 0 by lia.
  replace (Z.max m 0) with m by lia.
  set (b := Z.min m (len s)).
  replace (Z.max 0 b) with b by lia. replace (Z.min 0 b) with 0 by lia.
  rewrite Z.sub_0_r. cbn [Z.to_nat skipn].
  destruct (Z.le_ge_cases m (len s)) as [H | H].
  - unfold b. rewrite Z.min_l by lia. reflexivity.
  - unfold b. rewrite Z.min_r by lia. unfold len in *.
    rewrite Nat2Z.id, firstn_all. symmetry. apply firstn_all2. lia.
Qed.

Lemma slice_batch {A} (l : list A) (i : Z) :
  0 <= i -> i < Z.of_nat (List.length l) ->
  JsArray.slice l i (i + 100) = firstn 100 (skipn (Z.to_nat i) l).
Proof.
  intros H0 Hi. unfold JsArray.slice.
  destruct (i <? 0) eqn:E1; [apply Z.ltb_lt in E1; lia|].
  destruct (i + 100 <? 0) eqn:E2; [apply Z.ltb_lt in E2; lia|].
  rewrite (Z.min_l i) by lia.
  destruct (i <? Z.min (i + 100) (Z.of_nat (List.length l))) eqn:E3;
    [|apply Z.ltb_ge in E3; lia].
  destruct (Z.le_ge_cases (i + 100) (Z.of_nat (List.length l))) as [H | H].
  - rewrite Z.min_l by lia. f_equal. lia.
  - rewrite Z.min_r by lia.
    rewrite !firstn_all2; [reflexivity | rewrite length_skipn; lia | rewrite length_skipn; lia].
Qed.

Lemma rejections_app {A} (a b : list (result A)) :
  rejections (a ++ b) = rejections a ++ rejections b.
Proof. unfold rejections. apply flat_map_app. Qed.

Lemma fulfilled_all {A} (l : list (result A)) :
  rejections l = [] -> List.map inl (fulfilled l) = l.
Proof.
  induction l as [|[a | e] l IH]; simpl; [reflexivity | | discriminate].
  intros H. rewrite (IH H). reflexivity.
Qed.

Lemma map_inl_no_rejection {A} (es : list A) :
  rejections (List.map (@inl A thrown) es) = [].
Proof. induction es; simpl; auto. Qed.

Lemma map_inl_inj {A} (a b : list A) :
  List.map (@inl A thrown) a = List.map inl b -> a = b.
Proof.
  revert b. induction a as [|x a IH]; intros [|y b]; simpl; try discriminate; [reflexivity|].
  intros [= -> H]. f_equal. apply IH, H.
Qed.

Section Upstream.

Variable embed : jsstring -> result embedding.
Variable first : list thrown -> thrown.

(** What the upstream call is given: the text, cut after
    [maxTokens * 4 = 32768] units. *)
Lemma generateEmbedding_try_nonblank (text : jsstring) :
  trim text <> [] ->
  generateEmbedding_try embed text = embed (firstn (Z.to_nat (maxTokens * 4)) text).
Proof.
  intros Hne. unfold generateEmbedding_try.
  destruct (trim text); [congruence|]. cbn [nonempty negb].
  assert (Hm : 0 <= maxTokens * 4) by (unfold maxTokens; lia).
  destruct (len text >? maxTokens * 4) eqn:E.
  - rewrite substring_head by exact Hm. reflexivity.
  - rewrite firstn_all2; [reflexivity|].
    rewrite Z.gtb_ltb in E. apply Z.ltb_ge in E. unfold len in E. lia.
Qed.

Lemma generateEmbedding_blank (text : jsstring) :
  blank text ->
  generateEmbedding embed text
  = inr (ErrorObj (u "Failed to generate embedding: Text cannot be empty")).
Proof.
  intros Hb. unfold generateEmbedding, generateEmbedding_try.
  rewrite (trim_blank text Hb). reflexivity.
Qed.

(** The loop, against the list of the single results. *)
Lemma batch_loop_spec (texts : list jsstring) (fuel : nat) :
  forall i acc,
    0 <= i ->
    Z.of_nat (List.length texts) - i <= Z.of_nat fuel ->
    List.map inl acc = firstn (Z.to_nat i) (List.map (generateEmbedding embed) texts) ->
    (rejections (skipn (Z.to_nat i) (List.map (generateEmbedding embed) texts)) = [] ->
     exists es,
       batch_loop embed first (S fuel) texts i acc = Some (inl es) /\
       List.map inl es = List.map (generateEmbedding embed) texts) /\
    (rejections (skipn (Z.to_nat i) (List.map (generateEmbedding embed) texts)) <> [] ->
     exists l,
       batch_loop embed first (S fuel) texts i acc = Some (inr (first l)) /\
       l <> [] /\
       incl l (rejections (List.map (generateEmbedding embed) texts))).
Proof.
  set (all := List.map (generateEmbedding embed) texts).
  assert (Hlen : List.length all = List.length texts) by apply length_map.
  induction fuel as [|fuel IH]; intros i acc H0 Hf Hacc;
    cbn [batch_loop];
    (destruct (i <? Z.of_nat (List.length texts)) eqn:Ei;
     [apply Z.ltb_lt in Ei | apply Z.ltb_ge in Ei]).
  - lia.
  - rewrite skipn_all2 by lia. split; [|intros H; exfalso; apply H; reflexivity].
    intros _. exists acc. split; [reflexivity|].
    rewrite Hacc. apply firstn_all2. lia.
  - rewrite slice_batch by lia.
    rewrite <- firstn_map, <- skipn_map. fold all.
    assert (Hsplit : skipn (Z.to_nat i) all
                     = firstn 100 (skipn (Z.to_nat i) all)
                       ++ skipn (Z.to_nat (i + 100)) all).
    { rewrite <- (firstn_skipn 100 (skipn (Z.to_nat i) all)) at 1.
      rewrite skipn_skipn. do 2 f_equal. lia. }
    set (batch := firstn 100 (skipn (Z.to_nat i) all)) in *.
    assert (Hnext : rejections batch = [] ->
                    List.map inl (acc ++ fulfilled batch)
                    = firstn (Z.to_nat (i + 100)) all).
    { intros Hb. rewrite map_app, (fulfilled_all batch Hb), Hacc.
      replace (Z.to_nat (i + 100)) with (Z.to_nat i + 100)%nat by lia.
      unfold batch. symmetry. apply JsStringFacts.firstn_plus. }
    unfold Promise_all.
    split; intros Hrej; rewrite Hsplit, rejections_app in Hrej.
    + apply app_eq_nil in Hrej as [Hb Hrest]. rewrite Hb.
      apply (IH (i + 100) _); [lia | lia | apply Hnext, Hb | exact Hrest].
    + destruct (rejections batch) as [|e es] eqn:Hb.
      * apply (IH (i + 100) _); [lia | lia | apply Hnext; reflexivity | exact Hrej].
      * exists (e :: es). split; [reflexivity|]. split; [discriminate|].
        rewrite <- Hb.
        rewrite <- (firstn_skipn (Z.to_nat i) all), rejections_app, Hsplit, rejections_app.
        apply incl_appr, incl_appl, incl_refl.
  - rewrite skipn_all2 by lia. split; [|intros H; exfalso; apply H; reflexivity].
    intros _. exists acc. split; [reflexivity|].
    rewrite Hacc. apply firstn_all2. lia.
Qed.

End Upstream.

Lemma generateEmbeddings_cases (embed : jsstring -> result embedding)
    (first : list thrown -> thrown) (texts : list jsstring) :
  (rejections (List.map (generateEmbedding embed) texts) = [] /\
   exists es,
     generateEmbeddings embed first texts = Some (inl es) /\
     List.map inl es = List.map (generateEmbedding embed) texts) \/
  (rejections (List.map (generateEmbedding embed) texts) <> [] /\
   exists l,
     generateEmbeddings embed first texts
     = Some (inr (ErrorObj (u "Failed to generate batch embeddings: "
                            ++ message_or (u "Unknown error") (first l)))) /\
     l <> [] /\ incl l (rejections (List.map (generateEmbedding embed) texts))).
Proof.
  unfold generateEmbeddings.
  destruct texts as [|t texts].
  { left. split; [reflexivity|]. exists []. split; reflexivity. }
  cbn [List.length Nat.eqb].
  destruct (batch_loop_spec embed first (t :: texts) (List.length (t :: texts)) 0 [])
    as [Hok Hfail]; [lia | lia | reflexivity |].
  change (skipn (Z.to_nat 0) ?l) with l in Hok, Hfail.
  destruct (rejections (List.map (generateEmbedding embed) (t :: texts))) as [|e es] eqn:E.
  - left. split; [reflexivity|].
    destruct (Hok eq_refl) as (r & Hr & Hm).
    cbn [List.length] in Hr. rewrite Hr. exists r. split; [reflexivity | exact Hm].
  - right. split; [discriminate|].
    destruct Hfail as (l & Hl & Hne & Hincl); [discriminate|].
    cbn [List.length] in Hl. rewrite Hl. exists l. auto.
Qed.

(** X6.  What [generateEmbedding] sends upstream.  A blank text is
    rejected with "Text cannot be empty" whatever the upstream would
    answer; any other text is sent cut to its first 32768 units, which is
    the whole text when it is no longer than that, and the result is the
    upstream's, a throw wrapped as "Failed to generate embedding: ...". *)
Theorem generateEmbedding_upstream_input (embed : jsstring -> result embedding)
    (text : jsstring) :
  (blank text ->
   generateEmbedding embed text
   = inr (ErrorObj (u "Failed to generate embedding: Text cannot be empty"))) /\
  (~ blank text ->
   exists sent,
     sent = firstn (Z.to_nat 32768) text /\
     len sent <= 32768 /\
     (len text <= 32768 -> sent = text) /\
     generateEmbedding embed text
     = match embed sent with
       | inl e => inl e
       | inr e => inr (ErrorObj (u "Failed to generate embedding: "
                                 ++ message_or (u "Unknown error") e))
       end).
Proof.
  split; [apply generateEmbedding_blank|].
  intros Hnb. exists (firstn (Z.to_nat 32768) text).
  split; [reflexivity|]. split; [|split].
  - unfold len. rewrite length_firstn. lia.
  - intros Hl. apply firstn_all2. unfold len in Hl. lia.
  - unfold generateEmbedding. rewrite generateEmbedding_try_nonblank; [reflexivity|].
    intros Ht. apply Hnb, trim_nil_blank, Ht.
Qed.

(** An upstream that answers every text with the same vector. *)
Lemma generateEmbedding_upstream_input_witness :
  generateEmbedding (fun _ => inl [VectorStore.Num 1]) (u "  ")
  = inr (ErrorObj (u "Failed to generate embedding: Text cannot be empty")) /\
  generateEmbedding (fun t => inl [VectorStore.Num (inject_Z (len t))]) (u "query")
  = inl [VectorStore.Num 5].
Proof.
  split.
  - apply (proj1 (generateEmbedding_upstream_input _ (u "  "))). reflexivity.
  - destruct (proj2 (generateEmbedding_upstream_input
                       (fun t => inl [VectorStore.Num (inject_Z (len t))]) (u "query")))
      as (sent & Hs & _ & Hall & ->).
    + vm_compute. discriminate.
    + rewrite Hall; [reflexivity | vm_compute; discriminate].
Defined.

(** X7.  [generateEmbeddings] returns, and it returns embeddings exactly
    when every text has one: the list then holds, in order, the
    embedding that [generateEmbedding] gives for each text, one per
    text.  Cutting the texts into batches of 100 does not show. *)
Theorem generateEmbeddings_pointwise (embed : jsstring -> result embedding)
    (first : list thrown -> thrown) (texts : list jsstring) :
  (exists r, generateEmbeddings embed first texts = Some r) /\
  forall es,
    generateEmbeddings embed first texts = Some (inl es) <->
    List.map inl es = List.map (generateEmbedding embed) texts.
Proof.
  destruct (generateEmbeddings_cases embed first texts)
    as [(Hrej & es0 & Hr & Hm) | (Hrej & l & Hr & _)].
  - split; [eexists; exact Hr|]. intros es. rewrite Hr. split.
    + intros [= <-]. exact Hm.
    + intros H. rewrite <- Hm in H. apply map_inl_inj in H. subst. reflexivity.
  - split; [eexists; exact Hr|]. intros es. rewrite Hr. split; [discriminate|].
    intros H. exfalso. apply Hrej. rewrite <- H. apply map_inl_no_rejection.
Qed.

(** Two texts, embedded as their lengths. *)
Lemma generateEmbeddings_pointwise_witness :
  generateEmbeddings (fun t => inl [VectorStore.Num (inject_Z (len t))])
    (fun l => hd NonError l) [u "ab"; u "cde"]
  = Some (inl [[VectorStore.Num 2]; [VectorStore.Num 3]]).
Proof.
  apply (proj2 (generateEmbeddings_pointwise
                  (fun t => inl [VectorStore.Num (inject_Z (len t))])
                  (fun l => hd NonError l) [u "ab"; u "cde"])).
  reflexivity.
Defined.

(** X8.  All or nothing: when one text of the list has no embedding (it
    is blank, or the upstream throws on it) [generateEmbeddings] throws
    "Failed to generate batch embeddings: ...", and no embedding of any
    other text is returned. *)
Theorem generateEmbeddings_all_or_nothing (embed : jsstring -> result embedding)
    (first : list thrown -> thrown) (texts : list jsstring) (t : jsstring) :
  In t texts ->
  (blank t \/ exists e, generateEmbedding embed t = inr e) ->
  exists m,
    generateEmbeddings embed first texts = Some (inr (ErrorObj m)) /\
    has_prefix (u "Failed to generate batch embeddings: ") m.
Proof.
  intros Hin Hfail.
  assert (He : exists e, generateEmbedding embed t = inr e).
  { destruct Hfail as [Hb | He]; [|exact He].
    eexists. apply generateEmbedding_blank, Hb. }
  destruct He as (e & He).
  destruct (generateEmbeddings_cases embed first texts)
    as [(Hrej & _) | (_ & l & Hr & _)].
  - exfalso. apply in_split in Hin as (a & b & ->).
    rewrite map_app, rejections_app in Hrej. simpl in Hrej. rewrite He in Hrej.
    apply app_eq_nil in Hrej as [_ Hrej]. discriminate.
  - eexists. split; [exact Hr|]. eexists. reflexivity.
Qed.

(** A blank text among three. *)
Lemma generateEmbeddings_all_or_nothing_witness :
  exists m,
    generateEmbeddings (fun _ => inl [VectorStore.Num 1]) (fun l => hd NonError l)
      [u "ab"; u " "; u "cd"] = Some (inr (ErrorObj m)) /\
    has_prefix (u "Failed to generate batch embeddings: ") m.
Proof.
  apply (generateEmbeddings_all_or_nothing (fun _ => inl [VectorStore.Num 1])
           (fun l => hd NonError l) [u "ab"; u " "; u "cd"] (u " ")).
  - simpl. auto.
  - left. reflexivity.
Defined.

End EmbeddingsFacts.

(** * The document retrieval tool *)

Module RetrievalFacts.

Import Js JsStringMore VectorStore Retrieval JsStringFacts.

Lemma Math_min_cap (t : number) (c : Q) :
  Math_min t (Num c) = NaN \/ exists q, Math_min t (Num c) = Num q /\ (q <= c)%Q.
Proof.
  destruct t as [x|]; [right | left; reflexivity]. simpl.
  destruct (Qle_bool x c) eqn:E.
  - exists x. split; [reflexivity | apply Qle_bool_iff, E].
  - exists c. split; [reflexivity | apply Qle_refl].
Qed.

Lemma effective_threshold_cap (d : Deps) (k t : number) :
  exists q, effective_threshold (query_options d k t) = Num q /\ (q <= 3 # 10)%Q.
Proof.
  unfold effective_threshold, query_options. cbn [threshold num_or].
  destruct (Math_min_cap t (3 # 10)) as [-> | (q & -> & Hq)].
  - exists (3 # 10). split; [reflexivity | apply Qle_refl].
  - destruct (truthy (Num q)).
    + exists q. auto.
    + exists (3 # 10). split; [reflexivity | apply Qle_refl].
Qed.

(** X9.  The tool never asks for more than 0.3: whatever threshold the
    caller gives (0.9, say, or none), the threshold that [queryVectors]
    filters with is a number of at most 0.3, so a match of the store that
    scores 0.3 or more always passes. *)
Theorem retrieve_threshold_cap (d : Deps) (k t : number) (m : ScoredRecord) (s : Q) :
  m_score m = Some (Num s) -> (3 # 10 <= s)%Q ->
  (exists q, effective_threshold (query_options d k t) = Num q /\ (q <= 3 # 10)%Q) /\
  keeps (effective_threshold (query_options d k t)) m = true.
Proof.
  intros Hm Hs. split; [apply effective_threshold_cap|].
  destruct (effective_threshold_cap d k t) as (q & -> & Hq).
  unfold keeps. rewrite Hm. simpl. apply andb_true_intro. split.
  - apply negb_true_iff. destruct (Qeq_bool s 0) eqn:E; [|reflexivity].
    apply Qeq_bool_iff in E. rewrite E in Hs. exfalso.
    apply (Qlt_not_le 0 (3 # 10)); [reflexivity | exact Hs].
  - apply Qle_bool_iff. eapply Qle_trans; eassumption.
Qed.

(** A request for a threshold of 0.9 keeps a match that scores 0.4. *)
Lemma retrieve_threshold_cap_witness :
  keeps (effective_threshold (query_options (plain_deps []) (Num 5) (Num (9 # 10))))
        (scored (4 # 10)) = true.
Proof.
  apply (proj2 (retrieve_threshold_cap (plain_deps []) (Num 5) (Num (9 # 10))
                  (scored (4 # 10)) (4 # 10) eq_refl ltac:(discriminate))).
Defined.

Lemma format_all_spec (d : Deps) (rs : list VectorSearchResult) :
  forall index fs,
    format_all d rs index = inl fs ->
    List.map fr_id fs = List.map VectorStore.id rs /\
    List.map fr_content fs = List.map VectorStore.content rs /\
    List.map rank fs
    = List.map (fun i => Z.of_nat i + 1) (seq index (List.length rs)).
Proof.
  induction rs as [|r rs IH]; intros index fs; simpl.
  - intros [= <-]. auto.
  - unfold format at 1. destruct (VectorStore.metadata r); [|discriminate].
    destruct (format_all d rs (S index)) as [fs'|] eqn:E; [|discriminate].
    intros [= <-]. destruct (IH _ _ E) as (H1 & H2 & H3).
    simpl. rewrite H1, H2, H3. auto.
Qed.

(** X10.  An output without the error flag lists the results of
    [queryVectors] one for one and in order, with ranks 1, 2, ..., n, and
    [totalResults] is their number. *)
Theorem execute_lists_results (d : Deps) (client : option Pinecone)
    (query : jsstring) (topK threshold : option number)
    (out : ToolOutput) (st : option Pinecone) :
  execute d client query topK threshold = (out, st) ->
  error out = false ->
  exists queryEmbedding searchResults,
    Embeddings.generateEmbedding (embedQuery d) query = inl queryEmbedding /\
    queryVectors (env d) client queryEmbedding
      (query_options d (match topK with Some k => k | None => Num 5 end)
         (match threshold with Some t => t | None => Num (3 # 10) end))
    = (inl searchResults, st) /\
    List.map fr_id (results out) = List.map VectorStore.id searchResults /\
    List.map fr_content (results out) = List.map VectorStore.content searchResults /\
    List.map rank (results out)
    = List.map (fun i => Z.of_nat i + 1) (seq 0 (List.length searchResults)) /\
    totalResults out = Z.of_nat (List.length searchResults).
Proof.
  unfold execute.
  destruct (Embeddings.generateEmbedding (embedQuery d) query) as [qe | e];
    [|intros [= <- _]; discriminate].
  destruct (queryVectors (env d) client qe _) as [[rs | e] st'] eqn:Eq;
    [|intros [= <- _]; discriminate].
  destruct rs as [|r rs].
  - intros [= <- <-] _. exists qe, []. repeat split. exact Eq.
  - destruct (format_all d (r :: rs) 0) as [fs | e] eqn:Ef;
      [|intros [= <- _]; discriminate].
    intros [= <- <-] _. exists qe, (r :: rs).
    destruct (format_all_spec d (r :: rs) 0 fs Ef) as (H1 & H2 & H3).
    cbn [results totalResults]. repeat split; try assumption.
    f_equal. apply (f_equal (@List.length _)) in H1. rewrite !length_map in H1. exact H1.
Qed.

(** Three matches of which two pass. *)
Lemma execute_lists_results_witness :
  exists out st,
    execute (plain_deps [with_title (8 # 10) "a"; with_title (1 # 10) "b";
                         with_title (5 # 10) "c"])
      None (u "what") None None = (out, st) /\
    List.map fr_id (results out) = [u "a"; u "c"] /\
    List.map rank (results out) = [1; 2] /\
    totalResults out = 2.
Proof.
  eexists. eexists. split; [vm_compute; reflexivity|].
  destruct (execute_lists_results
              (plain_deps [with_title (8 # 10) "a"; with_title (1 # 10) "b";
                           with_title (5 # 10) "c"])
              None (u "what") None None _ _ eq_refl eq_refl)
    as (qe & rs & _ & Hq & H1 & _ & H3 & H4).
  vm_compute in Hq. injection Hq as <-.
  repeat split; assumption.
Defined.

(** X11.  A blank query never reaches the store: whatever the
    embedding service and the store would answer, the output is the
    error output with no results, and the client handle is as it was. *)
Theorem execute_blank_query (d : Deps) (client : option Pinecone)
    (query : jsstring) (topK threshold : option number) :
  blank query ->
  execute d client query topK threshold
  = ({| out_query := query;
        results := [];
        message := u "Error searching documents: Failed to generate embedding: Text cannot be empty";
        totalResults := 0;
        searchTime := 0;
        error := true |}, client).
Proof.
  intros Hb. unfold execute.
  rewrite (EmbeddingsFacts.generateEmbedding_blank (embedQuery d) query Hb).
  reflexivity.
Qed.

Lemma execute_blank_query_witness :
  error (fst (execute (plain_deps [with_title (8 # 10) "a"]) None (u "  ") None None))
  = true.
Proof.
  rewrite (execute_blank_query (plain_deps [with_title (8 # 10) "a"]) None (u "  ")
             None None eq_refl).
  reflexivity.
Defined.

End RetrievalFacts.

(** * The client handle of the vector store *)

Module VectorStoreOpsFacts.

Import Js VectorStore VectorStoreOps.

Lemma getPineconeClient_keyless (env : Env) :
  keyless env ->
  getPineconeClient env None
  = (inr (ErrorObj (u "PINECONE_API_KEY environment variable is required")), None).
Proof. unfold getPineconeClient. intros [-> | ->]; reflexivity. Qed.

(** X12.  Without an API key and without a client from an earlier
    call, no operation reaches the store: whatever the store would do,
    the query, the deletion and the statistics fail with their fixed
    messages, the upsert fails with a message that names the missing key,
    [verifyIndexExists] answers [false], and the handle stays empty. *)
Theorem no_key_no_store {M : Type} (env : Env) (store : Store M)
    (queryVector : list number) (options : QueryOptions)
    (vectors : list (UpsertVector M)) (ids : list jsstring) :
  keyless env ->
  queryVectors env None queryVector options
  = (inr (ErrorObj (u "Failed to retrieve relevant documents")), None) /\
  upsertVectors env store None vectors
  = (inr (ErrorObj (u "Failed to store document vectors: PINECONE_API_KEY environment variable is required")), None) /\
  deleteVectors env store None ids
  = (inr (ErrorObj (u "Failed to delete document vectors")), None) /\
  getIndexStats env store None
  = (inr (ErrorObj (u "Failed to retrieve index statistics")), None) /\
  verifyIndexExists env store None = (false, None).
Proof.
  intros Hk.
  unfold queryVectors, upsertVectors, deleteVectors, getIndexStats, verifyIndexExists.
  rewrite (getPineconeClient_keyless env Hk). repeat split.
Qed.

Lemma no_key_no_store_witness :
  let env := {| PINECONE_API_KEY := Some []; store_query := fun _ => inl [scored 1] |} in
  fst (queryVectors env None [] (options_of None None))
  = inr (ErrorObj (u "Failed to retrieve relevant documents")) /\
  fst (upsertVectors env (accepting unit) None [])
  = inr (ErrorObj (u "Failed to store document vectors: PINECONE_API_KEY environment variable is required")).
Proof.
  intros env.
  destruct (no_key_no_store env (accepting unit) [] (options_of None None) [] [])
    as (H1 & H2 & _); [right; reflexivity|].
  rewrite H1, H2. split; reflexivity.
Defined.

Lemma getPineconeClient_state (env : Env) (st : option Pinecone) (c : Pinecone)
    (st' : option Pinecone) :
  getPineconeClient env st = (inl c, st') -> st' = Some c.
Proof.
  unfold getPineconeClient. destruct st as [c0|].
  - intros [= <- <-]. reflexivity.
  - destruct (PINECONE_API_KEY env) as [k|]; [|discriminate].
    destruct (nonempty k); [|discriminate]. intros [= <- <-]. reflexivity.
Qed.

(** X13.  The client is made once.  A query that returns leaves a
    client in the handle, and from then on the API key of the environment
    is not read again: the same query against the same store gives the
    same results under any other environment, also one without a key. *)
Theorem client_is_cached (env : Env) (st : option Pinecone)
    (queryVector : list number) (options : QueryOptions)
    (results : list VectorSearchResult) (st' : option Pinecone) :
  queryVectors env st queryVector options = (inl results, st') ->
  (exists c, st' = Some c) /\
  forall key,
    queryVectors {| PINECONE_API_KEY := key; store_query := store_query env |}
      st' queryVector options
    = (inl results, st').
Proof.
  unfold queryVectors.
  destruct (getPineconeClient env st) as [[c | e] st0] eqn:Ec; [|discriminate].
  apply getPineconeClient_state in Ec. subst st0.
  destruct (store_query env (request queryVector options)) as [matches | e] eqn:Eq;
    [|discriminate].
  intros [= <- <-]. split; [exists c; reflexivity|].
  intros key. cbn [getPineconeClient store_query]. rewrite Eq. reflexivity.
Qed.

(** The first query makes the client; the second runs without a key. *)
Lemma client_is_cached_witness :
  exists results st',
    queryVectors (answering [scored (1 # 2)]) None [] (options_of None None)
    = (inl results, st') /\
    queryVectors {| PINECONE_API_KEY := None;
                    store_query := store_query (answering [scored (1 # 2)]) |}
      st' [] (options_of None None)
    = (inl results, st').
Proof.
  eexists. eexists. split; [vm_compute; reflexivity|].
  apply (proj2 (client_is_cached (answering [scored (1 # 2)]) None []
                  (options_of None None) _ _ eq_refl) None).
Defined.

End VectorStoreOpsFacts.

(** * From a document to its vectors *)

Module UploadFacts.

Import Js JsStringMore Chunker VectorStore VectorStoreOps Upload.
Import JsStringFacts ChunkerFacts ChunkerMore.

(** ** The chunks that reach the embedding client *)

Lemma chunk_loop_trimmed (clock : nat -> Z) (opts : ChunkingOptions) (clean : jsstring)
    (fuel : nat) :
  forall s idx acc t r,
    chunk_loop clock opts clean fuel s idx acc t = Some r ->
    Forall (fun c => trim (Chunker.content c) = Chunker.content c) acc ->
    Forall (fun c => trim (Chunker.content c) = Chunker.content c) r.
Proof.
  induction fuel as [|fuel IH]; intros s idx acc t r; [discriminate|].
  rewrite chunk_loop_turn.
  destruct (s <? len clean); [|intros [= <-]; auto].
  cbv zeta.
  destruct (len (trim (slice clean s (window_end opts clean s))) >=? minChunkSize opts);
    destruct (next_start opts s (window_end opts clean s) >=? window_end opts clean s).
  - intros [= <-] Ha. apply Forall_app. split; [exact Ha|].
    repeat constructor. apply trim_idempotent.
  - intros H Ha. apply (IH _ _ _ _ _ H).
    apply Forall_app. split; [exact Ha|]. repeat constructor. apply trim_idempotent.
  - intros [= <-] Ha. exact Ha.
  - intros H Ha. apply (IH _ _ _ _ _ H Ha).
Qed.

(** With [minChunkSize >= 1] the content of every chunk is its own
    [trim] and is not empty. *)
Lemma chunkText_contents (clock : nat -> Z) (fuel : nat) (text : jsstring)
    (options : PartialChunkingOptions) (chunks : list DocumentChunk) :
  1 <= minChunkSize (merge_options options) ->
  chunkText clock fuel text options = Some chunks ->
  Forall (fun c => trim (Chunker.content c) = Chunker.content c /\
                   Chunker.content c <> []) chunks.
Proof.
  intros Hmin. unfold chunkText.
  destruct (trim text) eqn:Et; [intros [= <-]; constructor|].
  assert (Hne : cleanText text <> []) by (apply cleanText_nonempty; congruence).
  destruct (len (cleanText text) <=? chunkSize (merge_options options)).
  - intros [= <-]. repeat constructor; [apply cleanText_trimmed | exact Hne].
  - intros H.
    pose proof (chunk_loop_trimmed _ _ _ _ _ _ _ _ _ H (Forall_nil _)) as Ht.
    pose proof (chunk_loop_min_size _ _ _ _ _ _ _ _ _ H (Forall_nil _)) as Hm.
    rewrite Forall_forall in *. intros c Hc. split; [apply Ht, Hc|].
    specialize (Hm c Hc). intros E. rewrite E in Hm. change (len []) with 0 in Hm. lia.
Qed.

Lemma associate_content (docId ttl : jsstring) (cs : list DocumentChunk) :
  List.map Chunker.content (List.map (Processor.associate docId ttl) cs)
  = List.map Chunker.content cs.
Proof. rewrite map_map. reflexivity. Qed.

Lemma associate_id (docId ttl : jsstring) (cs : list DocumentChunk) :
  List.map Chunker.id (List.map (Processor.associate docId ttl) cs)
  = List.map Chunker.id cs.
Proof. rewrite map_map. reflexivity. Qed.

(** A successful result of [processDocument]: the chunks of
    [chunkText], with contents and ids as they were. *)
Lemma processDocument_success (w : Processor.World) (fuel : nat) (src : Processor.Source)
    (chunkingOptions : option PartialChunkingOptions)
    (res : Processor.DocumentProcessingResult) :
  Processor.processDocument w fuel src chunkingOptions = Some res ->
  Processor.success res = true ->
  exists text clock cs doc,
    chunkText clock fuel text (or_default chunkingOptions no_options) = Some cs /\
    Processor.document res = Some doc /\
    List.map Chunker.content (Processor.r_chunks res) = List.map Chunker.content cs /\
    List.map Chunker.id (Processor.r_chunks res) = List.map Chunker.id cs.
Proof.
  unfold Processor.processDocument.
  destruct (Processor.extract w src) as [[[[text md] kind] ttl] | e].
  - destruct (chunkText _ fuel text _) as [cs|] eqn:Hc; [|discriminate].
    intros [= <-] _. exists text, (fun n => Processor.clock w (5 + n)%nat), cs.
    eexists. split; [exact Hc|]. cbn.
    split; [reflexivity|]. split; [apply associate_content | apply associate_id].
  - intros [= <-]. discriminate.
Qed.

(** X14.  Only extraction makes [processDocument] fail.  A result with
    [success = false] comes from a PDF or a URL source, and its error
    message begins with "Failed to process PDF: " or "Failed to process
    URL: "; a text source never gives one. *)
Theorem processDocument_failure_origin (w : Processor.World) (fuel : nat)
    (src : Processor.Source) (chunkingOptions : option PartialChunkingOptions)
    (res : Processor.DocumentProcessingResult) :
  Processor.processDocument w fuel src chunkingOptions = Some res ->
  Processor.success res = false ->
  exists m,
    Processor.error res = Some m /\
    ((exists buffer file, src = Processor.PdfSource buffer file /\
                          has_prefix (u "Failed to process PDF: ") m) \/
     (exists address, src = Processor.UrlSource address /\
                      has_prefix (u "Failed to process URL: ") m)).
Proof.
  unfold Processor.processDocument.
  destruct (Processor.extract w src) as [[[[text md] kind] ttl] | e] eqn:He.
  - destruct (chunkText _ fuel text _); [|discriminate].
    intros [= <-]. discriminate.
  - intros [= <-] _. cbn.
    destruct src as [buffer file | address | body_text given_title]; simpl in He.
    + unfold Processor.processPDF in He.
      destruct (Processor.pdf_parse w buffer); [discriminate|].
      injection He as <-. eexists. split; [reflexivity|]. left.
      exists buffer, file. split; [reflexivity|]. eexists. reflexivity.
    + unfold Processor.processURL in He.
      destruct (Processor.processURL_try w address); [discriminate|].
      injection He as <-. eexists. split; [reflexivity|]. right.
      exists address. split; [reflexivity|]. eexists. reflexivity.
    + discriminate.
Qed.

(** The parser throws: the message carries the prefix. *)
Lemma processDocument_failure_origin_witness :
  exists m,
    option_map Processor.error
      (Processor.processDocument Processor.failing_world 0
         (Processor.PdfSource [] (u "a.pdf")) None) = Some (Some m) /\
    has_prefix (u "Failed to process PDF: ") m.
Proof.
  destruct (processDocument_failure_origin Processor.failing_world 0
              (Processor.PdfSource [] (u "a.pdf")) None _ eq_refl eq_refl)
    as (m & Hm & [(b & f & _ & Hp) | (a & Hs & _)]); [|discriminate].
  exists m. split; [|exact Hp].
  cbn in Hm. injection Hm as <-. reflexivity.
Defined.

(** X15.  The chunks of a processed document are embedded whole.  With
    [minChunkSize >= 1] and [0 <= chunkSize < 32768] (the defaults are
    such) the content of every chunk of a successful result is not blank
    and has at most 32768 units: [generateEmbedding] never answers "Text
    cannot be empty" for it and sends it upstream uncut. *)
Theorem chunks_embed_whole (w : Processor.World) (fuel : nat) (src : Processor.Source)
    (chunkingOptions : option PartialChunkingOptions)
    (res : Processor.DocumentProcessingResult)
    (embed : jsstring -> result Embeddings.embedding) :
  1 <= minChunkSize (merge_options (or_default chunkingOptions no_options)) ->
  0 <= chunkSize (merge_options (or_default chunkingOptions no_options)) ->
  chunkSize (merge_options (or_default chunkingOptions no_options)) < 32768 ->
  Processor.processDocument w fuel src chunkingOptions = Some res ->
  Forall (fun c =>
            ~ blank (Chunker.content c) /\
            Embeddings.generateEmbedding embed (Chunker.content c)
            = match embed (Chunker.content c) with
              | inl e => inl e
              | inr e => inr (ErrorObj (u "Failed to generate embedding: "
                                        ++ message_or (u "Unknown error") e))
              end)
         (Processor.r_chunks res).
Proof.
  intros Hmin Hcs0 Hcs Hp.
  destruct (Processor.success res) eqn:Hs.
  - destruct (processDocument_success w fuel src chunkingOptions res Hp Hs)
      as (text & clock & cs & doc & Hc & _ & Hcont & _).
    pose proof (chunkText_contents clock fuel text _ cs Hmin Hc) as Ht.
    pose proof (chunkText_size_bound clock fuel text _ cs Hcs0 ltac:(lia) Hc) as Hb.
    apply Forall_forall. intros c Hin.
    assert (Hin' : In (Chunker.content c) (List.map Chunker.content cs)).
    { rewrite <- Hcont. apply in_map, Hin. }
    apply in_map_iff in Hin' as (c0 & Hc0 & Hin0).
    rewrite Forall_forall in Ht, Hb.
    destruct (Ht c0 Hin0) as [Htrim Hne]. specialize (Hb c0 Hin0).
    rewrite Hc0 in *.
    assert (Hnb : trim (Chunker.content c) <> []) by congruence.
    split; [intros B; apply Hnb, trim_blank, B|].
    unfold Embeddings.generateEmbedding.
    rewrite (EmbeddingsFacts.generateEmbedding_try_nonblank embed _ Hnb).
    rewrite firstn_all2; [reflexivity|].
    unfold len, Embeddings.maxTokens in *.
    destruct (preserveParagraphs _); lia.
  - unfold Processor.processDocument in Hp.
    destruct (Processor.extract w src) as [[[[text md] kind] ttl] | e].
    + destruct (chunkText _ fuel text _); [|discriminate].
      injection Hp as <-. discriminate.
    + injection Hp as <-. constructor.
Qed.

(** The default options on a short note. *)
Lemma chunks_embed_whole_witness :
  exists res,
    Processor.processDocument Processor.pdf_world 1
      (Processor.TextSource (u "  a note. ") (u "Note")) None = Some res /\
    List.length (Processor.r_chunks res) = 1%nat /\
    Forall (fun c =>
              ~ blank (Chunker.content c) /\
              Embeddings.generateEmbedding (fun t => inl [Num (inject_Z (len t))])
                (Chunker.content c)
              = inl [Num (inject_Z (len (Chunker.content c)))])
           (Processor.r_chunks res).
Proof.
  eexists. split; [reflexivity|]. split; [reflexivity|].
  apply (chunks_embed_whole Processor.pdf_world 1
           (Processor.TextSource (u "  a note. ") (u "Note")) None _
           (fun t => inl [Num (inject_Z (len t))])).
  - simpl. lia.
  - simpl. lia.
  - simpl. lia.
  - reflexivity.
Defined.

(** ** The upload route *)






(** X17.  What the route refuses before it processes anything.  With
    the two required keys set: a form without file, URL and content gets
    400; a file larger than [maxFileSize] gets 400; a file of another
    media type than [application/pdf] gets 400, also when the form carries
    a URL or text beside it.  With a required key missing every form gets
    500.  In each case the client handle is as it was, whatever the
    processor, the embedding service and the store would do. *)
Theorem upload_refusals (d : Deps) (fuel : nat) (st : option Pinecone) (form : UploadForm) :
  (nonempty (openai_apiKey (config d)) = true ->
   nonempty (pinecone_apiKey (config d)) = true ->
   (file form = None ->
    (url form = None \/ url form = Some []) ->
    (content form = None \/ content form = Some []) ->
    POST d fuel st form
    = Some ({| status := 400;
               body := ErrorBody (u "Either file, URL, or text content is required") |},
            st)) /\
   (forall f, file form = Some f -> size f > maxFileSize (config d) ->
    exists m, POST d fuel st form = Some ({| status := 400; body := ErrorBody m |}, st)) /\
   (forall f, file form = Some f -> size f <= maxFileSize (config d) ->
    type f <> u "application/pdf" ->
    POST d fuel st form
    = Some ({| status := 400; body := ErrorBody (u "Only PDF files are supported") |},
            st))) /\
  (nonempty (openai_apiKey (config d)) = false \/
   nonempty (pinecone_apiKey (config d)) = false ->
   exists m,
     POST d fuel st form = Some ({| status := 500; body := InternalError m |}, st) /\
     has_prefix (u "Missing required environment variables: ") m).
Proof.
  split.
  - intros Ho Hp.
    assert (Hv : validateConfig (config d) = inl tt).
    { unfold validateConfig. rewrite Ho, Hp. reflexivity. }
    unfold POST. rewrite Hv. split; [|split].
    + intros -> Hu Hc.
      destruct Hu as [-> | ->], Hc as [-> | ->]; reflexivity.
    + intros f -> Hf. apply Z.gt_lt, Z.gtb_lt in Hf. rewrite Hf.
      eexists. reflexivity.
    + intros f -> Hf Ht.
      destruct (size f >? maxFileSize (config d)) eqn:E; [apply Z.gtb_lt in E; lia|].
      destruct (list_eq_dec N.eq_dec (type f) (u "application/pdf")); [congruence|].
      reflexivity.
  - intros Hk. unfold POST, validateConfig.
    destruct (nonempty (openai_apiKey (config d))),
             (nonempty (pinecone_apiKey (config d)));
      try (destruct Hk; discriminate);
      (eexists; split; [reflexivity | eexists; reflexivity]).
Qed.

(** An image beside a URL: refused for its type. *)
Lemma upload_refusals_witness :
  POST sample_deps 0 None image_form
  = Some ({| status := 400; body := ErrorBody (u "Only PDF files are supported") |}, None).
Proof.
  destruct (upload_refusals sample_deps 0 None image_form) as [H _].
  destruct (H eq_refl eq_refl) as (_ & _ & Htype).
  apply (Htype _ eq_refl).
  - simpl. lia.
  - discriminate.
Defined.

End UploadFacts.

(** * Conversations in local storage *)

Module ChatStorageFacts.

Import Js JsStringMore ChatStorage JsStringFacts.

Lemma str_eqb_eq (a b : jsstring) : str_eqb a b = true <-> a = b.
Proof. unfold str_eqb. destruct (list_eq_dec N.eq_dec a b); split; congruence. Qed.

Lemma str_eqb_refl (a : jsstring) : str_eqb a a = true.
Proof. apply str_eqb_eq. reflexivity. Qed.

Lemma str_eqb_neq (a b : jsstring) : str_eqb a b = false <-> a <> b.
Proof. unfold str_eqb. destruct (list_eq_dec N.eq_dec a b); split; congruence. Qed.

(** ** The stable sort *)

Section Sort.

Context {A : Type}.
Variable key : A -> Z.

Lemma insert_desc_perm (a : A) (l : list A) : Permutation (insert_desc key a l) (a :: l).
Proof.
  induction l as [|x l IH]; simpl; [reflexivity|].
  destruct (key x >? key a); [|reflexivity].
  rewrite IH. apply perm_swap.
Qed.

Lemma sort_desc_perm (l : list A) : Permutation (sort_desc key l) l.
Proof.
  induction l as [|a l IH]; simpl; [reflexivity|].
  rewrite insert_desc_perm. apply perm_skip, IH.
Qed.

Lemma insert_desc_sorted (a : A) (l : list A) :
  descending_by key l -> descending_by key (insert_desc key a l).
Proof.
  unfold descending_by. induction 1 as [|x l Hl IH Hx]; simpl.
  - repeat constructor.
  - destruct (key x >? key a) eqn:E.
    + apply Z.gtb_lt in E. constructor; [exact IH|].
      eapply Permutation_Forall; [symmetry; apply insert_desc_perm|].
      constructor; [lia | exact Hx].
    + rewrite Z.gtb_ltb in E. apply Z.ltb_ge in E.
      constructor; [constructor; assumption|].
      constructor; [exact E|]. eapply Forall_impl; [|exact Hx]. cbv beta. intros; lia.
Qed.

Lemma sort_desc_sorted (l : list A) : descending_by key (sort_desc key l).
Proof.
  induction l as [|a l IH]; simpl; [constructor | apply insert_desc_sorted, IH].
Qed.

(** An element that is strictly newest comes first. *)
Lemma insert_desc_newest (a : A) (l : list A) :
  Forall (fun x => key x < key a) l -> insert_desc key a l = a :: l.
Proof.
  destruct l as [|x l]; [reflexivity|]. simpl. intros H.
  inversion H as [|? ? Hx _]; subst.
  destruct (key x >? key a) eqn:E; [apply Z.gtb_lt in E; lia | reflexivity].
Qed.

Lemma sort_desc_newest (a : A) (l1 l2 : list A) :
  Forall (fun x => key x < key a) (l1 ++ l2) ->
  sort_desc key (l1 ++ a :: l2) = a :: sort_desc key (l1 ++ l2).
Proof.
  induction l1 as [|x l1 IH]; simpl; intros H.
  - apply insert_desc_newest.
    eapply Permutation_Forall; [symmetry; apply sort_desc_perm | exact H].
  - inversion H as [|? ? Hx Hrest]; subst. rewrite (IH Hrest). simpl.
    destruct (key a >? key x) eqn:E; [reflexivity|].
    rewrite Z.gtb_ltb in E. apply Z.ltb_ge in E. lia.
Qed.

(** Cutting a descending list: what is cut off is not newer than what
    stays. *)
Lemma descending_cut (l : list A) (n : nat) :
  descending_by key l ->
  Forall (fun d => Forall (fun k => key d <= key k) (firstn n l)) (skipn n l).
Proof.
  unfold descending_by. intros H. revert n.
  induction H as [|x l Hl IH Hx]; intros n.
  - rewrite skipn_nil. constructor.
  - destruct n as [|n]; simpl.
    + apply Forall_forall. intros; constructor.
    + specialize (IH n). rewrite Forall_forall in *. intros d Hd.
      constructor; [|apply IH, Hd].
      apply Hx. rewrite <- (firstn_skipn n l). apply in_or_app. right. exact Hd.
Qed.

End Sort.

(** ** Updating the list *)

Definition has_id (i : jsstring) (conv : StoredConversation) : bool := str_eqb (id conv) i.

Lemma find_over_app {A : Type} (f : A -> bool) (l1 l2 : list A) :
  List.find f (l1 ++ l2)
  = match List.find f l1 with Some x => Some x | None => List.find f l2 end.
Proof.
  induction l1 as [|x l1 IH]; simpl; [reflexivity|].
  destruct (f x); [reflexivity | exact IH].
Qed.

Lemma find_replace_first (c : StoredConversation) (l : list StoredConversation) :
  existsb (fun x => str_eqb (id x) (id c)) l = true ->
  List.find (fun conv => str_eqb (id conv) (id c)) (replace_first c l) = Some c.
Proof.
  induction l as [|x l IH]; simpl; [discriminate|].
  destruct (str_eqb (id x) (id c)) eqn:E; simpl.
  - intros _. rewrite str_eqb_refl. reflexivity.
  - intros H. rewrite E. apply IH, H.
Qed.

Lemma find_none_existsb (i : jsstring) (l : list StoredConversation) :
  existsb (fun x => str_eqb (id x) i) l = false ->
  List.find (fun conv => str_eqb (id conv) i) l = None.
Proof.
  induction l as [|x l IH]; simpl; [reflexivity|].
  destruct (str_eqb (id x) i); simpl; [discriminate | exact IH].
Qed.

(** After [put], the conversation is the one found under its id. *)
Lemma find_put (c : StoredConversation) (l : list StoredConversation) :
  List.find (fun conv => str_eqb (id conv) (id c)) (put c l) = Some c.
Proof.
  unfold put. destruct (existsb _ l) eqn:E; [apply find_replace_first, E|].
  rewrite find_over_app, (find_none_existsb _ _ E). simpl. rewrite str_eqb_refl. reflexivity.
Qed.

(** and under any other id, what was found before. *)
Lemma find_put_other (c : StoredConversation) (l : list StoredConversation) (i : jsstring) :
  i <> id c ->
  List.find (fun conv => str_eqb (id conv) i) (put c l)
  = List.find (fun conv => str_eqb (id conv) i) l.
Proof.
  intros Hi. assert (Hc : str_eqb (id c) i = false) by (apply str_eqb_neq; congruence).
  unfold put. destruct (existsb _ l).
  - induction l as [|x l IH]; simpl; [reflexivity|].
    destruct (str_eqb (id x) (id c)) eqn:E; simpl.
    + apply str_eqb_eq in E. rewrite E, Hc. reflexivity.
    + destruct (str_eqb (id x) i); [reflexivity | exact IH].
  - rewrite find_over_app. destruct (List.find _ l); [reflexivity|].
    simpl. rewrite Hc. reflexivity.
Qed.

Lemma replace_first_ids (c : StoredConversation) (l : list StoredConversation) :
  List.map id (replace_first c l) = List.map id l /\
  List.length (replace_first c l) = List.length l.
Proof.
  induction l as [|x l [IH1 IH2]]; simpl; [auto|].
  destruct (str_eqb (id x) (id c)) eqn:E; simpl.
  - apply str_eqb_eq in E. rewrite E. auto.
  - rewrite IH1, IH2. auto.
Qed.

Lemma existsb_id_In (i : jsstring) (l : list StoredConversation) :
  existsb (fun x => str_eqb (id x) i) l = true <-> In i (List.map id l).
Proof.
  rewrite existsb_exists, in_map_iff. split.
  - intros (x & Hx & E). apply str_eqb_eq in E. exists x. auto.
  - intros (x & E & Hx). exists x. split; [exact Hx | apply str_eqb_eq, E].
Qed.

Lemma put_NoDup (c : StoredConversation) (l : list StoredConversation) :
  NoDup (List.map id l) -> NoDup (List.map id (put c l)).
Proof.
  intros H. unfold put. destruct (existsb _ l) eqn:E.
  - rewrite (proj1 (replace_first_ids c l)). exact H.
  - rewrite map_app. simpl.
    apply NoDup_app; [exact H | repeat constructor; intros [] |].
    intros x Hx [<- | []].
    apply existsb_id_In in Hx. congruence.
Qed.

Lemma put_length (c : StoredConversation) (l : list StoredConversation) :
  (List.length (put c l) <= S (List.length l))%nat /\
  (In (id c) (List.map id l) -> List.length (put c l) = List.length l).
Proof.
  unfold put. destruct (existsb _ l) eqn:E.
  - rewrite (proj2 (replace_first_ids c l)). split; [lia | reflexivity].
  - rewrite length_app. simpl. split; [lia|].
    intros Hin. apply existsb_id_In in Hin. congruence.
Qed.

(** ** The cap *)

Lemma keep_recent_length (l : list StoredConversation) :
  (List.length (keep_recent l) <= MAX_CONVERSATIONS)%nat.
Proof.
  unfold keep_recent. destruct (MAX_CONVERSATIONS <? List.length l)%nat eqn:E.
  - rewrite length_firstn. lia.
  - apply Nat.ltb_ge in E. exact E.
Qed.

Lemma keep_recent_small (l : list StoredConversation) :
  (List.length l <= MAX_CONVERSATIONS)%nat -> keep_recent l = l.
Proof.
  intros H. unfold keep_recent.
  destruct (MAX_CONVERSATIONS <? List.length l)%nat eqn:E; [|reflexivity].
  apply Nat.ltb_lt in E. lia.
Qed.

(** What the cap keeps and what it drops. *)
Lemma keep_recent_split (l : list StoredConversation) :
  exists dropped,
    Permutation l (keep_recent l ++ dropped) /\
    Forall (fun d => Forall (fun k => updatedAt d <= updatedAt k) (keep_recent l)) dropped /\
    ((MAX_CONVERSATIONS < List.length l)%nat -> descending_by updatedAt (keep_recent l)).
Proof.
  unfold keep_recent. destruct (MAX_CONVERSATIONS <? List.length l)%nat eqn:E.
  - exists (skipn MAX_CONVERSATIONS (sort_desc updatedAt l)).
    split; [rewrite firstn_skipn; symmetry; apply sort_desc_perm|].
    split; [apply descending_cut, sort_desc_sorted|].
    intros _. unfold descending_by.
    pose proof (sort_desc_sorted updatedAt l) as Hs. unfold descending_by in Hs.
    rewrite <- (firstn_skipn MAX_CONVERSATIONS (sort_desc updatedAt l)) in Hs.
    revert Hs. generalize (firstn MAX_CONVERSATIONS (sort_desc updatedAt l)).
    intros a Hs. induction a as [|x a IH]; [constructor|].
    simpl in Hs. inversion Hs as [|? ? Hs' Hx]; subst.
    constructor; [apply IH, Hs'|]. apply Forall_app in Hx as [Hx _]. exact Hx.
  - exists []. rewrite app_nil_r. split; [reflexivity|]. split; [constructor|].
    apply Nat.ltb_ge in E. lia.
Qed.

Lemma keep_recent_NoDup (l : list StoredConversation) :
  NoDup (List.map id l) -> NoDup (List.map id (keep_recent l)).
Proof.
  intros H. destruct (keep_recent_split l) as (dropped & Hp & _).
  apply (Permutation_map id) in Hp. rewrite map_app in Hp.
  apply (Permutation_NoDup Hp) in H. apply NoDup_app_remove_r in H. exact H.
Qed.

(** ** Reading what is stored *)

Lemma getConversation_stored (ls : LocalStorage) (l : list StoredConversation)
    (i : jsstring) :
  read_or_empty ls = inl l ->
  getConversation ls i = List.find (fun conv => str_eqb (id conv) i) l.
Proof.
  unfold read_or_empty, getConversation.
  destruct (read ls) as [[l0|t]|]; intros H; inversion H; reflexivity.
Qed.

Lemma getConversation_holding (w : bool) (l : list StoredConversation) (i : jsstring) :
  getConversation {| item := Some (Json l); writable := w |} i
  = List.find (fun conv => str_eqb (id conv) i) l.
Proof. reflexivity. Qed.

Lemma filter_ids_NoDup (f : StoredConversation -> bool) (l : list StoredConversation) :
  NoDup (List.map id l) -> NoDup (List.map id (List.filter f l)).
Proof.
  induction l as [|x l IH]; simpl; intros H; [constructor|].
  inversion H as [|? ? Hx Hl]; subst.
  destruct (f x); simpl; [|apply IH, Hl].
  constructor; [|apply IH, Hl].
  intros Hin. apply Hx. apply in_map_iff in Hin as (y & Ey & Hy).
  apply filter_In in Hy as [Hy _]. apply in_map_iff. exists y. auto.
Qed.

Lemma merge_NoDup (imported l : list StoredConversation) :
  NoDup (List.map id l) ->
  NoDup (List.map id (fold_left (fun merged c => put c merged) imported l)).
Proof.
  revert l. induction imported as [|c imported IH]; simpl; intros l H; [exact H|].
  apply IH, put_NoDup, H.
Qed.

(** X18 (generateTitle): a generated title has at most 50 UTF-16 units,
    whatever the messages are: a longer first user message is cut to 47
    units and the three dots, and the fallback title is shorter. *)
Theorem generateTitle_at_most_50 (messages : list Message) :
  len (generateTitle messages) <= 50.
Proof.
  unfold generateTitle.
  destruct (List.find _ messages) as [m|]; [|vm_compute; discriminate].
  cbv zeta. destruct (len (str_or (msg_content m) []) >? 50) eqn:E.
  - rewrite EmbeddingsFacts.substring_head by lia.
    apply Z.gtb_lt in E. unfold len in *. rewrite length_app, length_firstn.
    change (List.length (u "...")) with 3%nat. lia.
  - rewrite Z.gtb_ltb in E. apply Z.ltb_ge in E. exact E.
Qed.

(** X19 (saveConversation, deleteConversation, clearAllConversations,
    importConversations): a storage whose list has at most
    [MAX_CONVERSATIONS] conversations and no id twice is left in that
    state by each of the four functions that write, whatever their
    arguments. *)
Theorem writers_keep_storage_well (e : Env) (ls : LocalStorage)
    (conversationId : option jsstring) (messages : list Message)
    (title : option jsstring) (i : jsstring) (jsonData : Item) :
  well_kept ls ->
  well_kept (snd (saveConversation e ls conversationId messages title)) /\
  well_kept (snd (deleteConversation ls i)) /\
  well_kept (snd (clearAllConversations ls)) /\
  well_kept (snd (importConversations ls jsonData)).
Proof.
  intros H.
  assert (Hl : forall l, read_or_empty ls = inl l -> NoDup (List.map id l)).
  { unfold read_or_empty, read, well_kept in *.
    destruct (item ls) as [[l0|[|c t]]|]; intros l E; inversion E; subst;
      [apply H | constructor | constructor]. }
  assert (Hd : forall l, read ls = Some (inl l) ->
             (List.length l <= MAX_CONVERSATIONS)%nat /\ NoDup (List.map id l)).
  { unfold read, well_kept in *.
    destruct (item ls) as [[l0|[|c t]]|]; intros l E; inversion E; subst. exact H. }
  split; [|split; [|split]].
  - unfold saveConversation. destruct (read_or_empty ls) as [l|t] eqn:E; [|exact H].
    unfold write. destruct (writable ls); [|exact H].
    cbn [snd]. unfold well_kept. cbn [item].
    split; [apply keep_recent_length | apply keep_recent_NoDup, put_NoDup, Hl; reflexivity].
  - unfold deleteConversation. destruct (read ls) as [[l|t]|] eqn:E; try exact H.
    destruct (_ =? _)%nat; [exact H|].
    unfold write. destruct (writable ls); [|exact H].
    cbn [snd]. unfold well_kept. cbn [item].
    destruct (Hd l eq_refl) as [Hlen Hnd].
    split; [|apply filter_ids_NoDup, Hnd].
    pose proof (filter_length_le (fun conv => negb (str_eqb (id conv) i)) l). lia.
  - exact I.
  - unfold importConversations. destruct jsonData as [imported|t]; [|exact H].
    destruct (read_or_empty ls) as [l|t] eqn:E; [|exact H].
    unfold write. destruct (writable ls); [|exact H].
    cbn [snd]. unfold well_kept. cbn [item].
    split; [apply keep_recent_length | apply keep_recent_NoDup, merge_NoDup, Hl; reflexivity].
Qed.

Lemma writers_keep_storage_well_witness :
  well_kept (holding two_stored) /\
  well_kept (snd (saveConversation sample_env (holding two_stored) None
                    [user_message "hi"] None)) /\
  well_kept (snd (deleteConversation (holding two_stored) (u "a"))) /\
  well_kept (snd (clearAllConversations (holding two_stored))) /\
  well_kept (snd (importConversations (holding two_stored) (Json two_stored))).
Proof.
  assert (H : well_kept (holding two_stored)).
  { unfold well_kept, holding, two_stored, MAX_CONVERSATIONS. cbn [item List.length List.map].
    split; [lia|]. repeat (constructor; [cbn; intuition discriminate|]). constructor. }
  split; [exact H|].
  exact (writers_keep_storage_well sample_env (holding two_stored) None
           [user_message "hi"] None (u "a") (Json two_stored) H).
Defined.

(** ** Saving *)

(** Where [put] leaves the conversation: in the place of the first one
    with its id, or at the end. *)
Lemma put_shape (c : StoredConversation) (l : list StoredConversation) :
  exists l1 l2, put c l = l1 ++ c :: l2 /\ incl (l1 ++ l2) l.
Proof.
  unfold put. destruct (existsb _ l) eqn:E.
  - induction l as [|x l IH]; [discriminate|].
    simpl in *. destruct (str_eqb (id x) (id c)) eqn:Ex.
    + exists [], l. split; [reflexivity | apply incl_tl, incl_refl].
    + destruct (IH E) as (l1 & l2 & E1 & Hi). exists (x :: l1), l2.
      rewrite E1. split; [reflexivity|].
      simpl. apply incl_cons; [left; reflexivity | apply incl_tl, Hi].
  - exists l, []. rewrite app_nil_r. split; [reflexivity | apply incl_refl].
Qed.

(** The conversation put is found after the cap, when there is room or
    when it is the newest. *)
Lemma find_kept (c : StoredConversation) (l : list StoredConversation) :
  (List.length l < MAX_CONVERSATIONS)%nat \/
    Forall (fun x => updatedAt x < updatedAt c) l ->
  List.find (fun conv => str_eqb (id conv) (id c)) (keep_recent (put c l)) = Some c.
Proof.
  intros H. destruct (le_lt_dec (List.length (put c l)) MAX_CONVERSATIONS) as [Hs|Hb].
  - rewrite keep_recent_small by exact Hs. apply find_put.
  - destruct H as [H|H]; [pose proof (proj1 (put_length c l)); lia|].
    unfold keep_recent. apply Nat.ltb_lt in Hb. rewrite Hb.
    destruct (put_shape c l) as (l1 & l2 & E & Hi). rewrite E.
    rewrite sort_desc_newest.
    + change MAX_CONVERSATIONS with (S 49). rewrite firstn_cons.
      cbn [List.find]. rewrite str_eqb_refl. reflexivity.
    + rewrite Forall_forall in *. intros x Hx. apply H, Hi, Hx.
Qed.

Lemma find_stored_id (i : jsstring) (l : list StoredConversation) (old : StoredConversation) :
  List.find (fun conv => str_eqb (id conv) i) l = Some old ->
  id old = i /\ In i (List.map id l).
Proof.
  intros H. apply find_some in H as [Hin E]. apply str_eqb_eq in E.
  split; [exact E|]. apply in_map_iff. exists old. auto.
Qed.

(** X20 (saveConversation, getConversation): on a storage that parses
    and takes the write, a conversation saved is the one that
    [getConversation] returns for the id that [saveConversation] returned,
    with the messages given and the title given or generated, provided
    the list has room for it or the clock is ahead of every stored
    update.  (A full list with an update at or after the time of saving
    drops the conversation saved.) *)
Theorem save_then_get (e : Env) (ls : LocalStorage) (conversationId : option jsstring)
    (messages : list Message) (title : option jsstring) (l : list StoredConversation) :
  read_or_empty ls = inl l ->
  writable ls = true ->
  (List.length l < MAX_CONVERSATIONS)%nat \/
    Forall (fun c => forall t, updatedAt c < clock e t) l ->
  exists c,
    getConversation (snd (saveConversation e ls conversationId messages title))
                    (fst (saveConversation e ls conversationId messages title)) = Some c /\
    id c = fst (saveConversation e ls conversationId messages title) /\
    ChatStorage.messages c = messages /\
    ChatStorage.title c = str_or title (generateTitle messages).
Proof.
  intros Hr Hw Hn. unfold saveConversation. rewrite Hr. unfold write. rewrite Hw.
  cbv zeta. cbn [fst snd].
  match goal with |- context [put ?C l] => set (conv := C) end.
  exists conv. rewrite getConversation_holding.
  split; [|split; [|split]]; try reflexivity.
  change (List.find (fun c => str_eqb (id c) (id conv)) (keep_recent (put conv l)) = Some conv).
  apply find_kept. destruct Hn as [Hn|Hn]; [left; exact Hn | right].
  eapply Forall_impl; [|exact Hn]. cbv beta. intros a Ha.
  unfold conv. cbn [updatedAt].
  destruct (match conversationId with Some i => nonempty i | None => false end); apply Ha.
Qed.

Lemma save_then_get_witness :
  exists c,
    getConversation (snd (saveConversation sample_env (holding two_stored) None
                            [user_message "hi"] None))
                    (fst (saveConversation sample_env (holding two_stored) None
                            [user_message "hi"] None)) = Some c /\
    id c = fst (saveConversation sample_env (holding two_stored) None
                  [user_message "hi"] None) /\
    ChatStorage.messages c = [user_message "hi"] /\
    ChatStorage.title c = str_or None (generateTitle [user_message "hi"]).
Proof.
  apply (save_then_get sample_env (holding two_stored) None [user_message "hi"] None
           two_stored).
  - reflexivity.
  - reflexivity.
  - left. unfold two_stored, MAX_CONVERSATIONS. cbn [List.length]. lia.
Defined.

(** X21 (saveConversation): what a save leaves in a storage that parses
    and takes the write is the list with the conversation put in it,
    less what the cap drops: at most [MAX_CONVERSATIONS] stay, nothing
    dropped was updated later than anything kept, and a list within the
    cap is stored as it is, in its order. *)
Theorem save_drops_the_oldest (e : Env) (ls : LocalStorage)
    (conversationId : option jsstring) (messages : list Message)
    (title : option jsstring) (l : list StoredConversation) :
  read_or_empty ls = inl l ->
  writable ls = true ->
  exists c kept dropped,
    item (snd (saveConversation e ls conversationId messages title)) = Some (Json kept) /\
    id c = fst (saveConversation e ls conversationId messages title) /\
    ChatStorage.messages c = messages /\
    Permutation (put c l) (kept ++ dropped) /\
    (List.length kept <= MAX_CONVERSATIONS)%nat /\
    Forall (fun d => Forall (fun k => updatedAt d <= updatedAt k) kept) dropped /\
    ((List.length (put c l) <= MAX_CONVERSATIONS)%nat -> kept = put c l).
Proof.
  intros Hr Hw. unfold saveConversation. rewrite Hr. unfold write. rewrite Hw.
  cbv zeta. cbn [fst snd item].
  match goal with |- context [put ?C l] => set (conv := C) end.
  destruct (keep_recent_split (put conv l)) as (dropped & Hp & Hd & _).
  exists conv, (keep_recent (put conv l)), dropped.
  split; [reflexivity|]. split; [reflexivity|]. split; [reflexivity|].
  split; [exact Hp|]. split; [apply keep_recent_length|]. split; [exact Hd|].
  intros Hs. apply keep_recent_small, Hs.
Qed.

Lemma save_drops_the_oldest_witness :
  exists c kept dropped,
    item (snd (saveConversation sample_env (holding full) None [user_message "hi"] None))
      = Some (Json kept) /\
    id c = fst (saveConversation sample_env (holding full) None [user_message "hi"] None) /\
    ChatStorage.messages c = [user_message "hi"] /\
    Permutation (put c full) (kept ++ dropped) /\
    (List.length kept <= MAX_CONVERSATIONS)%nat /\
    Forall (fun d => Forall (fun k => updatedAt d <= updatedAt k) kept) dropped /\
    ((List.length (put c full) <= MAX_CONVERSATIONS)%nat -> kept = put c full).
Proof.
  apply (save_drops_the_oldest sample_env (holding full) None [user_message "hi"] None full).
  - reflexivity.
  - reflexivity.
Defined.

(** X22 (saveConversation): saving under an id that is stored updates
    the conversation in its place: the id is returned, the date of
    creation stays and the date of update is the time of saving, every
    other conversation is returned as before, and the ids and their
    order in the list do not change. *)
Theorem save_again_updates_in_place (e : Env) (ls : LocalStorage) (i : jsstring)
    (messages : list Message) (title : option jsstring)
    (l : list StoredConversation) (old : StoredConversation) :
  item ls = Some (Json l) ->
  writable ls = true ->
  (List.length l <= MAX_CONVERSATIONS)%nat ->
  i <> [] ->
  getConversation ls i = Some old ->
  fst (saveConversation e ls (Some i) messages title) = i /\
  (exists c,
     getConversation (snd (saveConversation e ls (Some i) messages title)) i = Some c /\
     createdAt c = createdAt old /\
     updatedAt c = clock e 0 /\
     ChatStorage.messages c = messages) /\
  (forall j, j <> i ->
     getConversation (snd (saveConversation e ls (Some i) messages title)) j
     = getConversation ls j) /\
  (exists l',
     item (snd (saveConversation e ls (Some i) messages title)) = Some (Json l') /\
     List.map id l' = List.map id l).
Proof.
  intros Hi Hw Hlen Hne Hold.
  assert (Hr : read_or_empty ls = inl l) by (unfold read_or_empty, read; rewrite Hi; reflexivity).
  assert (Hn : nonempty i = true) by (destruct i; [congruence | reflexivity]).
  rewrite (getConversation_stored _ _ _ Hr) in Hold.
  destruct (find_stored_id _ _ _ Hold) as [Hid Hin].
  unfold saveConversation. rewrite Hr. unfold write. rewrite Hw.
  cbv zeta. cbn [fst snd item str_or]. rewrite Hn, Hold.
  match goal with |- context [put ?C l] => set (conv := C) end.
  assert (Hs : keep_recent (put conv l) = put conv l).
  { apply keep_recent_small. rewrite (proj2 (put_length conv l) Hin). exact Hlen. }
  rewrite Hs. split; [reflexivity|]. split; [|split].
  - exists conv. rewrite getConversation_holding.
    split; [apply (find_put conv l) | repeat split].
  - intros j Hj. rewrite getConversation_holding, (getConversation_stored _ _ _ Hr).
    apply (find_put_other conv l j). exact Hj.
  - exists (put conv l). split; [reflexivity|].
    unfold put. apply existsb_id_In in Hin.
    change (id conv) with i. rewrite Hin. apply replace_first_ids.
Qed.

Lemma save_again_updates_in_place_witness :
  fst (saveConversation sample_env (holding two_stored) (Some (u "a"))
         [user_message "again"] None) = u "a" /\
  (exists c,
     getConversation (snd (saveConversation sample_env (holding two_stored) (Some (u "a"))
                             [user_message "again"] None)) (u "a") = Some c /\
     createdAt c = createdAt (conversation_at (u "a") 10) /\
     updatedAt c = clock sample_env 0 /\
     ChatStorage.messages c = [user_message "again"]) /\
  (forall j, j <> u "a" ->
     getConversation (snd (saveConversation sample_env (holding two_stored) (Some (u "a"))
                             [user_message "again"] None)) j
     = getConversation (holding two_stored) j) /\
  (exists l',
     item (snd (saveConversation sample_env (holding two_stored) (Some (u "a"))
                  [user_message "again"] None)) = Some (Json l') /\
     List.map id l' = List.map id two_stored).
Proof.
  apply (save_again_updates_in_place sample_env (holding two_stored) (u "a")
           [user_message "again"] None two_stored (conversation_at (u "a") 10)).
  - reflexivity.
  - reflexivity.
  - unfold two_stored, MAX_CONVERSATIONS. cbn [List.length]. lia.
  - discriminate.
  - reflexivity.
Defined.

(** ** Deleting *)

Lemma find_filter_other (i j : jsstring) (l : list StoredConversation) :
  j <> i ->
  List.find (fun conv => str_eqb (id conv) j)
            (List.filter (fun conv => negb (str_eqb (id conv) i)) l)
  = List.find (fun conv => str_eqb (id conv) j) l.
Proof.
  intros Hj. induction l as [|a l IH]; simpl; [reflexivity|].
  destruct (str_eqb (id a) i) eqn:Ei; simpl.
  - destruct (str_eqb (id a) j) eqn:Ej; [|exact IH].
    apply str_eqb_eq in Ei, Ej. congruence.
  - destruct (str_eqb (id a) j); [reflexivity | exact IH].
Qed.

Lemma find_filter_same (i : jsstring) (l : list StoredConversation) :
  List.find (fun conv => str_eqb (id conv) i)
            (List.filter (fun conv => negb (str_eqb (id conv) i)) l) = None.
Proof.
  induction l as [|a l IH]; simpl; [reflexivity|].
  destruct (str_eqb (id a) i) eqn:Ei; simpl; [exact IH|].
  rewrite Ei. exact IH.
Qed.

Lemma filter_length_all (i : jsstring) (l : list StoredConversation) :
  List.length (List.filter (fun conv => negb (str_eqb (id conv) i)) l) = List.length l
  <-> List.find (fun conv => str_eqb (id conv) i) l = None.
Proof.
  induction l as [|a l IH]; simpl; [tauto|].
  destruct (str_eqb (id a) i) eqn:Ei; simpl.
  - pose proof (filter_length_le (fun conv => negb (str_eqb (id conv) i)) l).
    split; [lia | discriminate].
  - rewrite <- IH. split; lia.
Qed.

(** X23 (deleteConversation, getConversation): [deleteConversation]
    returns true exactly when the id is stored and the write goes through;
    the id is then stored no more, every other id is returned as before,
    and when false is returned the storage is as it was. *)
Theorem delete_removes_only_that (ls : LocalStorage) (i : jsstring) :
  (fst (deleteConversation ls i) = true <->
     getConversation ls i <> None /\ writable ls = true) /\
  (fst (deleteConversation ls i) = true ->
     getConversation (snd (deleteConversation ls i)) i = None) /\
  (forall j, j <> i ->
     getConversation (snd (deleteConversation ls i)) j = getConversation ls j) /\
  (fst (deleteConversation ls i) = false -> snd (deleteConversation ls i) = ls).
Proof.
  assert (Hg : forall l, read ls = Some (inl l) ->
            forall j, getConversation ls j = List.find (fun conv => str_eqb (id conv) j) l).
  { intros l E j. unfold getConversation. rewrite E. reflexivity. }
  unfold deleteConversation.
  destruct (read ls) as [[l|t]|] eqn:Er.
  - specialize (Hg l eq_refl).
    destruct (_ =? _)%nat eqn:El.
    + apply Nat.eqb_eq, filter_length_all in El. cbn [fst snd].
      repeat split; try discriminate; try reflexivity.
      intros [Hn _]. rewrite Hg in Hn. contradiction.
    + apply Nat.eqb_neq in El. rewrite filter_length_all in El.
      unfold write. destruct (writable ls); cbn [fst snd].
      * rewrite !Hg. repeat split; try discriminate; try assumption.
        -- intros _. rewrite getConversation_holding. apply find_filter_same.
        -- intros j Hj. rewrite getConversation_holding, Hg.
           apply find_filter_other, Hj.
      * repeat split; try discriminate; try reflexivity.
        intros [_ Hw]. discriminate Hw.
  - cbn [fst snd]. repeat split; try discriminate; try reflexivity.
    intros [Hn _]. unfold getConversation in Hn. rewrite Er in Hn. contradiction.
  - cbn [fst snd]. repeat split; try discriminate; try reflexivity.
    intros [Hn _]. unfold getConversation in Hn. rewrite Er in Hn. contradiction.
Qed.

(** ** Listing *)

(** X24 (getConversationSummaries): the summaries come newest update
    first, whatever is stored, and for a stored list there is one summary
    for each conversation, read off it. *)
Theorem summaries_newest_first (ls : LocalStorage) :
  descending_by s_updatedAt (getConversationSummaries ls) /\
  (forall l, item ls = Some (Json l) ->
     Permutation (getConversationSummaries ls) (List.map to_summary l)).
Proof.
  unfold getConversationSummaries. split.
  - destruct (read ls) as [[l|t]|]; try constructor. apply sort_desc_sorted.
  - intros l Hi. unfold read. rewrite Hi. apply sort_desc_perm.
Qed.

(** ** Export and import *)

Lemma replace_first_same (c : StoredConversation) (l : list StoredConversation) :
  NoDup (List.map id l) -> In c l -> replace_first c l = l.
Proof.
  induction l as [|a l IH]; simpl; intros Hnd Hin; [reflexivity|].
  inversion Hnd as [|? ? Ha Hl]; subst.
  destruct Hin as [->|Hin]; [rewrite str_eqb_refl; reflexivity|].
  destruct (str_eqb (id a) (id c)) eqn:E.
  - apply str_eqb_eq in E. exfalso. apply Ha. rewrite E. apply in_map, Hin.
  - f_equal. apply IH; assumption.
Qed.

Lemma put_same (c : StoredConversation) (l : list StoredConversation) :
  NoDup (List.map id l) -> In c l -> put c l = l.
Proof.
  intros Hnd Hin. unfold put.
  assert (E : existsb (fun x => str_eqb (id x) (id c)) l = true)
    by (apply existsb_id_In, in_map, Hin).
  rewrite E. apply replace_first_same; assumption.
Qed.

Lemma merge_same (imported l : list StoredConversation) :
  NoDup (List.map id l) -> incl imported l ->
  fold_left (fun merged c => put c merged) imported l = l.
Proof.
  intros Hnd. induction imported as [|c imported IH]; simpl; intros Hi; [reflexivity|].
  rewrite put_same; [|exact Hnd | apply Hi; left; reflexivity].
  apply IH. intros x Hx. apply Hi. right. exact Hx.
Qed.

Lemma merge_find_other (imported l : list StoredConversation) (j : jsstring) :
  ~ In j (List.map id imported) ->
  List.find (fun conv => str_eqb (id conv) j)
            (fold_left (fun merged c => put c merged) imported l)
  = List.find (fun conv => str_eqb (id conv) j) l.
Proof.
  revert l. induction imported as [|c imported IH]; simpl; intros l Hj; [reflexivity|].
  rewrite IH by tauto. apply find_put_other. intros E. apply Hj. left. congruence.
Qed.

Lemma merge_find_imported (imported l : list StoredConversation) (c : StoredConversation) :
  NoDup (List.map id imported) -> In c imported ->
  List.find (fun conv => str_eqb (id conv) (id c))
            (fold_left (fun merged x => put x merged) imported l) = Some c.
Proof.
  revert l. induction imported as [|x imported IH]; simpl; intros l Hnd Hin; [contradiction|].
  inversion Hnd as [|? ? Hx Hrest]; subst.
  destruct Hin as [->|Hin]; [|apply IH; assumption].
  rewrite merge_find_other by exact Hx. apply find_put.
Qed.

Lemma merge_length (imported l : list StoredConversation) :
  (List.length (fold_left (fun merged c => put c merged) imported l)
   <= List.length l + List.length imported)%nat.
Proof.
  revert l. induction imported as [|c imported IH]; simpl; intros l; [lia|].
  specialize (IH (put c l)). pose proof (proj1 (put_length c l)). lia.
Qed.

(** X25 (exportConversations, importConversations): importing what was
    just exported changes nothing, for a stored list within the cap and
    with no id twice on a storage that takes the write.  (With an id
    twice in the list, the later conversation overwrites the earlier
    one.) *)
Theorem import_of_export_changes_nothing (ls : LocalStorage)
    (l : list StoredConversation) :
  item ls = Some (Json l) ->
  well_kept ls ->
  writable ls = true ->
  importConversations ls (exportConversations ls) = (true, ls).
Proof.
  destruct ls as [it w]. cbn [item writable]. intros -> H ->.
  unfold well_kept in H. cbn [item] in H. destruct H as [Hlen Hnd].
  unfold importConversations, exportConversations, read_or_empty, read, write.
  cbn [item writable].
  rewrite merge_same by (exact Hnd || apply incl_refl).
  rewrite keep_recent_small by exact Hlen. reflexivity.
Qed.

Lemma import_of_export_changes_nothing_witness :
  importConversations (holding two_stored) (exportConversations (holding two_stored))
  = (true, holding two_stored).
Proof.
  apply (import_of_export_changes_nothing (holding two_stored) two_stored).
  - reflexivity.
  - unfold well_kept, holding, two_stored, MAX_CONVERSATIONS. cbn [item List.length List.map].
    split; [lia|]. repeat (constructor; [cbn; intuition discriminate|]). constructor.
  - reflexivity.
Defined.

(** X26 (saveConversation, deleteConversation, importConversations): a
    stored string that does not parse, or a storage that refuses the
    write, is left as it is by the three functions; deleting and
    importing return false, and saving under a given id returns that id
    all the same. *)
Theorem failed_write_changes_nothing (e : Env) (ls : LocalStorage)
    (conversationId : option jsstring) (messages : list Message)
    (title : option jsstring) (i : jsstring) (jsonData : Item) :
  (exists c t, item ls = Some (Raw (c :: t))) \/ writable ls = false ->
  snd (saveConversation e ls conversationId messages title) = ls /\
  (forall g, conversationId = Some g -> g <> [] ->
     fst (saveConversation e ls conversationId messages title) = g) /\
  deleteConversation ls i = (false, ls) /\
  importConversations ls jsonData = (false, ls).
Proof.
  intros H.
  assert (Hsave : forall g, conversationId = Some g -> g <> [] ->
            fst (saveConversation e ls conversationId messages title) = g).
  { intros g -> Hg. assert (Hn : nonempty g = true) by (destruct g; [congruence | reflexivity]).
    unfold saveConversation. cbv zeta. cbn [str_or]. rewrite Hn.
    destruct (read_or_empty ls); [|reflexivity].
    destruct (write ls _); reflexivity. }
  split; [|split; [exact Hsave|]].
  - destruct H as [(c & t & Hi)|Hw].
    + unfold saveConversation, read_or_empty, read. rewrite Hi. reflexivity.
    + unfold saveConversation, write. rewrite Hw. cbv zeta.
      destruct (read_or_empty ls); reflexivity.
  - destruct H as [(c & t & Hi)|Hw].
    + unfold deleteConversation, importConversations, read_or_empty, read. rewrite Hi.
      split; [reflexivity | destruct jsonData; reflexivity].
    + unfold deleteConversation, importConversations, write. rewrite Hw. split.
      * destruct (read ls) as [[l|t]|]; try reflexivity.
        destruct (_ =? _)%nat; reflexivity.
      * destruct jsonData; [|reflexivity].
        destruct (read_or_empty ls); reflexivity.
Qed.

Lemma failed_write_changes_nothing_witness :
  snd (saveConversation sample_env unparsable (Some (u "a")) [user_message "hi"] None)
    = unparsable /\
  (forall g, Some (u "a") = Some g -> g <> [] ->
     fst (saveConversation sample_env unparsable (Some (u "a")) [user_message "hi"] None)
     = g) /\
  deleteConversation unparsable (u "a") = (false, unparsable) /\
  importConversations unparsable (Json two_stored) = (false, unparsable).
Proof.
  apply (failed_write_changes_nothing sample_env unparsable (Some (u "a"))
           [user_message "hi"] None (u "a") (Json two_stored)).
  left. eexists. eexists. reflexivity.
Defined.

(** X27 (importConversations, getConversation): on a storage that
    parses and takes the write, an import whose conversations have
    distinct ids and fit under the cap beside the stored ones returns
    true; each imported conversation is then the one returned for its
    id, in place of a stored one with that id, and every id that was not
    imported is returned as before. *)
Theorem import_overrides_by_id (ls : LocalStorage)
    (existing imported : list StoredConversation) :
  read_or_empty ls = inl existing ->
  writable ls = true ->
  NoDup (List.map id imported) ->
  (List.length existing + List.length imported <= MAX_CONVERSATIONS)%nat ->
  fst (importConversations ls (Json imported)) = true /\
  (forall c, In c imported ->
     getConversation (snd (importConversations ls (Json imported))) (id c) = Some c) /\
  (forall j, ~ In j (List.map id imported) ->
     getConversation (snd (importConversations ls (Json imported))) j
     = getConversation ls j).
Proof.
  intros Hr Hw Hnd Hlen. unfold importConversations. rewrite Hr.
  unfold write. rewrite Hw. cbn [fst snd].
  rewrite keep_recent_small
    by (pose proof (merge_length imported existing); lia).
  split; [reflexivity|]. split.
  - intros c Hc. rewrite getConversation_holding. apply merge_find_imported; assumption.
  - intros j Hj. rewrite getConversation_holding, (getConversation_stored _ _ _ Hr).
    apply merge_find_other, Hj.
Qed.

Lemma import_overrides_by_id_witness :
  fst (importConversations (holding two_stored)
         (Json [conversation_at (u "b") 30; conversation_at (u "c") 40])) = true /\
  (forall c, In c [conversation_at (u "b") 30; conversation_at (u "c") 40] ->
     getConversation
       (snd (importConversations (holding two_stored)
               (Json [conversation_at (u "b") 30; conversation_at (u "c") 40])))
       (id c) = Some c) /\
  (forall j, ~ In j (List.map id [conversation_at (u "b") 30; conversation_at (u "c") 40]) ->
     getConversation
       (snd (importConversations (holding two_stored)
               (Json [conversation_at (u "b") 30; conversation_at (u "c") 40]))) j
     = getConversation (holding two_stored) j).
Proof.
  apply (import_overrides_by_id (holding two_stored) two_stored
           [conversation_at (u "b") 30; conversation_at (u "c") 40]).
  - reflexivity.
  - reflexivity.
  - repeat (constructor; [cbn; intuition discriminate|]). constructor.
  - unfold two_stored, MAX_CONVERSATIONS. cbn [List.length]. lia.
Defined.

End ChatStorageFacts.
